(** * Dewey: the deferred command pipeline, embedded in Rocq

    A shallow embedding of the TypeScript sources of the Dewey book-club
    bot: the title resolver and the batch generator of
    [src/discord/handler.ts], the providers of [src/llm/*.ts] and the
    delivery code of [src/index.ts] ([splitContent], [sendFollowUp],
    [sendToThread], [sendBatchResults], [processDeferred]).

    JavaScript strings are sequences of UTF-16 code units, so a string is
    a [list N]; asynchronous code is written in a small monad that reads
    the history of the calls made so far, returns a completion (a value
    or a thrown exception) and emits the events of the outbound calls it
    makes. *)

From Stdlib Require Import Ascii String.
From Stdlib Require Import List Bool Arith NArith Lia.
Import ListNotations.

Set Implicit Arguments.

(* ================================================================== *)
(** ** JavaScript strings *)
(* ================================================================== *)

Module JS.

(** A string is the list of its UTF-16 code units; [length] is the
    JavaScript [.length]. *)
Definition jsstring := list N.

(** An ASCII literal as a JavaScript string. *)
Definition str (s : string) : jsstring :=
  map N_of_ascii (list_ascii_of_string s).

Definition is_empty (s : jsstring) : bool :=
  match s with [] => true | _ => false end.

Fixpoint eqb (s t : jsstring) : bool :=
  match s, t with
  | [], [] => true
  | c :: s', d :: t' => N.eqb c d && eqb s' t'
  | _, _ => false
  end.

(** WhiteSpace and LineTerminator code units, the ones [trim] strips. *)
Definition isWhiteSpace (c : N) : bool :=
  ((9 <=? c) && (c <=? 13) || (c =? 32) || (c =? 160) || (c =? 5760)
   || (8192 <=? c) && (c <=? 8202)
   || (c =? 8232) || (c =? 8233) || (c =? 8239) || (c =? 8287)
   || (c =? 12288) || (c =? 65279))%N.

Fixpoint trimStart (s : jsstring) : jsstring :=
  match s with
  | c :: s' => if isWhiteSpace c then trimStart s' else s
  | [] => []
  end.

Definition trimEnd (s : jsstring) : jsstring := rev (trimStart (rev s)).

Definition trim (s : jsstring) : jsstring := trimEnd (trimStart s).

(** [s.includes(c)] for a one-unit search string. *)
Definition includes (s : jsstring) (c : N) : bool := existsb (N.eqb c) s.

(** [s.split(sep)] for a one-unit separator: never the empty list. *)
Fixpoint split (sep : N) (s : jsstring) : list jsstring :=
  match s with
  | [] => [[]]
  | c :: s' =>
      if N.eqb c sep then [] :: split sep s'
      else match split sep s' with
           | p :: ps => (c :: p) :: ps
           | [] => [[c]]
           end
  end.

(** [xs.join(sep)]. *)
Fixpoint join (sep : jsstring) (xs : list jsstring) : jsstring :=
  match xs with
  | [] => []
  | [x] => x
  | x :: xs' => x ++ sep ++ join sep xs'
  end.

Fixpoint startsWith (search s : jsstring) : bool :=
  match search, s with
  | [], _ => true
  | c :: search', d :: s' => N.eqb c d && startsWith search' s'
  | _ :: _, [] => false
  end.

(** The scan of [lastIndexOf]: the greatest [k' <= k] at which [search]
    occurs in [s]. *)
Fixpoint lastIndexOf_from (search s : jsstring) (k : nat) : option nat :=
  if startsWith search (skipn k s) then Some k
  else match k with
       | O => None
       | S k' => lastIndexOf_from search s k'
       end.

(** [s.lastIndexOf(search, position)] for a position that is a natural
    number; [None] is the result -1.  The scan starts at
    [min(position, s.length - search.length)]. *)
Definition lastIndexOf (s search : jsstring) (position : nat) : option nat :=
  if length search <=? length s
  then lastIndexOf_from search s (Nat.min position (length s - length search))
  else None.

(** [s.substring(0, k)] and [s.substring(k)] for [k] a natural number. *)
Definition substring_to (s : jsstring) (k : nat) : jsstring := firstn k s.
Definition substring_from (s : jsstring) (k : nat) : jsstring := skipn k s.

(** Decimal digits of a number, as template literals print it. *)
Fixpoint digits (fuel : nat) (n : N) (acc : jsstring) : jsstring :=
  let acc' := (48 + n mod 10)%N :: acc in
  match fuel with
  | O => acc'
  | S fuel' => if (n <? 10)%N then acc' else digits fuel' (n / 10)%N acc'
  end.

Definition ofNumber (n : nat) : jsstring := digits n (N.of_nat n) [].

Definition LF : N := 10.
Definition SPACE : N := 32.
Definition COMMA : N := 44.

End JS.

Import JS.

(* ================================================================== *)
(** ** Chunked delivery: [splitContent] (src/index.ts) *)
(* ================================================================== *)

(** The guard [splitIndex === -1 || splitIndex < maxLength / 2]: the
    division is exact on numbers, so [k < maxLength / 2] is
    [2 * k < maxLength]. *)
Definition rejected (splitIndex : option nat) (maxLength : nat) : bool :=
  match splitIndex with
  | None => true
  | Some k => 2 * k <? maxLength
  end.

(** The split point of one iteration: paragraph break, then line break,
    then space, then the hard cut. *)
Definition findSplitIndex (remaining : jsstring) (maxLength : nat) : nat :=
  let splitIndex := lastIndexOf remaining [LF; LF] maxLength in
  let splitIndex :=
    if rejected splitIndex maxLength
    then lastIndexOf remaining [LF] maxLength else splitIndex in
  let splitIndex :=
    if rejected splitIndex maxLength
    then lastIndexOf remaining [SPACE] maxLength else splitIndex in
  if rejected splitIndex maxLength then maxLength
  else match splitIndex with Some k => k | None => maxLength end.

(** The [while (remaining.length > 0)] loop; [chunks] is the list of the
    strings pushed, in order.  [None] when the fuel runs out. *)
Fixpoint splitLoop (fuel maxLength : nat) (remaining : jsstring)
  : option (list jsstring) :=
  if length remaining =? 0 then Some []
  else if length remaining <=? maxLength then Some [remaining]
  else match fuel with
       | O => None
       | S fuel' =>
           let splitIndex := findSplitIndex remaining maxLength in
           option_map
             (cons (trim (substring_to remaining splitIndex)))
             (splitLoop fuel' maxLength
                (trim (substring_from remaining splitIndex)))
       end.

(** [splitContent(content, maxLength)] with [fuel] iterations allowed. *)
Definition splitContent_fuel (fuel : nat) (content : jsstring)
  (maxLength : nat) : option (list jsstring) :=
  if length content <=? maxLength then Some [content]
  else splitLoop fuel maxLength content.

(** One unit of fuel per code unit of [content] is enough whenever
    [maxLength] is positive ([splitLoop_total]). *)
Definition splitContent_opt (content : jsstring) (maxLength : nat)
  : option (list jsstring) :=
  splitContent_fuel (length content) content maxLength.

Definition DEFAULT_MAX_LENGTH : nat := 1900.

(** [splitContent(content)] with the default [maxLength = 1900], as every
    caller uses it. *)
Definition splitContent (content : jsstring) : list jsstring :=
  match splitContent_opt content DEFAULT_MAX_LENGTH with
  | Some chunks => chunks
  | None => []
  end.

(* ================================================================== *)
(** ** Title resolver: the simple parse (src/discord/handler.ts) *)
(* ================================================================== *)

Module Regex.

(** [\w] without the unicode flag: [A-Za-z0-9_]. *)
Definition isWordChar (c : N) : bool :=
  ((65 <=? c) && (c <=? 90) || (97 <=? c) && (c <=? 122)
   || (48 <=? c) && (c <=? 57) || (c =? 95))%N.

Definition isWordCharAt (c : option N) : bool :=
  match c with Some c => isWordChar c | None => false end.

(** The assertion [\b] between the unit before and the unit after. *)
Definition wordBoundary (before after : option N) : bool :=
  xorb (isWordCharAt before) (isWordCharAt after).

(** Canonicalisation under the [i] flag without the unicode flag: an
    ASCII letter goes to its capital.  A unit above 127 is never mapped
    onto an ASCII unit, so comparing against the ASCII letters of a
    pattern, leaving such a unit unchanged gives the same answers. *)
Definition canonicalize (c : N) : N :=
  if ((97 <=? c) && (c <=? 122))%N then (c - 32)%N else c.

(** The units of [s] continue with [word], ignoring case; returns the
    last unit consumed (or [before] when none was) and the rest of [s]. *)
Fixpoint matchWord (word : jsstring) (before : option N) (s : jsstring)
  : option (option N * jsstring) :=
  match word, s with
  | [], _ => Some (before, s)
  | c :: word', d :: s' =>
      if N.eqb (canonicalize c) (canonicalize d)
      then matchWord word' (Some d) s'
      else None
  | _ :: _, [] => None
  end.

(** [\b(w1|w2|...)\b] anchored at the current position: [before] is the
    unit just before it.  The alternatives are tried in turn. *)
Definition matchWordsHere (words : list jsstring) (before : option N)
  (s : jsstring) : bool :=
  wordBoundary before (hd_error s)
  && existsb (fun word =>
       match matchWord word before s with
       | Some (lastUnit, rest) => wordBoundary lastUnit (hd_error rest)
       | None => false
       end) words.

(** [/\b(w1|w2|...)\b/i.test(s)]: some position of [s] matches. *)
Fixpoint testWordsFrom (words : list jsstring) (before : option N)
  (s : jsstring) : bool :=
  matchWordsHere words before s
  || match s with
     | [] => false
     | c :: s' => testWordsFrom words (Some c) s'
     end.

Definition testWords (words : list jsstring) (s : jsstring) : bool :=
  testWordsFrom words None s.

(** [/[class]$/.test(s)]: the last unit of [s] is in the class. *)
Definition testEndsWithClass (class : list N) (s : jsstring) : bool :=
  match rev s with
  | c :: _ => existsb (N.eqb c) class
  | [] => false
  end.

End Regex.

(** [/\bor\b/i] *)
Definition RE_OR : list jsstring := [str "or"].

(** [/\b(we|you|should|talked|about|add|any|others|thinking)\b/i] *)
Definition RE_CONVERSATIONAL : list jsstring :=
  [str "we"; str "you"; str "should"; str "talked"; str "about";
   str "add"; str "any"; str "others"; str "thinking"].

(** The class of [/[….]$/]: U+2026 and the full stop. *)
Definition HORIZONTAL_ELLIPSIS : N := 8230.
Definition RE_ELLIPSIS_CLASS : list N := [HORIZONTAL_ELLIPSIS; 46%N].

Definition nonEmpty (t : jsstring) : bool := 0 <? length t.

(** [simpleParseTitle]: split by comma, else by newline, else one title. *)
Definition simpleParseTitle (input : jsstring) : list jsstring :=
  if includes input COMMA
  then filter nonEmpty (map trim (split COMMA input))
  else if includes input LF
  then filter nonEmpty (map trim (split LF input))
  else [trim input].

(** The body of the [for] loop of [isValidSimpleParse]: [false] is the
    early [return false]. *)
Definition titleLooksValid (title : jsstring) : bool :=
  if 100 <? length title then false
  else if Regex.testWords RE_OR title then false
  else if Regex.testWords RE_CONVERSATIONAL title then false
  else if Regex.testEndsWithClass RE_ELLIPSIS_CLASS title then false
  else true.

Definition isValidSimpleParse (titles : list jsstring) : bool :=
  if length titles =? 0 then false
  else forallb titleLooksValid titles.

(* ================================================================== *)
(** ** Effects: completions, outbound calls and the history *)
(* ================================================================== *)

(** A thrown value: an [Error] with its message, or anything else. *)
Inductive Thrown : Type :=
| ErrorObject (message : jsstring)
| NotAnError.

(** [error instanceof Error ? error.message : 'Unknown error'] *)
Definition errorMessage (error : Thrown) : jsstring :=
  match error with
  | ErrorObject message => message
  | NotAnError => str "Unknown error"
  end.

(** How an awaited call ends: it resolves or it rejects. *)
Inductive Completion (A : Type) : Type :=
| Return (a : A)
| Throw (error : Thrown).
Arguments Return {A} a.
Arguments Throw {A} error.

(** The Discord endpoints the pipeline posts to. *)
Inductive HttpRequest : Type :=
| PostWebhook (application_id token content : jsstring) (flags : option N)
| PostChannelMessage (channelId content : jsstring)
| PostChannelThread (channelId : option jsstring) (name : jsstring)
| PostMessageThread (channelId : option jsstring) (messageId name : jsstring).

(** What the code reads of a [Response]: [ok], [status], [text()] and
    the [id] of [json()]. *)
Record Response : Type := {
  ok : bool;
  status : N;
  text : Completion jsstring;
  json_id : Completion (option jsstring)
}.

Inductive GenerationType : Type :=
| synopsis | discussion | content_warnings | recommendations.

(** A call to a generation provider.  The prompt is [buildPrompt] of a
    configured template and of these arguments, so the arguments stand
    for the request. *)
Inductive LLMRequest : Type :=
| Generate (bookTitle : jsstring) (type : GenerationType)
    (basedOn : option jsstring)
| ExtractTitles (text : jsstring).

Inductive Event : Type :=
| Fetch (request : HttpRequest) (response : Completion Response)
| ClaudeMessagesCreate (request : LLMRequest)
    (textContent : Completion (option jsstring))
| GeminiGenerateContent (request : LLMRequest)
    (responseText : Completion jsstring)
| SetTimeout (ms : nat).

(** An asynchronous computation: given the events of the invocation so
    far, how it completes and the events it adds. *)
Definition M (A : Type) : Type := list Event -> Completion A * list Event.

Definition ret {A} (a : A) : M A := fun _ => (Return a, []).

Definition throw {A} (error : Thrown) : M A := fun _ => (Throw error, []).

Definition bind {A B} (m : M A) (k : A -> M B) : M B :=
  fun history =>
    match m history with
    | (Return a, events) =>
        let (completion, events') := k a (history ++ events) in
        (completion, events ++ events')
    | (Throw error, events) => (Throw error, events)
    end.

(** [try { m } catch (error) { handler }] *)
Definition try_catch {A} (m : M A) (handler : Thrown -> M A) : M A :=
  fun history =>
    match m history with
    | (Return a, events) => (Return a, events)
    | (Throw error, events) =>
        let (completion, events') := handler error (history ++ events) in
        (completion, events ++ events')
    end.

(** Awaiting a value whose completion is already known. *)
Definition await {A} (c : Completion A) : M A := fun _ => (c, []).

Declare Scope js_scope.
Delimit Scope js_scope with js.
Notation "x <- m ;; k" := (bind m (fun x => k))
  (at level 61, m at next level, right associativity) : js_scope.
Notation "m ;; k" := (bind m (fun _ => k))
  (at level 61, right associativity) : js_scope.
Local Open Scope js_scope.

(** JavaScript truthiness of an optional string. *)
Definition truthy (s : option jsstring) : bool :=
  match s with
  | Some (_ :: _) => true
  | _ => false
  end.

(** [a || b] on optional strings. *)
Definition orElse (a b : option jsstring) : option jsstring :=
  if truthy a then a else b.

(** A command option of an interaction: type 3 is a string, 4 an
    integer, 5 a boolean. *)
Inductive OptionValue : Type :=
| StringValue (value : jsstring)
| IntegerValue (value : N)
| BooleanValue (value : bool)
| OtherValue (type : N).

Record CommandOption : Type := {
  option_name : jsstring;
  option_value : OptionValue
}.

(** The fields of an interaction that [processDeferred] reads. *)
Record Interaction : Type := {
  application_id : jsstring;
  token : jsstring;
  channel : option jsstring;        (* interaction.channel?.id *)
  channel_id : option jsstring;
  data_name : jsstring;
  data_type : N;                    (* ApplicationCommandType *)
  data_options : list CommandOption;
  data_target_id : jsstring;
  (* data.resolved?.messages?.[target_id]?.content *)
  target_content : option jsstring;
  (* the poll of that message, when it has one with an array of
     answers: [answer.poll_media?.text] of each answer, in order *)
  target_poll_answers : option (list (option jsstring))
}.

Definition ApplicationCommandType_Message : N := 3.

(** The process and its surroundings: configuration, and how the remote
    services answer, each answer a function of the events so far. *)
Record Env : Type := {
  DISCORD_BOT_SECRET_TOKEN : option jsstring;
  GEMINI_API_KEY : option jsstring;
  ANTHROPIC_API_KEY : option jsstring;
  (* the provider manager's current selection *)
  currentProvider : jsstring;
  fetch : list Event -> HttpRequest -> Completion Response;
  claude_messages_create :
    list Event -> LLMRequest -> Completion (option jsstring);
  gemini_generateContent : list Event -> LLMRequest -> Completion jsstring;
  (* JSON.parse, cast to string[] as extractTitles declares *)
  JSON_parse : jsstring -> Completion (list jsstring);
  (* the single-artifact slash commands of processDeferred (synopsis,
     discussion, content-warnings, recommend, poll), outside the batch
     pipeline *)
  otherSlashCommand : Interaction -> M unit
}.

(** Result of a single synopsis generation ([SynopsisResult]). *)
Record SynopsisResult : Type := {
  title : jsstring;
  content : jsstring;
  error : option bool
}.

Definition CROSS_MARK : jsstring := [10060%N].          (* U+274C *)
Definition CHECK_MARK : jsstring := [9989%N].           (* U+2705 *)
Definition BOOKS : jsstring := [55357%N; 56538%N].      (* U+1F4DA *)

(** [/\[[\s\S]*\]/]: from the first opening bracket to the last closing
    bracket after it. *)
Fixpoint fromFirst (c : N) (s : jsstring) : option jsstring :=
  match s with
  | [] => None
  | d :: s' => if N.eqb d c then Some s else fromFirst c s'
  end.

Definition throughLast (c : N) (s : jsstring) : option jsstring :=
  option_map (@rev N) (fromFirst c (rev s)).

Definition matchJsonArray (responseText : jsstring) : option jsstring :=
  match fromFirst 91%N responseText with
  | Some (bracket :: rest) =>
      option_map (cons bracket) (throughLast 93%N rest)
  | _ => None
  end.

Fixpoint Promise_all_map {A B} (f : A -> M B) (xs : list A) : M (list B) :=
  match xs with
  | [] => ret []
  | x :: xs' =>
      y <- f x ;;
      ys <- Promise_all_map f xs' ;;
      ret (y :: ys)
  end.

Section Pipeline.

Variable env : Env.

(** *** Outbound calls *)

Definition doFetch (request : HttpRequest) : M Response :=
  fun history =>
    let response := fetch env history request in
    (response, [Fetch request response]).

Definition claudeCall (request : LLMRequest) : M (option jsstring) :=
  fun history =>
    let reply := claude_messages_create env history request in
    (reply, [ClaudeMessagesCreate request reply]).

Definition geminiCall (request : LLMRequest) : M jsstring :=
  fun history =>
    let reply := gemini_generateContent env history request in
    (reply, [GeminiGenerateContent request reply]).

(** [await new Promise(resolve => setTimeout(resolve, ms))] *)
Definition delay (ms : nat) : M unit := fun _ => (Return tt, [SetTimeout ms]).

(** *** Providers (src/llm/claude.ts, src/llm/gemini.ts) *)

(** The [LLMProvider] interface. *)
Record LLMProvider : Type := {
  name : jsstring;
  generateSynopsis : jsstring -> M jsstring;
  generate : jsstring -> GenerationType -> option jsstring -> M jsstring;
  extractTitles : jsstring -> M (list jsstring)
}.

(** The end of both [extractTitles]: no bracketed array gives the empty
    list, otherwise [JSON.parse] of the match. *)
Definition parseJsonArray (responseText : jsstring) : M (list jsstring) :=
  match matchJsonArray responseText with
  | None => ret []
  | Some jsonMatch => await (JSON_parse env jsonMatch)
  end.

Definition ClaudeProvider_generate (bookTitle : jsstring)
  (type : GenerationType) (basedOn : option jsstring) : M jsstring :=
  try_catch
    (textContent <- claudeCall (Generate bookTitle type basedOn) ;;
     match textContent with
     | None => throw (ErrorObject (str "No text content in Claude response"))
     | Some t => ret t
     end)
    (fun error =>
       throw (ErrorObject (str "Claude API error: " ++ errorMessage error))).

Definition ClaudeProvider_extractTitles (input : jsstring)
  : M (list jsstring) :=
  try_catch
    (textContent <- claudeCall (ExtractTitles input) ;;
     match textContent with
     | None => throw (ErrorObject (str "No text content in Claude response"))
     | Some t => parseJsonArray t
     end)
    (fun error =>
       throw (ErrorObject (str "Claude API error: " ++ errorMessage error))).

Definition ClaudeProvider : LLMProvider := {|
  name := str "claude";
  generateSynopsis := fun bookTitle =>
    ClaudeProvider_generate bookTitle synopsis None;
  generate := ClaudeProvider_generate;
  extractTitles := ClaudeProvider_extractTitles
|}.

Definition GeminiProvider_generate (bookTitle : jsstring)
  (type : GenerationType) (basedOn : option jsstring) : M jsstring :=
  try_catch
    (geminiCall (Generate bookTitle type basedOn))
    (fun error =>
       throw (ErrorObject (str "Gemini API error: " ++ errorMessage error))).

Definition GeminiProvider_extractTitles (input : jsstring)
  : M (list jsstring) :=
  try_catch
    (responseText <- geminiCall (ExtractTitles input) ;;
     parseJsonArray responseText)
    (fun error =>
       throw (ErrorObject (str "Gemini API error: " ++ errorMessage error))).

Definition GeminiProvider : LLMProvider := {|
  name := str "gemini";
  generateSynopsis := fun bookTitle =>
    GeminiProvider_generate bookTitle synopsis None;
  generate := GeminiProvider_generate;
  extractTitles := GeminiProvider_extractTitles
|}.

(** *** The provider manager (src/llm/provider.ts) *)

(** [initializeProviders]: the map of the configured providers, in
    insertion order. *)
Definition providers : list (jsstring * LLMProvider) :=
  (if truthy (GEMINI_API_KEY env) then [(str "gemini", GeminiProvider)]
   else [])
  ++ (if truthy (ANTHROPIC_API_KEY env) then [(str "claude", ClaudeProvider)]
      else []).

Fixpoint providers_get (key : jsstring) (entries : list (jsstring * LLMProvider))
  : option LLMProvider :=
  match entries with
  | [] => None
  | (k, p) :: entries' =>
      if JS.eqb k key then Some p else providers_get key entries'
  end.

Definition getProvider (providerName : option jsstring)
  : Completion LLMProvider :=
  let providerName :=
    match providerName with
    | Some (c :: n) => c :: n
    | _ => currentProvider env
    end in
  match providers_get providerName providers with
  | Some provider => Return provider
  | None =>
      Throw (ErrorObject
        (str "Provider '" ++ providerName
         ++ str "' not available. Available providers: "
         ++ join (str ", ") (map fst providers)))
  end.

(** [LLMProviderManager.generateSynopsis(bookTitle)] *)
Definition providerManager_generateSynopsis (bookTitle : jsstring)
  : M jsstring :=
  provider <- await (getProvider None) ;;
  generateSynopsis provider bookTitle.

(** *** handler.ts: [parseTitles] and [generateBatchSynopses] *)

Definition parseTitles (input : jsstring) : M (list jsstring) :=
  let simpleTitles := simpleParseTitle input in
  if isValidSimpleParse simpleTitles then ret simpleTitles
  else
    provider <- await (getProvider None) ;;
    extractedTitles <- extractTitles provider input ;;
    ret extractedTitles.

Definition heading (title : jsstring) : jsstring :=
  str "## " ++ title ++ [LF; LF].

(** The callback of [titles.map]: it catches whatever the generation
    throws, so its promise never rejects. *)
Definition generateOne (title : jsstring) : M SynopsisResult :=
  try_catch
    (synopsis <- providerManager_generateSynopsis title ;;
     ret {| title := title;
            content := heading title ++ synopsis;
            error := None |})
    (fun error =>
       ret {| title := title;
              content := heading title ++ CROSS_MARK ++ str " Error: "
                         ++ errorMessage error;
              error := Some true |}).

(** [Promise.all(titles.map(...))]: the calls are started in the order
    of the titles and the results are collected in that order. *)
Definition generateBatchSynopses (titles : list jsstring)
  : M (list SynopsisResult) :=
  Promise_all_map generateOne titles.

(** *** index.ts: threads and delivery *)

Definition botTokenMissing : bool :=
  negb (truthy (DISCORD_BOT_SECRET_TOKEN env)).

Definition THREAD_NAME_LIMIT : nat := 100.

Definition createStandaloneThread (channelId : option jsstring)
  (threadName : jsstring) : M (option jsstring) :=
  if botTokenMissing then ret None
  else
    try_catch
      (response <- doFetch
         (PostChannelThread channelId
            (substring_to threadName THREAD_NAME_LIMIT)) ;;
       if negb (ok response)
       then (_ <- await (text response) ;; ret None)
       else (thread_id <- await (json_id response) ;; ret thread_id))
      (fun _ => ret None).

Definition createThreadFromMessage (channelId : option jsstring)
  (messageId threadName : jsstring) : M (option jsstring) :=
  if botTokenMissing then ret None
  else
    try_catch
      (response <- doFetch
         (PostMessageThread channelId messageId
            (substring_to threadName THREAD_NAME_LIMIT)) ;;
       if negb (ok response)
       then (_ <- await (text response) ;; ret None)
       else (thread_id <- await (json_id response) ;; ret thread_id))
      (fun _ => ret None).

(** The pacing [if (i < chunks.length - 1) await delay] of the loops:
    [rest] is what is left after the current element. *)
Definition pace {A} (ms : nat) (rest : list A) : M unit :=
  match rest with
  | [] => ret tt
  | _ :: _ => delay ms
  end.

(** The [for] loop of [sendToThread]; [break] ends the recursion. *)
Fixpoint sendToThread_loop (threadId : jsstring) (chunks : list jsstring)
  : M unit :=
  match chunks with
  | [] => ret tt
  | chunk :: rest =>
      response <- doFetch (PostChannelMessage threadId chunk) ;;
      if negb (ok response)
      then (_ <- await (text response) ;; ret tt)
      else (pace 250 rest ;; sendToThread_loop threadId rest)
  end.

Definition sendToThread (threadId content : jsstring) : M unit :=
  if botTokenMissing then ret tt
  else sendToThread_loop threadId (splitContent content).

Fixpoint sendBatchToThread (threadId : jsstring)
  (results : list SynopsisResult) : M unit :=
  match results with
  | [] => ret tt
  | result :: rest =>
      sendToThread threadId (content result) ;;
      pace 500 rest ;;
      sendBatchToThread threadId rest
  end.

Definition EPHEMERAL : N := 64.

Fixpoint sendFollowUp_loop (interaction : Interaction) (ephemeral : bool)
  (chunks : list jsstring) : M unit :=
  match chunks with
  | [] => ret tt
  | chunk :: rest =>
      response <- doFetch
        (PostWebhook (application_id interaction) (token interaction) chunk
           (if ephemeral then Some EPHEMERAL else None)) ;;
      if negb (ok response)
      then (_ <- await (text response) ;; ret tt)
      else (pace 250 rest ;; sendFollowUp_loop interaction ephemeral rest)
  end.

(** [sendFollowUp]: the whole body is inside [try], the [catch] only
    logs. *)
Definition sendFollowUp (interaction : Interaction) (content : jsstring)
  (ephemeral : bool) : M unit :=
  try_catch
    (sendFollowUp_loop interaction ephemeral (splitContent content))
    (fun _ => ret tt).

(** The inner [for] loop of [sendBatchResults], over the chunks of one
    result. *)
Fixpoint sendBatchResults_chunks (interaction : Interaction)
  (chunks : list jsstring) : M unit :=
  match chunks with
  | [] => ret tt
  | chunk :: rest =>
      response <- doFetch
        (PostWebhook (application_id interaction) (token interaction) chunk
           None) ;;
      if negb (ok response)
      then (_ <- await (text response) ;; ret tt)
      else (pace 250 rest ;; sendBatchResults_chunks interaction rest)
  end.

Fixpoint sendBatchResults (interaction : Interaction)
  (results : list SynopsisResult) : M unit :=
  match results with
  | [] => ret tt
  | result :: rest =>
      sendBatchResults_chunks interaction (splitContent (content result)) ;;
      pace 500 rest ;;
      sendBatchResults interaction rest
  end.

(** *** index.ts: [processDeferred] *)

Definition findOption (optionName : jsstring) (options : list CommandOption)
  : option CommandOption :=
  find (fun opt => JS.eqb (option_name opt) optionName) options.

(** [opt && opt.type === 3 ? opt.value : ''] *)
Definition stringOption (opt : option CommandOption) : jsstring :=
  match opt with
  | Some {| option_value := StringValue value |} => value
  | _ => []
  end.

(** [opt && opt.type === 5 ? opt.value : false] *)
Definition booleanOption (opt : option CommandOption) : bool :=
  match opt with
  | Some {| option_value := BooleanValue value |} => value
  | _ => false
  end.

(** [getMessageCommandContent], as the handler that index.ts imports
    has it: for a poll message the texts of the answers that have one,
    joined with ", "; otherwise, and when no answer has a text,
    [targetMessage?.content || null].  Without a target message there
    is neither a poll nor a content. *)
Definition getMessageCommandContent (interaction : Interaction)
  : option jsstring :=
  let content :=
    if truthy (target_content interaction) then target_content interaction
    else None in
  match target_poll_answers interaction with
  | Some answers =>
      let titles := filter truthy answers in
      if 0 <? length titles
      then Some (join (str ", ")
                   (map (fun text =>
                           match text with Some t => t | None => [] end)
                      titles))
      else content
  | None => content
  end.

Definition MAX_BATCH : nat := 10.

Definition tooManyBooks (count : nat) : jsstring :=
  CROSS_MARK ++ str " Too many books (" ++ ofNumber count
  ++ str "). Maximum 10 per batch.".

Definition batchThreadName (count : nat) : jsstring :=
  BOOKS ++ str " Book Synopses (" ++ ofNumber count ++ str " books)".

Definition processingNotice (titles : list jsstring) : jsstring :=
  BOOKS ++ str " Processing " ++ ofNumber (length titles)
  ++ str " book(s): " ++ join (str ", ") titles ++ [LF; LF]
  ++ str "_Synopses will appear below as they complete..._".

(** [titles.map((t, i) => `${i + 1}. ${t}`)], from index [i]. *)
Fixpoint numbered (i : nat) (titles : list jsstring) : list jsstring :=
  match titles with
  | [] => []
  | t :: titles' => (ofNumber (i + 1) ++ str ". " ++ t) :: numbered (S i) titles'
  end.

Definition threadIntro (titles : list jsstring) : jsstring :=
  str "Processing synopses for:" ++ [LF] ++ join [LF] (numbered 0 titles).

Definition threadAcknowledgment (count : nat) : jsstring :=
  CHECK_MARK ++ str " Synopses generated for " ++ ofNumber count
  ++ str " book(s) in thread.".

(** The message-command branch of [processDeferred]. *)
Definition processMessageCommand (interaction : Interaction) : M unit :=
  if JS.eqb (data_name interaction) (str "Generate Synopses") then
    match getMessageCommandContent interaction with
    | None =>
        sendFollowUp interaction
          (CROSS_MARK ++ str " Could not read the message content") false
    | Some messageContent =>
        titles <- parseTitles messageContent ;;
        if length titles =? 0 then
          sendFollowUp interaction
            (CROSS_MARK
             ++ str " Could not find any book titles in that message") false
        else if MAX_BATCH <? length titles then
          sendFollowUp interaction (tooManyBooks (length titles)) false
        else
          let targetMessageId := data_target_id interaction in
          let channelId :=
            orElse (channel interaction) (channel_id interaction) in
          threadId <- createThreadFromMessage channelId targetMessageId
                        (batchThreadName (length titles)) ;;
          match threadId with
          | Some (c :: id) =>
              sendToThread (c :: id) (threadIntro titles) ;;
              results <- generateBatchSynopses titles ;;
              sendBatchToThread (c :: id) results ;;
              sendFollowUp interaction
                (threadAcknowledgment (length titles)) true
          | _ =>
              sendFollowUp interaction (processingNotice titles) false ;;
              results <- generateBatchSynopses titles ;;
              sendBatchResults interaction results
          end
    end
  else
    sendFollowUp interaction (CROSS_MARK ++ str " Unknown message command")
      false.

(** The [synopsis-batch] branch of [processDeferred], after the thread
    decision: the regular channel behaviour. *)
Definition deliverToChannel (interaction : Interaction)
  (titles : list jsstring) : M unit :=
  sendFollowUp interaction (processingNotice titles) false ;;
  results <- generateBatchSynopses titles ;;
  sendBatchResults interaction results.

Definition processSynopsisBatch (interaction : Interaction) : M unit :=
  let titlesString :=
    stringOption (findOption (str "titles") (data_options interaction)) in
  let useThread :=
    booleanOption (findOption (str "thread") (data_options interaction)) in
  titles <- parseTitles titlesString ;;
  if length titles =? 0 then
    sendFollowUp interaction
      (CROSS_MARK ++ str " Could not find any book titles in your input") false
  else if MAX_BATCH <? length titles then
    sendFollowUp interaction (tooManyBooks (length titles)) false
  else if useThread then
    let channelId := orElse (channel interaction) (channel_id interaction) in
    threadId <- createStandaloneThread channelId
                  (batchThreadName (length titles)) ;;
    match threadId with
    | Some (c :: id) =>
        sendToThread (c :: id) (threadIntro titles) ;;
        results <- generateBatchSynopses titles ;;
        sendBatchToThread (c :: id) results ;;
        sendFollowUp interaction (threadAcknowledgment (length titles)) true
    | _ => deliverToChannel interaction titles
    end
  else deliverToChannel interaction titles.

(** The [catch] of [processDeferred]. *)
Definition reportError (interaction : Interaction) (error : Thrown) : M unit :=
  sendFollowUp interaction
    (CROSS_MARK ++ str " Error: " ++ errorMessage error) false.

Definition processDeferred (interaction : Interaction) : M unit :=
  try_catch
    (if N.eqb (data_type interaction) ApplicationCommandType_Message
     then processMessageCommand interaction
     else if JS.eqb (data_name interaction) (str "synopsis-batch")
     then processSynopsisBatch interaction
     else otherSlashCommand env interaction)
    (reportError interaction).

End Pipeline.

(* ================================================================== *)
(** ** Vocabulary of the statements *)
(* ================================================================== *)

Unset Implicit Arguments.

Definition allWhiteSpace (w : jsstring) : Prop :=
  Forall (fun c => isWhiteSpace c = true) w.

Definition notWhiteSpace (c : N) : bool := negb (isWhiteSpace c).

(** [Reassembles text chunks]: [text] is the chunks in order, with runs
    of white space before, between and after them. *)
Inductive Reassembles : jsstring -> list jsstring -> Prop :=
| Reassembles_nil : forall w,
    allWhiteSpace w -> Reassembles w []
| Reassembles_cons : forall w chunk rest chunks,
    allWhiteSpace w ->
    Reassembles rest chunks ->
    Reassembles (w ++ chunk ++ rest) (chunk :: chunks).

(** [search] occurs in [s] at index [k]. *)
Definition occursAt (search s : jsstring) (k : nat) : Prop :=
  k + length search <= length s /\ startsWith search (skipn k s) = true.

(** An occurrence the midpoint guard accepts: at or after half of
    [maxLength], at or before [maxLength]. *)
Definition acceptableSplit (search remaining : jsstring) (maxLength k : nat)
  : Prop :=
  occursAt search remaining k /\ maxLength <= 2 * k /\ k <= maxLength.

Definition lastAcceptableSplit (search remaining : jsstring)
  (maxLength k : nat) : Prop :=
  acceptableSplit search remaining maxLength k
  /\ forall j, acceptableSplit search remaining maxLength j -> j <= k.

(** How [findSplitIndex] decides, case by case. *)
Inductive SplitChoice (remaining : jsstring) (maxLength : nat) : nat -> Prop :=
| ChooseParagraph k :
    lastAcceptableSplit [LF; LF] remaining maxLength k ->
    SplitChoice remaining maxLength k
| ChooseLine k :
    (forall j, ~ acceptableSplit [LF; LF] remaining maxLength j) ->
    lastAcceptableSplit [LF] remaining maxLength k ->
    SplitChoice remaining maxLength k
| ChooseSpace k :
    (forall j, ~ acceptableSplit [LF; LF] remaining maxLength j) ->
    (forall j, ~ acceptableSplit [LF] remaining maxLength j) ->
    lastAcceptableSplit [SPACE] remaining maxLength k ->
    SplitChoice remaining maxLength k
| ChooseHardCut :
    (forall j, ~ acceptableSplit [LF; LF] remaining maxLength j) ->
    (forall j, ~ acceptableSplit [LF] remaining maxLength j) ->
    (forall j, ~ acceptableSplit [SPACE] remaining maxLength j) ->
    SplitChoice remaining maxLength maxLength.

Definition successResult (bookTitle synopsisText : jsstring)
  : SynopsisResult :=
  {| title := bookTitle;
     content := heading bookTitle ++ synopsisText;
     error := None |}.

Definition errorResult (bookTitle : jsstring) (thrown : Thrown)
  : SynopsisResult :=
  {| title := bookTitle;
     content := heading bookTitle ++ CROSS_MARK ++ str " Error: "
                ++ errorMessage thrown;
     error := Some true |}.

Definition resultOf (bookTitle : jsstring) (generation : Completion jsstring)
  : SynopsisResult :=
  match generation with
  | Return synopsisText => successResult bookTitle synopsisText
  | Throw thrown => errorResult bookTitle thrown
  end.

(** [GeneratedInOrder titles results]: the results are, one by one and
    in order, made from the titles and from how the generation of each
    title completed. *)
Inductive GeneratedInOrder (env : Env)
  : list Event -> list jsstring -> list SynopsisResult -> Prop :=
| GeneratedInOrder_nil : forall history, GeneratedInOrder env history [] []
| GeneratedInOrder_cons : forall history bookTitle titles results,
    let generation := providerManager_generateSynopsis env bookTitle history in
    GeneratedInOrder env (history ++ snd generation) titles results ->
    GeneratedInOrder env history (bookTitle :: titles)
      (resultOf bookTitle (fst generation) :: results).

(** The common shape of the three posting loops: post the chunks in
    order, stop at the first response that is not [ok]. *)
Fixpoint postChunks (env : Env) (request : jsstring -> HttpRequest)
  (chunks : list jsstring) : M unit :=
  match chunks with
  | [] => ret tt
  | chunk :: rest =>
      response <- doFetch env (request chunk) ;;
      if negb (ok response)
      then (_ <- await (text response) ;; ret tt)
      else (pace 250 rest ;; postChunks env request rest)
  end.

Definition webhookRequest (interaction : Interaction) (ephemeral : bool)
  (chunk : jsstring) : HttpRequest :=
  PostWebhook (application_id interaction) (token interaction) chunk
    (if ephemeral then Some EPHEMERAL else None).



(** The contents posted to the interaction webhook, answered or not. *)
Definition webhookPosts (events : list Event) : list jsstring :=
  flat_map (fun event =>
    match event with
    | Fetch (PostWebhook _ _ chunk _) _ => [chunk]
    | _ => []
    end) events.

Definition isThreadPost (event : Event) : bool :=
  match event with
  | Fetch (PostChannelMessage _ _) _ => true
  | _ => false
  end.

(** A call that asks a provider to generate an artifact. *)
Definition isGenerationCall (event : Event) : bool :=
  match event with
  | ClaudeMessagesCreate (Generate _ _ _) _ => true
  | GeminiGenerateContent (Generate _ _ _) _ => true
  | _ => false
  end.

Definition isProviderCall (event : Event) : bool :=
  match event with
  | ClaudeMessagesCreate _ _ => true
  | GeminiGenerateContent _ _ => true
  | _ => false
  end.

(** Every event a computation adds satisfies [P], whatever the history. *)
Definition emits {A} (P : Event -> Prop) (m : M A) : Prop :=
  forall history, Forall P (snd (m history)).




(** Every post to an interaction webhook is accepted. *)
Definition webhookAccepts (env : Env) : Prop :=
  forall history application token chunk flags,
  exists response,
    fetch env history (PostWebhook application token chunk flags)
    = Return response
    /\ ok response = true.


(** The raw text a deferred batch invocation hands to [parseTitles]:
    the content of the target message for the message command, the
    [titles] option for [/synopsis-batch]. *)
Definition batchInput (interaction : Interaction) : option jsstring :=
  if N.eqb (data_type interaction) ApplicationCommandType_Message
  then if JS.eqb (data_name interaction) (str "Generate Synopses")
       then getMessageCommandContent interaction
       else None
  else if JS.eqb (data_name interaction) (str "synopsis-batch")
       then Some (stringOption
                    (findOption (str "titles") (data_options interaction)))
       else None.

(** Whether the invocation asks for a thread: the message command
    always does, [/synopsis-batch] with its [thread] option. *)
Definition requestsThread (interaction : Interaction) : bool :=
  if N.eqb (data_type interaction) ApplicationCommandType_Message then true
  else booleanOption (findOption (str "thread") (data_options interaction)).

(** The thread creation call such an invocation makes. *)
Definition threadCreation (env : Env) (interaction : Interaction)
  (titles : list jsstring) : M (option jsstring) :=
  let channelId := orElse (channel interaction) (channel_id interaction) in
  if N.eqb (data_type interaction) ApplicationCommandType_Message
  then createThreadFromMessage env channelId (data_target_id interaction)
         (batchThreadName (length titles))
  else createStandaloneThread env channelId (batchThreadName (length titles)).

(** [s] is empty or starts with a unit that is not white space. *)
Definition startsClean (s : jsstring) : Prop :=
  match s with
  | [] => True
  | c :: _ => isWhiteSpace c = false
  end.

(** The unit just before a position, when the text before it is [s]. *)
Definition lastUnit (s : jsstring) : option N := last (map Some s) None.

(** [s] contains one of [words] as a standalone word, ignoring case:
    an occurrence with a word boundary on each side. *)
Definition HasStandaloneWord (words : list jsstring) (s : jsstring) : Prop :=
  exists word before occurrence after,
    In word words
    /\ s = before ++ occurrence ++ after
    /\ map Regex.canonicalize occurrence = map Regex.canonicalize word
    /\ Regex.wordBoundary (lastUnit before) (hd_error (occurrence ++ after))
       = true
    /\ Regex.wordBoundary (lastUnit (before ++ occurrence)) (hd_error after)
       = true.

(** The last unit of [s] is one of [class]. *)
Definition EndsWithOneOf (class : list N) (s : jsstring) : Prop :=
  exists front c, s = front ++ [c] /\ In c class.

(** What the loop of [isValidSimpleParse] accepts: a title of at most
    100 units, without the word "or", without a conversational word,
    and not ending with a full stop or an ellipsis. *)
Definition TitleAccepted (t : jsstring) : Prop :=
  length t <= 100
  /\ ~ HasStandaloneWord RE_OR t
  /\ ~ HasStandaloneWord RE_CONVERSATIONAL t
  /\ ~ EndsWithOneOf RE_ELLIPSIS_CLASS t.

(* ================================================================== *)
(** ** Example environments and inputs *)
(* ================================================================== *)

Module Examples.

Definition acceptedResponse : Response := {|
  ok := true;
  status := 200;
  text := Return [];
  json_id := Return (Some (str "1001"))
|}.

Definition refusedResponse : Response := {|
  ok := false;
  status := 403;
  text := Return (str "Missing Permissions");
  json_id := Return None
|}.

(** A process with Gemini configured.  Gemini fails on the title "1984"
    and answers the other requests; Discord refuses to create threads,
    refuses the posts that start with "## Emma" and accepts the rest. *)
Definition env : Env := {|
  DISCORD_BOT_SECRET_TOKEN := Some (str "bot-token");
  GEMINI_API_KEY := Some (str "gemini-key");
  ANTHROPIC_API_KEY := None;
  currentProvider := str "gemini";
  fetch := fun _ request =>
    match request with
    | PostChannelThread _ _ | PostMessageThread _ _ _ =>
        Return refusedResponse
    | PostWebhook _ _ chunk _ | PostChannelMessage _ chunk =>
        if startsWith (str "## Emma") chunk then Return refusedResponse
        else Return acceptedResponse
    end;
  claude_messages_create := fun _ _ => Throw NotAnError;
  gemini_generateContent := fun _ request =>
    match request with
    | Generate bookTitle _ _ =>
        if JS.eqb bookTitle (str "1984")
        then Throw (ErrorObject (str "quota exceeded"))
        else Return (str "A synopsis of " ++ bookTitle)
    | ExtractTitles _ => Return (str "no titles here")
    end;
  JSON_parse := fun _ => Return [];
  otherSlashCommand := fun _ => ret tt
|}.

(** A process with Claude selected, whose API rejects every call. *)
Definition rejectingEnv : Env := {|
  DISCORD_BOT_SECRET_TOKEN := Some (str "bot-token");
  GEMINI_API_KEY := None;
  ANTHROPIC_API_KEY := Some (str "anthropic-key");
  currentProvider := str "claude";
  fetch := fun _ _ => Return acceptedResponse;
  claude_messages_create := fun _ _ =>
    Throw (ErrorObject (str "529 overloaded"));
  gemini_generateContent := fun _ _ => Throw NotAnError;
  JSON_parse := fun _ => Return [];
  otherSlashCommand := fun _ => ret tt
|}.

(** [/synopsis-batch titles:<titles> thread:<thread>] *)
Definition synopsisBatch (titles : jsstring) (thread : bool) : Interaction := {|
  application_id := str "app";
  token := str "tok";
  channel := None;
  channel_id := Some (str "42");
  data_name := str "synopsis-batch";
  data_type := 1;
  data_options :=
    [ {| option_name := str "titles"; option_value := StringValue titles |};
      {| option_name := str "thread"; option_value := BooleanValue thread |} ];
  data_target_id := [];
  target_content := None;
  target_poll_answers := None
|}.

Definition conversational : jsstring :=
  str "we talked about maybe reading Dune or 1984".

(** A text longer than the default limit whose last space before the
    limit follows a long run of spaces. *)
Definition sparse : jsstring :=
  str "a" ++ repeat SPACE 1899 ++ str "bbbbbbbbbb".

Definition elevenTitles : jsstring := str "a,b,c,d,e,f,g,h,i,j,k".

Definition twoTitles : jsstring := str "Dune, 1984".

Definition twoResults : list SynopsisResult :=
  [successResult (str "Emma") (str "A synopsis of Emma");
   successResult (str "Dune") (str "A synopsis of Dune")].

End Examples.


(* ================================================================== *)
(** ** The provider manager's selection (src/llm/provider.ts) *)
(* ================================================================== *)

(** [getCurrentProvider()] *)
Definition getCurrentProvider (env : Env) : jsstring := currentProvider env.

(** [getAvailableProviders()]: [Array.from(this.providers.keys())] *)
Definition getAvailableProviders (env : Env) : list jsstring :=
  map fst (providers env).

(** [this.providers.has(name)] *)
Definition providers_has (key : jsstring)
  (entries : list (jsstring * LLMProvider)) : bool :=
  existsb (fun entry => JS.eqb (fst entry) key) entries.

(** The process after [this.currentProvider = name]. *)
Definition withCurrentProvider (env : Env) (providerName : jsstring) : Env := {|
  DISCORD_BOT_SECRET_TOKEN := DISCORD_BOT_SECRET_TOKEN env;
  GEMINI_API_KEY := GEMINI_API_KEY env;
  ANTHROPIC_API_KEY := ANTHROPIC_API_KEY env;
  currentProvider := providerName;
  fetch := fetch env;
  claude_messages_create := claude_messages_create env;
  gemini_generateContent := gemini_generateContent env;
  JSON_parse := JSON_parse env;
  otherSlashCommand := otherSlashCommand env
|}.

(** [setCurrentProvider(name)]: how the call completes, and the process
    after it. *)
Definition setCurrentProvider (env : Env) (providerName : jsstring)
  : Completion unit * Env :=
  if negb (providers_has providerName (providers env))
  then (Throw (ErrorObject
                 (str "Provider '" ++ providerName
                  ++ str "' is not configured")),
        env)
  else (Return tt, withCurrentProvider env providerName).

(* ================================================================== *)
(** ** The immediate responses (src/discord/handler.ts) *)
(* ================================================================== *)

Record ResponseData : Type := {
  response_content : jsstring;
  response_flags : option N
}.

(** [InteractionResponse] *)
Record InteractionResponse : Type := {
  response_type : N;
  response_data : option ResponseData
}.

Definition ChannelMessageWithSource : N := 4.
Definition DeferredChannelMessageWithSource : N := 5.

Definition errorResponse (message : jsstring) : InteractionResponse := {|
  response_type := ChannelMessageWithSource;
  response_data := Some {|
    response_content := CROSS_MARK ++ str " " ++ message;
    response_flags := Some EPHEMERAL
  |}
|}.

Definition deferredResponse : InteractionResponse := {|
  response_type := DeferredChannelMessageWithSource;
  response_data := None
|}.

(** [handleMessageCommand]: [target_content] stands for
    [targetMessage?.content], so [!targetMessage || !targetMessage.content]
    is its falsiness. *)
Definition handleMessageCommand (interaction : Interaction)
  : InteractionResponse :=
  if JS.eqb (data_name interaction) (str "Generate Synopses") then
    if negb (truthy (target_content interaction))
    then errorResponse (str "Could not read the message content")
    else deferredResponse
  else
    errorResponse (str "Unknown message command: " ++ data_name interaction).

Definition handleSynopsisBatchCommand (interaction : Interaction)
  : InteractionResponse :=
  match findOption (str "titles") (data_options interaction) with
  | Some {| option_value := StringValue value |} =>
      let titlesString := trim value in
      if length titlesString =? 0
      then errorResponse (str "Please provide at least one book title")
      else deferredResponse
  | _ =>
      errorResponse
        (str "Please provide book titles (comma-separated or freeform text)")
  end.

(* ================================================================== *)
(** ** Prompt templates (src/prompts.ts) *)
(* ================================================================== *)

(** The keys of the [variables] the providers pass to [buildPrompt]. *)
Inductive PromptKey : Type := key_title | key_basedOn | key_text.

Definition keyName (key : PromptKey) : jsstring :=
  match key with
  | key_title => str "title"
  | key_basedOn => str "basedOn"
  | key_text => str "text"
  end.

(** The source of [new RegExp(`{${key}}`, 'g')].  Without the unicode
    flag a brace that does not form a quantifier is a pattern character,
    and the names of the keys are letters: the expression matches its
    own source, literally. *)
Definition placeholder (key : PromptKey) : jsstring :=
  [123%N] ++ keyName key ++ [125%N].

Definition DOLLAR : N := 36.

(** The substitution of [String.prototype.replace] for an expression
    without capture groups: in the replacement text, [$$] is a dollar
    sign, [$&] the match, [$`] the text before the match and [$'] the
    text after it; any other dollar sign stands for itself. *)
Fixpoint getSubstitution (matched before after replacement : jsstring)
  : jsstring :=
  match replacement with
  | [] => []
  | c :: rest =>
      if N.eqb c DOLLAR then
        match rest with
        | [] => [DOLLAR]
        | d :: rest' =>
            if N.eqb d DOLLAR
            then DOLLAR :: getSubstitution matched before after rest'
            else if N.eqb d 38
            then matched ++ getSubstitution matched before after rest'
            else if N.eqb d 96
            then before ++ getSubstitution matched before after rest'
            else if N.eqb d 39
            then after ++ getSubstitution matched before after rest'
            else DOLLAR :: getSubstitution matched before after rest
        end
      else c :: getSubstitution matched before after rest
  end.

(** [s.replace(/pattern/g, replacement)] for a literal, non-empty
    pattern, scanning [s] from the left: [before] is the text already
    passed, [skip] the number of units of the current match still to
    pass. *)
Fixpoint replaceFrom (pattern replacement : jsstring) (skip : nat)
  (before s : jsstring) : jsstring :=
  match s with
  | [] => []
  | c :: s' =>
      match skip with
      | S skip' => replaceFrom pattern replacement skip' (before ++ [c]) s'
      | 0 =>
          if startsWith pattern s
          then getSubstitution pattern before (skipn (length pattern) s)
                 replacement
               ++ replaceFrom pattern replacement (length pattern - 1)
                    (before ++ [c]) s'
          else c :: replaceFrom pattern replacement 0 (before ++ [c]) s'
      end
  end.

Definition replaceGlobal (pattern replacement s : jsstring) : jsstring :=
  replaceFrom pattern replacement 0 [] s.

(** [buildPrompt(template, variables)]: the entries in insertion
    order. *)
Definition buildPrompt (template : jsstring)
  (variables : list (PromptKey * jsstring)) : jsstring :=
  fold_left
    (fun prompt entry => replaceGlobal (placeholder (fst entry)) (snd entry)
                           prompt)
    variables template.

(* ================================================================== *)
(** ** Web search (src/search.ts) *)
(* ================================================================== *)

(** The fields that [searchBook] reads, in a reply of the shape the
    search service documents: an object whose [AbstractText] is a
    string and whose [RelatedTopics] is an array of objects with a
    string [Text], each of them possibly absent. *)
Record RelatedTopic : Type := { Text : option jsstring }.

Record SearchData : Type := {
  AbstractText : option jsstring;
  RelatedTopics : option (list RelatedTopic)
}.

Definition isHighSurrogate (c : N) : bool := ((55296 <=? c) && (c <=? 56319))%N.
Definition isLowSurrogate (c : N) : bool := ((56320 <=? c) && (c <=? 57343))%N.

(** Whether [encodeURIComponent] accepts the string: it throws a
    [URIError] on a surrogate that is not part of a pair. *)
Fixpoint isWellFormed (s : jsstring) : bool :=
  match s with
  | [] => true
  | c :: s' =>
      if isHighSurrogate c then
        match s' with
        | d :: s'' => isLowSurrogate d && isWellFormed s''
        | [] => false
        end
      else negb (isLowSurrogate c) && isWellFormed s'
  end.

Definition optionText (s : option jsstring) : jsstring :=
  match s with Some s => s | None => [] end.

(** The text [searchBook] builds from such a reply. *)
Definition searchInfo (data : SearchData) : jsstring :=
  (if truthy (AbstractText data)
   then optionText (AbstractText data) ++ [LF; LF]
   else [])
  ++ match RelatedTopics data with
     | Some (topic :: relatedTopics) =>
         let topics :=
           map (fun topic => optionText (Text topic))
             (firstn 3
                (filter (fun topic => truthy (Text topic))
                   (topic :: relatedTopics))) in
         if 0 <? length topics
         then str "Additional information:" ++ [LF] ++ join [LF] topics
              ++ [LF]
         else []
     | _ => []
     end.

Definition QUOTE : N := 34.

(** *** The reply as [searchBook] can receive it *)

Inductive NumberSign : Type := NegativeNumber | ZeroNumber | PositiveNumber.

(** A value of the reply: parsed JSON, or the text of the body when the
    body is not JSON.  A number carries its sign and its text as
    [Number::toString] prints it.  [JNull] also stands for
    [undefined]. *)
#[warnings="-register-all"]
Inductive Json : Type :=
| JNull
| JBool (b : bool)
| JNumber (sign : NumberSign) (printed : jsstring)
| JString (s : jsstring)
| JArray (items : list Json)
| JObject (fields : list (jsstring * Json)).

(** The [TypeError] of reading a property of [null], of calling what is
    not a function and of converting an object that has no usable
    [toString]; the [catch] of [searchBook] does not look at it. *)
Definition typeError : Thrown := ErrorObject (str "TypeError").

Definition andThen {A B} (c : Completion A) (k : A -> Completion B)
  : Completion B :=
  match c with
  | Return a => k a
  | Throw thrown => Throw thrown
  end.

(** The own property [key] of an object made by [JSON.parse]: of two
    members with the same key the later one counts. *)
Definition getField (key : jsstring) (fields : list (jsstring * Json))
  : option Json :=
  option_map snd (find (fun field => JS.eqb (fst field) key) (rev fields)).

Definition hasField (key : jsstring) (fields : list (jsstring * Json))
  : bool :=
  match getField key fields with Some _ => true | None => false end.

(** [value.key] for one of the keys [AbstractText], [RelatedTopics] and
    [Text], which no prototype defines: [None] is [undefined]. *)
Definition getProperty (value : Json) (key : jsstring)
  : Completion (option Json) :=
  match value with
  | JNull => Throw typeError
  | JObject fields => Return (getField key fields)
  | _ => Return None
  end.

(** JavaScript truthiness. *)
Definition truthyValue (value : option Json) : bool :=
  match value with
  | None => false
  | Some JNull => false
  | Some (JBool b) => b
  | Some (JNumber sign _) =>
      match sign with ZeroNumber => false | _ => true end
  | Some (JString s) => negb (is_empty s)
  | Some (JArray _) => true
  | Some (JObject _) => true
  end.

(** The texts joined by [sep], when every conversion returned. *)
Fixpoint joinTexts (sep : jsstring) (texts : list (Completion jsstring))
  : Completion jsstring :=
  match texts with
  | [] => Return []
  | [text] => text
  | text :: rest =>
      andThen text (fun s =>
        andThen (joinTexts sep rest) (fun joined =>
          Return (s ++ sep ++ joined)))
  end.

(** [String(value)], as a template literal and [join] convert.  An
    array is its elements joined by a comma, [null] counting as the
    empty string; an object is "[object Object]", unless it has a
    member [toString], which is not a function: then no conversion is
    found. *)
Fixpoint toString (value : Json) : Completion jsstring :=
  match value with
  | JNull => Return (str "null")
  | JBool b => Return (if b then str "true" else str "false")
  | JNumber _ printed => Return printed
  | JString s => Return s
  | JArray items =>
      joinTexts [COMMA]
        (map (fun item =>
                match item with
                | JNull => Return []
                | _ => toString item
                end) items)
  | JObject fields =>
      if hasField (str "toString") fields then Throw typeError
      else Return (str "[object Object]")
  end.

(** The text of an element in [join]. *)
Definition elementText (item : Json) : Completion jsstring :=
  match item with
  | JNull => Return []
  | _ => toString item
  end.

(** The callback of [filter] and the filtering: [topic.Text] is read
    of every element, in order. *)
Fixpoint filterTopics (items : list Json) : Completion (list Json) :=
  match items with
  | [] => Return []
  | topic :: rest =>
      andThen (getProperty topic (str "Text")) (fun topicText =>
        andThen (filterTopics rest) (fun kept =>
          Return (if truthyValue topicText then topic :: kept else kept)))
  end.

(** [value.filter(...).slice(0, 3).map(topic => topic.Text)]: only an
    array has a [filter] to call. *)
Definition relatedTopicTexts (value : Json) : Completion (list Json) :=
  match value with
  | JArray items =>
      andThen (filterTopics items) (fun kept =>
        Return
          (map (fun topic =>
                  match getProperty topic (str "Text") with
                  | Return (Some topicText) => topicText
                  | _ => JNull
                  end)
             (firstn 3 kept)))
  | _ => Throw typeError
  end.

Section SearchReply.

(** [ToNumber(s) > 0] for a string [s]. *)
Variable StringToNumber_isPositive : jsstring -> bool.

(** [value > 0] *)
Definition isPositive (value : Json) : Completion bool :=
  match value with
  | JNull => Return false
  | JBool b => Return b
  | JNumber sign _ =>
      Return match sign with PositiveNumber => true | _ => false end
  | JString s => Return (StringToNumber_isPositive s)
  | JArray _ => andThen (toString value) (fun s =>
                  Return (StringToNumber_isPositive s))
  | JObject fields =>
      if hasField (str "toString") fields then Throw typeError
      else Return false
  end.

(** [value.length > 0] for a truthy [value]: a string and an array
    have a length, an object has the member [length] it was given. *)
Definition hasPositiveLength (value : Json) : Completion bool :=
  match value with
  | JNull => Throw typeError
  | JString s => Return (0 <? length s)
  | JArray items => Return (0 <? length items)
  | JObject fields =>
      match getField (str "length") fields with
      | Some lengthValue => isPositive lengthValue
      | None => Return false
      end
  | _ => Return false
  end.

Definition abstractPart (data : Json) : Completion jsstring :=
  andThen (getProperty data (str "AbstractText")) (fun abstractText =>
    match abstractText with
    | Some value =>
        if truthyValue abstractText
        then andThen (toString value) (fun s => Return (s ++ [LF; LF]))
        else Return []
    | None => Return []
    end).

Definition topicsPart (data : Json) : Completion jsstring :=
  andThen (getProperty data (str "RelatedTopics")) (fun relatedTopics =>
    match relatedTopics with
    | Some value =>
        if truthyValue relatedTopics then
          andThen (hasPositiveLength value) (fun positive =>
            if positive : bool then
              andThen (relatedTopicTexts value) (fun topics =>
                if 0 <? length topics then
                  andThen (joinTexts [LF] (map elementText topics))
                    (fun joined =>
                       Return (str "Additional information:" ++ [LF]
                               ++ joined ++ [LF]))
                else Return [])
            else Return [])
        else Return []
    | None => Return []
    end).

(** The text [searchBook] builds from the body of the reply, or the
    error of reading it. *)
Definition searchText (data : Json) : Completion jsstring :=
  andThen (abstractPart data) (fun abstract =>
    andThen (topicsPart data) (fun topics =>
      Return (abstract ++ topics))).

(** [searchBook(bookTitle)], as a function of how the request to the
    search service completes and of the body of its reply.  All of it
    is inside the [try], whose [catch] returns the empty string. *)
Definition searchBook (axios_get : Completion Json) (bookTitle : jsstring)
  : jsstring :=
  if negb (isWellFormed (bookTitle ++ str " book synopsis")) then []
  else
    match andThen axios_get searchText with
    | Throw _ => []
    | Return info =>
        match trim info with
        | c :: rest => c :: rest
        | [] =>
            str "No detailed information found for " ++ [QUOTE] ++ bookTitle
            ++ [QUOTE]
        end
    end.

End SearchReply.

(** A reply of the documented shape, as a value. *)
Definition topicJson (topic : RelatedTopic) : Json :=
  JObject match Text topic with
          | Some s => [(str "Text", JString s)]
          | None => []
          end.

Definition dataJson (data : SearchData) : Json :=
  JObject
    (match AbstractText data with
     | Some s => [(str "AbstractText", JString s)]
     | None => []
     end
     ++ match RelatedTopics data with
        | Some topics =>
            [(str "RelatedTopics", JArray (map topicJson topics))]
        | None => []
        end).

(* ================================================================== *)
(** ** Vocabulary of the further properties *)
(* ================================================================== *)

(** A title as the simple parse returns it from a list: non-empty,
    trimmed, and without a comma. *)
Definition cleanTitle (t : jsstring) : Prop :=
  t <> [] /\ trim t = t /\ ~ In COMMA t.

(** The requests of a trace, answered or not. *)
Definition requests (events : list Event) : list HttpRequest :=
  flat_map (fun event =>
    match event with
    | Fetch request _ => [request]
    | _ => []
    end) events.

(** The calls to the providers in a trace: which provider, and what for. *)
Definition providerRequests (events : list Event)
  : list (jsstring * LLMRequest) :=
  flat_map (fun event =>
    match event with
    | ClaudeMessagesCreate request _ => [(str "claude", request)]
    | GeminiGenerateContent request _ => [(str "gemini", request)]
    | _ => []
    end) events.

(** The contents posted to the interaction webhook without the
    ephemeral flag: what the channel sees. *)
Definition publicPosts (events : list Event) : list jsstring :=
  flat_map (fun event =>
    match event with
    | Fetch (PostWebhook _ _ chunk None) _ => [chunk]
    | _ => []
    end) events.

(** The contents posted as messages to the channel or thread
    [channelId]. *)
Definition channelPosts (channelId : jsstring) (events : list Event)
  : list jsstring :=
  flat_map (fun event =>
    match event with
    | Fetch (PostChannelMessage target chunk) _ =>
        if JS.eqb target channelId then [chunk] else []
    | _ => []
    end) events.

Definition isWebhookPost (event : Event) : bool :=
  match event with
  | Fetch (PostWebhook _ _ _ _) _ => true
  | _ => false
  end.

(** The thread behaviour of a batch, once the thread exists: the list
    of the titles and the artifacts go to the thread, the
    acknowledgment to the invoker. *)
Definition deliverToThread (env : Env) (interaction : Interaction)
  (threadId : jsstring) (titles : list jsstring) : M unit :=
  sendToThread env threadId (threadIntro titles) ;;
  results <- generateBatchSynopses env titles ;;
  sendBatchToThread env threadId results ;;
  sendFollowUp env interaction (threadAcknowledgment (length titles)) true.

(** Every request is answered and accepted. *)
Definition transportAccepts (env : Env) : Prop :=
  forall history request,
  exists response,
    fetch env history request = Return response /\ ok response = true.

(** The diagnostic of an invocation whose resolver found no title. *)
Definition noTitlesFound (interaction : Interaction) : jsstring :=
  CROSS_MARK ++ str " Could not find any book titles in "
  ++ (if N.eqb (data_type interaction) ApplicationCommandType_Message
      then str "that message" else str "your input").

Module Scenarios.

(** A process without any provider key. *)
Definition unconfigured : Env := {|
  DISCORD_BOT_SECRET_TOKEN := None;
  GEMINI_API_KEY := None;
  ANTHROPIC_API_KEY := None;
  currentProvider := str "gemini";
  fetch := fun _ _ => Return Examples.acceptedResponse;
  claude_messages_create := fun _ _ => Throw NotAnError;
  gemini_generateContent := fun _ _ => Throw NotAnError;
  JSON_parse := fun _ => Return [];
  otherSlashCommand := fun _ => ret tt
|}.

(** A process with both providers, where every request is accepted and
    thread creation answers with the id "1001". *)
Definition welcoming : Env := {|
  DISCORD_BOT_SECRET_TOKEN := Some (str "bot-token");
  GEMINI_API_KEY := Some (str "gemini-key");
  ANTHROPIC_API_KEY := Some (str "anthropic-key");
  currentProvider := str "gemini";
  fetch := fun _ _ => Return Examples.acceptedResponse;
  claude_messages_create := fun _ request =>
    match request with
    | Generate bookTitle _ _ => Return (Some (str "About " ++ bookTitle))
    | ExtractTitles _ => Return (Some (str "Sure: [titles] done"))
    end;
  gemini_generateContent := fun _ request =>
    match request with
    | Generate bookTitle _ _ => Return (str "About " ++ bookTitle)
    | ExtractTitles _ => Return (str "Sure: [titles] done")
    end;
  JSON_parse := fun _ => Return [str "Dune"];
  otherSlashCommand := fun _ => ret tt
|}.


(** The message command on a message with the content [content]. *)
Definition generateSynopses (content : option jsstring) : Interaction := {|
  application_id := str "app";
  token := str "tok";
  channel := None;
  channel_id := Some (str "42");
  data_name := str "Generate Synopses";
  data_type := ApplicationCommandType_Message;
  data_options := [];
  data_target_id := str "7";
  target_content := content;
  target_poll_answers := None
|}.

(** The message command on a poll message without content, whose
    answers have the texts [answers]. *)
Definition generateSynopsesOfPoll (answers : list jsstring) : Interaction := {|
  application_id := str "app";
  token := str "tok";
  channel := None;
  channel_id := Some (str "42");
  data_name := str "Generate Synopses";
  data_type := ApplicationCommandType_Message;
  data_options := [];
  data_target_id := str "7";
  target_content := Some [];
  target_poll_answers := Some (map Some answers)
|}.

End Scenarios.

(* ================================================================== *)
(** ** Facts about the string primitives *)
(* ================================================================== *)

Section StringFacts.

Lemma trimStart_spec (s : jsstring) :
  exists w, s = w ++ trimStart s /\ allWhiteSpace w.
Proof.
  induction s as [|c s IH]; simpl.
  - exists []. split; [reflexivity|constructor].
  - destruct (isWhiteSpace c) eqn:Hc.
    + destruct IH as (w & Hs & Hw).
      exists (c :: w). split.
      * simpl. now rewrite <- Hs.
      * now constructor.
    + exists []. split; [reflexivity|constructor].
Qed.

Lemma allWhiteSpace_rev (w : jsstring) :
  allWhiteSpace w -> allWhiteSpace (rev w).
Proof.
  unfold allWhiteSpace. rewrite !Forall_forall.
  intros H c Hc. apply H. now apply in_rev.
Qed.

Lemma allWhiteSpace_app (w w' : jsstring) :
  allWhiteSpace w -> allWhiteSpace w' -> allWhiteSpace (w ++ w').
Proof. unfold allWhiteSpace. intros. now apply Forall_app. Qed.

Lemma trimEnd_spec (s : jsstring) :
  exists w, s = trimEnd s ++ w /\ allWhiteSpace w.
Proof.
  unfold trimEnd.
  destruct (trimStart_spec (rev s)) as (w & Hs & Hw).
  exists (rev w). split.
  - rewrite <- rev_app_distr, <- Hs. now rewrite rev_involutive.
  - now apply allWhiteSpace_rev.
Qed.

Lemma trim_spec (s : jsstring) :
  exists w1 w2,
    s = w1 ++ trim s ++ w2 /\ allWhiteSpace w1 /\ allWhiteSpace w2.
Proof.
  unfold trim.
  destruct (trimStart_spec s) as (w1 & Hs & Hw1).
  destruct (trimEnd_spec (trimStart s)) as (w2 & Ht & Hw2).
  exists w1, w2. repeat split; trivial.
  now rewrite <- Ht.
Qed.

Lemma trim_length (s : jsstring) : length (trim s) <= length s.
Proof.
  destruct (trim_spec s) as (w1 & w2 & Hs & _).
  rewrite Hs at 2. rewrite !length_app. lia.
Qed.

Lemma trim_allWhiteSpace (s : jsstring) :
  allWhiteSpace s -> trim s = [].
Proof.
  intros Hs.
  assert (Hstart : forall t, allWhiteSpace t -> trimStart t = []).
  { induction t as [|c t IH]; intros Ht; [reflexivity|].
    inversion Ht as [|? ? Hc Ht']; subst. simpl. rewrite Hc. now apply IH. }
  unfold trim, trimEnd. now rewrite (Hstart s Hs).
Qed.

Lemma startsWith_length (search s : jsstring) :
  startsWith search s = true -> length search <= length s.
Proof.
  revert s. induction search as [|c search IH]; intros [|d s]; simpl;
    try lia; try discriminate.
  intros H. apply andb_prop in H. destruct H as [_ H].
  apply IH in H. lia.
Qed.

Lemma occursAt_iff (search s : jsstring) (k : nat) :
  search <> [] ->
  (occursAt search s k <-> startsWith search (skipn k s) = true).
Proof.
  intros Hne. unfold occursAt. split; [tauto|].
  intros H. split; trivial.
  pose proof (startsWith_length _ _ H) as Hlen.
  rewrite length_skipn in Hlen.
  destruct search; [congruence|]. simpl in *. lia.
Qed.

Lemma lastIndexOf_from_Some (search s : jsstring) (k i : nat) :
  lastIndexOf_from search s k = Some i ->
  i <= k /\ startsWith search (skipn i s) = true
  /\ forall j, i < j <= k -> startsWith search (skipn j s) = false.
Proof.
  induction k as [|k IH]; cbn [lastIndexOf_from].
  - change (skipn 0 s) with s.
    destruct (startsWith search s) eqn:H0; [|discriminate].
    intros [= <-]. repeat split; trivial. intros; lia.
  - destruct (startsWith search (skipn (S k) s)) eqn:Hk.
    + intros [= <-]. repeat split; trivial. intros; lia.
    + intros Hi. destruct (IH Hi) as (Hle & Hocc & Hlast).
      repeat split; trivial; [lia|].
      intros j Hj. destruct (Nat.eq_dec j (S k)) as [->|Hne]; trivial.
      apply Hlast. lia.
Qed.

Lemma lastIndexOf_from_None (search s : jsstring) (k : nat) :
  lastIndexOf_from search s k = None ->
  forall j, j <= k -> startsWith search (skipn j s) = false.
Proof.
  induction k as [|k IH]; cbn [lastIndexOf_from].
  - change (skipn 0 s) with s.
    destruct (startsWith search s) eqn:H0; [discriminate|].
    intros _ j Hj. now replace j with 0 by lia.
  - destruct (startsWith search (skipn (S k) s)) eqn:Hk; [discriminate|].
    intros Hn j Hj. destruct (Nat.eq_dec j (S k)) as [->|Hne]; trivial.
    apply IH; trivial. lia.
Qed.

(** [lastIndexOf] returns the greatest occurrence at or before the
    position. *)
Lemma lastIndexOf_Some (s search : jsstring) (position i : nat) :
  lastIndexOf s search position = Some i ->
  occursAt search s i /\ i <= position
  /\ forall j, occursAt search s j -> j <= position -> j <= i.
Proof.
  unfold lastIndexOf.
  destruct (Nat.leb_spec (length search) (length s)) as [Hlen|Hlen];
    [|discriminate].
  intros H. apply lastIndexOf_from_Some in H.
  destruct H as (Hle & Hocc & Hlast).
  repeat split; trivial; try lia.
  intros j [Hj1 Hj2] Hj.
  destruct (Nat.le_gt_cases j i) as [|Hgt]; trivial.
  rewrite Hlast in Hj2; [discriminate|]. lia.
Qed.

Lemma lastIndexOf_None (s search : jsstring) (position : nat) :
  lastIndexOf s search position = None ->
  forall j, j <= position -> ~ occursAt search s j.
Proof.
  unfold lastIndexOf.
  destruct (Nat.leb_spec (length search) (length s)) as [Hlen|Hlen].
  - intros H j Hj [Hj1 Hj2].
    rewrite (lastIndexOf_from_None _ _ _ H) in Hj2; [discriminate|]. lia.
  - intros _ j _ [Hj1 _]. lia.
Qed.

End StringFacts.

Section TrimFacts.

Lemma trimStart_startsClean (s : jsstring) : startsClean (trimStart s).
Proof.
  induction s as [|c s IH]; simpl; trivial.
  destruct (isWhiteSpace c) eqn:Hc; trivial.
Qed.

Lemma trimStart_fixed (s : jsstring) : startsClean s -> trimStart s = s.
Proof. destruct s as [|c s]; simpl; trivial. now intros ->. Qed.

Lemma trimStart_snoc (s : jsstring) (c : N) :
  isWhiteSpace c = false -> trimStart (s ++ [c]) = trimStart s ++ [c].
Proof.
  intros Hc. induction s as [|d s IH]; simpl.
  - now rewrite Hc.
  - destruct (isWhiteSpace d); trivial.
Qed.

Lemma trimEnd_startsClean (s : jsstring) :
  startsClean s -> startsClean (trimEnd s).
Proof.
  unfold trimEnd. destruct s as [|c s]; simpl; trivial.
  intros Hc. rewrite trimStart_snoc by trivial.
  rewrite rev_app_distr. exact Hc.
Qed.

Lemma trim_idempotent (s : jsstring) : trim (trim s) = trim s.
Proof.
  unfold trim at 1.
  rewrite (trimStart_fixed (trim s)).
  - unfold trim, trimEnd. rewrite rev_involutive.
    rewrite (trimStart_fixed (trimStart _)); [reflexivity|].
    apply trimStart_startsClean.
  - apply trimEnd_startsClean, trimStart_startsClean.
Qed.

End TrimFacts.

(* ================================================================== *)
(** ** Facts about the regular expressions *)
(* ================================================================== *)

Ltac normalize_app :=
  repeat rewrite <- app_assoc in *; cbn [app] in *.

Section RegexFacts.

Lemma lastUnit_app_cons (before : jsstring) (c : N) (s : jsstring) :
  lastUnit (before ++ c :: s) = lastUnit (c :: s).
Proof.
  unfold lastUnit. rewrite map_app.
  induction (map Some before) as [|x l IH]; [reflexivity|].
  cbn [app]. rewrite <- IH.
  destruct (l ++ map Some (c :: s)) eqn:H; [|reflexivity].
  destruct l; discriminate.
Qed.

Lemma lastUnit_snoc (before : jsstring) (c : N) :
  lastUnit (before ++ [c]) = Some c.
Proof. now rewrite lastUnit_app_cons. Qed.

Lemma matchWord_spec (word : jsstring) :
  forall (before s : jsstring) (unit : option N) (rest : jsstring),
    Regex.matchWord word (lastUnit before) s = Some (unit, rest)
    <-> exists occurrence,
          s = occurrence ++ rest
          /\ map Regex.canonicalize occurrence = map Regex.canonicalize word
          /\ unit = lastUnit (before ++ occurrence).
Proof.
  induction word as [|c word IH]; intros before s unit rest;
    cbn [Regex.matchWord].
  - split.
    + intros [= <- <-]. exists []. now rewrite app_nil_r.
    + intros (occurrence & -> & Hmap & ->).
      destruct occurrence; [|discriminate]. now rewrite app_nil_r.
  - destruct s as [|d s].
    + split; [discriminate|].
      intros (occurrence & Hs & Hmap & _).
      destruct occurrence; discriminate.
    + destruct (N.eqb_spec (Regex.canonicalize c) (Regex.canonicalize d))
        as [Hcd|Hcd].
      * rewrite <- (lastUnit_snoc before d), IH. split.
        -- intros (occurrence & -> & Hmap & ->).
           exists (d :: occurrence). cbn [map app].
           rewrite Hmap, Hcd, <- app_assoc. now repeat split.
        -- intros (occurrence & Hs & Hmap & ->).
           destruct occurrence as [|d' occurrence]; [discriminate|].
           cbn [map app] in Hs, Hmap. injection Hs as <- ->.
           injection Hmap as _ Hmap.
           exists occurrence. rewrite <- app_assoc. now repeat split.
      * split; [discriminate|].
        intros (occurrence & Hs & Hmap & _).
        destruct occurrence as [|d' occurrence]; [discriminate|].
        cbn [map app] in Hs, Hmap. injection Hs as <- _.
        injection Hmap as Hd _. congruence.
Qed.

Lemma matchWordsHere_spec (words : list jsstring) (before s : jsstring) :
  Regex.matchWordsHere words (lastUnit before) s = true
  <-> exists word occurrence after,
        In word words
        /\ s = occurrence ++ after
        /\ map Regex.canonicalize occurrence = map Regex.canonicalize word
        /\ Regex.wordBoundary (lastUnit before) (hd_error s) = true
        /\ Regex.wordBoundary (lastUnit (before ++ occurrence))
             (hd_error after) = true.
Proof.
  unfold Regex.matchWordsHere. rewrite andb_true_iff, existsb_exists.
  split.
  - intros (Hstart & word & Hin & Hmatch).
    destruct (Regex.matchWord word (lastUnit before) s) as [[unit rest]|]
      eqn:Hword; [|discriminate].
    apply matchWord_spec in Hword.
    destruct Hword as (occurrence & -> & Hmap & ->).
    now exists word, occurrence, rest.
  - intros (word & occurrence & after & Hin & -> & Hmap & Hstart & Hend).
    split; [exact Hstart|]. exists word. split; [exact Hin|].
    assert (Hword :
      Regex.matchWord word (lastUnit before) (occurrence ++ after)
      = Some (lastUnit (before ++ occurrence), after)).
    { apply matchWord_spec. now exists occurrence. }
    now rewrite Hword.
Qed.

Lemma testWordsFrom_spec (words : list jsstring) (s : jsstring) :
  forall before,
    Regex.testWordsFrom words (lastUnit before) s = true
    <-> exists word skipped occurrence after,
          In word words
          /\ s = skipped ++ occurrence ++ after
          /\ map Regex.canonicalize occurrence = map Regex.canonicalize word
          /\ Regex.wordBoundary (lastUnit (before ++ skipped))
               (hd_error (occurrence ++ after)) = true
          /\ Regex.wordBoundary (lastUnit ((before ++ skipped) ++ occurrence))
               (hd_error after) = true.
Proof.
  induction s as [|c s IH]; intros before; cbn [Regex.testWordsFrom];
    rewrite orb_true_iff, matchWordsHere_spec.
  - split.
    + intros [(word & occurrence & after & Hin & Hs & Hmap & Hb & He)|H];
        [|discriminate].
      exists word, [], occurrence, after. rewrite app_nil_r.
      cbn [app]. rewrite <- Hs. now repeat split.
    + intros (word & skipped & occurrence & after & Hin & Hs & Hmap & Hb & He).
      left. destruct skipped; [|discriminate]. rewrite app_nil_r in Hb, He.
      cbn [app] in Hs. rewrite <- Hs in Hb.
      now exists word, occurrence, after.
  - rewrite <- (lastUnit_snoc before c), IH. split.
    + intros [(word & occurrence & after & Hin & Hs & Hmap & Hb & He)
             |(word & skipped & occurrence & after & Hin & Hs & Hmap & Hb & He)].
      * exists word, [], occurrence, after. rewrite app_nil_r.
        cbn [app]. rewrite <- Hs. now repeat split.
      * exists word, (c :: skipped), occurrence, after.
        subst s. normalize_app. now repeat split.
    + intros (word & skipped & occurrence & after & Hin & Hs & Hmap & Hb & He).
      destruct skipped as [|c' skipped].
      * left. rewrite app_nil_r in Hb, He. cbn [app] in Hs.
        rewrite <- Hs in Hb. now exists word, occurrence, after.
      * right. cbn [app] in Hs. injection Hs as <- ->.
        exists word, skipped, occurrence, after.
        normalize_app. now repeat split.
Qed.

Lemma testWords_spec (words : list jsstring) (s : jsstring) :
  Regex.testWords words s = true <-> HasStandaloneWord words s.
Proof.
  unfold Regex.testWords, HasStandaloneWord.
  change (@None N) with (lastUnit []).
  rewrite testWordsFrom_spec. cbn [app]. reflexivity.
Qed.

Lemma testEndsWithClass_spec (class : list N) (s : jsstring) :
  Regex.testEndsWithClass class s = true <-> EndsWithOneOf class s.
Proof.
  unfold Regex.testEndsWithClass, EndsWithOneOf.
  destruct (rev s) as [|c r] eqn:Hrev.
  - split; [discriminate|].
    intros (front & c & -> & _). rewrite rev_app_distr in Hrev. discriminate.
  - assert (Hs : s = rev r ++ [c]).
    { rewrite <- (rev_involutive s), Hrev. reflexivity. }
    rewrite existsb_exists. split.
    + intros (x & Hin & Hx). apply N.eqb_eq in Hx. subst x.
      now exists (rev r), c.
    + intros (front & c' & Hs' & Hin).
      rewrite Hs' in Hs. apply app_inj_tail in Hs. destruct Hs as [_ ->].
      exists c. split; [exact Hin|apply N.eqb_refl].
Qed.

End RegexFacts.

(* ================================================================== *)
(** ** Facts about [splitContent] *)
(* ================================================================== *)

Section SplitFacts.

Lemma rejected_false (splitIndex : option nat) (maxLength : nat) :
  rejected splitIndex maxLength = false ->
  exists k, splitIndex = Some k /\ maxLength <= 2 * k.
Proof.
  destruct splitIndex as [k|]; simpl; [|discriminate].
  intros H. apply Nat.ltb_ge in H. now exists k.
Qed.

Lemma rejected_true (remaining search : jsstring) (maxLength : nat) :
  rejected (lastIndexOf remaining search maxLength) maxLength = true ->
  forall j, ~ acceptableSplit search remaining maxLength j.
Proof.
  intros H j (Hocc & Hmid & Hmax).
  destruct (lastIndexOf remaining search maxLength) as [i|] eqn:Hi.
  - simpl in H. apply Nat.ltb_lt in H.
    apply lastIndexOf_Some in Hi. destruct Hi as (_ & _ & Hlast).
    specialize (Hlast j Hocc Hmax). lia.
  - exact (lastIndexOf_None _ _ _ Hi j Hmax Hocc).
Qed.

Lemma accepted_last (remaining search : jsstring) (maxLength i : nat) :
  lastIndexOf remaining search maxLength = Some i ->
  rejected (Some i) maxLength = false ->
  lastAcceptableSplit search remaining maxLength i.
Proof.
  intros Hi Hr. apply rejected_false in Hr.
  destruct Hr as (k & [= <-] & Hmid).
  apply lastIndexOf_Some in Hi. destruct Hi as (Hocc & Hmax & Hlast).
  split; [exact (conj Hocc (conj Hmid Hmax))|].
  intros j (Hj & _ & Hjmax). now apply Hlast.
Qed.

Lemma lastAcceptableSplit_unique (search remaining : jsstring)
  (maxLength k k' : nat) :
  lastAcceptableSplit search remaining maxLength k ->
  lastAcceptableSplit search remaining maxLength k' -> k = k'.
Proof.
  intros [Hk Hmax] [Hk' Hmax'].
  apply Nat.le_antisymm; [now apply Hmax'|now apply Hmax].
Qed.

Lemma findSplitIndex_choice (remaining : jsstring) (maxLength : nat) :
  SplitChoice remaining maxLength (findSplitIndex remaining maxLength).
Proof.
  unfold findSplitIndex.
  destruct (rejected (lastIndexOf remaining [LF; LF] maxLength) maxLength)
    eqn:Hp.
  - pose proof (rejected_true _ _ _ Hp) as Hnp.
    destruct (rejected (lastIndexOf remaining [LF] maxLength) maxLength)
      eqn:Hl.
    + pose proof (rejected_true _ _ _ Hl) as Hnl.
      destruct (rejected (lastIndexOf remaining [SPACE] maxLength) maxLength)
        eqn:Hs.
      * apply ChooseHardCut; trivial. now apply rejected_true.
      * destruct (lastIndexOf remaining [SPACE] maxLength) as [k|] eqn:Hk;
          [|discriminate].
        apply ChooseSpace; trivial. now apply accepted_last.
    + rewrite Hl.
      destruct (lastIndexOf remaining [LF] maxLength) as [k|] eqn:Hk;
        [|discriminate].
      apply ChooseLine; trivial. now apply accepted_last.
  - rewrite Hp, Hp.
    destruct (lastIndexOf remaining [LF; LF] maxLength) as [k|] eqn:Hk;
      [|discriminate].
    apply ChooseParagraph. now apply accepted_last.
Qed.

Lemma findSplitIndex_bounds (remaining : jsstring) (maxLength : nat) :
  maxLength <= 2 * findSplitIndex remaining maxLength
  /\ findSplitIndex remaining maxLength <= maxLength.
Proof.
  destruct (findSplitIndex_choice remaining maxLength)
    as [k [(_ & ? & ?) _]|k _ [(_ & ? & ?) _]|k _ _ [(_ & ? & ?) _]|_ _ _];
    lia.
Qed.


Lemma splitLoop_unfold (fuel maxLength : nat) (remaining : jsstring) :
  maxLength < length remaining ->
  splitLoop (S fuel) maxLength remaining
  = option_map
      (cons (trim (substring_to remaining (findSplitIndex remaining maxLength))))
      (splitLoop fuel maxLength
         (trim (substring_from remaining (findSplitIndex remaining maxLength)))).
Proof.
  intros Hlen. cbn [splitLoop].
  destruct (Nat.eqb_spec (length remaining) 0) as [H0|_]; [lia|].
  destruct (Nat.leb_spec (length remaining) maxLength) as [Hle|_]; [lia|].
  reflexivity.
Qed.

Lemma splitLoop_short (fuel maxLength : nat) (remaining : jsstring) :
  length remaining <= maxLength ->
  splitLoop fuel maxLength remaining
  = Some (if length remaining =? 0 then [] else [remaining]).
Proof.
  intros Hlen.
  destruct fuel; cbn [splitLoop];
    destruct (Nat.eqb_spec (length remaining) 0) as [H0|H0]; trivial;
    destruct (Nat.leb_spec (length remaining) maxLength); trivial; lia.
Qed.

(** Induction principle of the loop: a property of the runs that end. *)
Lemma splitLoop_ind (maxLength : nat) (P : jsstring -> list jsstring -> Prop) :
  (forall remaining, length remaining = 0 -> P remaining []) ->
  (forall remaining,
      0 < length remaining <= maxLength -> P remaining [remaining]) ->
  (forall remaining chunks,
      maxLength < length remaining ->
      let k := findSplitIndex remaining maxLength in
      P (trim (substring_from remaining k)) chunks ->
      P remaining (trim (substring_to remaining k) :: chunks)) ->
  forall fuel remaining chunks,
    splitLoop fuel maxLength remaining = Some chunks -> P remaining chunks.
Proof.
  intros Hempty Hshort Hstep.
  induction fuel as [|fuel IH]; intros remaining chunks.
  - cbn [splitLoop].
    destruct (Nat.eqb_spec (length remaining) 0) as [H0|H0].
    + intros [= <-]. now apply Hempty.
    + destruct (Nat.leb_spec (length remaining) maxLength) as [Hle|Hgt];
        [|discriminate].
      intros [= <-]. apply Hshort. lia.
  - destruct (Nat.le_gt_cases (length remaining) maxLength) as [Hle|Hgt].
    + rewrite splitLoop_short by trivial.
      destruct (Nat.eqb_spec (length remaining) 0) as [H0|H0];
        intros [= <-]; [now apply Hempty|apply Hshort; lia].
    + rewrite splitLoop_unfold by trivial.
      destruct (splitLoop fuel maxLength _) as [chunks'|] eqn:Hrest;
        [|discriminate].
      intros [= <-]. apply Hstep; trivial. now apply IH.
Qed.

Lemma splitLoop_bounded (fuel maxLength : nat) (remaining : jsstring)
  (chunks : list jsstring) :
  splitLoop fuel maxLength remaining = Some chunks ->
  Forall (fun chunk => length chunk <= maxLength) chunks.
Proof.
  revert fuel remaining chunks.
  apply (splitLoop_ind maxLength
           (fun _ chunks =>
              Forall (fun chunk => length chunk <= maxLength) chunks)).
  - constructor.
  - intros remaining H. constructor; [lia|constructor].
  - intros remaining chunks Hlen k IH. constructor; trivial.
    pose proof (trim_length (substring_to remaining k)) as Ht.
    unfold substring_to in *. rewrite length_firstn in Ht.
    pose proof (findSplitIndex_bounds remaining maxLength). subst k. lia.
Qed.

Lemma splitLoop_total (maxLength : nat) :
  1 <= maxLength ->
  forall fuel remaining,
    length remaining <= fuel ->
    exists chunks, splitLoop fuel maxLength remaining = Some chunks.
Proof.
  intros Hpos.
  induction fuel as [|fuel IH]; intros remaining Hfuel.
  - rewrite splitLoop_short by lia. eauto.
  - destruct (Nat.le_gt_cases (length remaining) maxLength) as [Hle|Hgt].
    + rewrite splitLoop_short by trivial. eauto.
    + rewrite splitLoop_unfold by trivial.
      pose proof (findSplitIndex_bounds remaining maxLength) as [Hmid Hmax].
      set (k := findSplitIndex remaining maxLength) in *.
      destruct (IH (trim (substring_from remaining k))) as (chunks & ->).
      * pose proof (trim_length (substring_from remaining k)) as Ht.
        unfold substring_from in *. rewrite length_skipn in Ht. lia.
      * simpl. eauto.
Qed.

Lemma Reassembles_prepend (w text : jsstring) (chunks : list jsstring) :
  allWhiteSpace w -> Reassembles text chunks -> Reassembles (w ++ text) chunks.
Proof.
  intros Hw H. destruct H as [w' Hw'|w' chunk rest chunks Hw' Hrest].
  - constructor. now apply allWhiteSpace_app.
  - rewrite app_assoc. constructor; trivial. now apply allWhiteSpace_app.
Qed.

Lemma Reassembles_append (w text : jsstring) (chunks : list jsstring) :
  allWhiteSpace w -> Reassembles text chunks -> Reassembles (text ++ w) chunks.
Proof.
  intros Hw H.
  induction H as [w' Hw'|w' chunk rest chunks Hw' Hrest IH].
  - constructor. now apply allWhiteSpace_app.
  - rewrite <- !app_assoc. now constructor.
Qed.

Lemma filter_allWhiteSpace (w : jsstring) :
  allWhiteSpace w -> filter notWhiteSpace w = [].
Proof.
  induction 1 as [|c w Hc _ IH]; simpl; trivial.
  unfold notWhiteSpace at 1. now rewrite Hc.
Qed.

Lemma Reassembles_filter (text : jsstring) (chunks : list jsstring) :
  Reassembles text chunks ->
  filter notWhiteSpace (concat chunks) = filter notWhiteSpace text.
Proof.
  induction 1 as [w Hw|w chunk rest chunks Hw _ IH]; simpl.
  - now rewrite filter_allWhiteSpace.
  - rewrite !filter_app, IH, (filter_allWhiteSpace w Hw). reflexivity.
Qed.

Lemma splitLoop_reassembles (fuel maxLength : nat) (remaining : jsstring)
  (chunks : list jsstring) :
  splitLoop fuel maxLength remaining = Some chunks ->
  Reassembles remaining chunks.
Proof.
  revert fuel remaining chunks.
  apply (splitLoop_ind maxLength Reassembles).
  - intros remaining H. destruct remaining; [|discriminate].
    constructor. constructor.
  - intros remaining _.
    rewrite <- (app_nil_r remaining) at 1.
    apply (Reassembles_cons [] remaining [] []); constructor. constructor.
  - intros remaining chunks _ k IH.
    rewrite <- (firstn_skipn k remaining) at 1.
    unfold substring_to, substring_from in *.
    destruct (trim_spec (firstn k remaining)) as (a1 & a2 & Ha & Ha1 & Ha2).
    destruct (trim_spec (skipn k remaining)) as (b1 & b2 & Hb & Hb1 & Hb2).
    rewrite Ha at 1. rewrite Hb at 1.
    rewrite <- !app_assoc.
    constructor; trivial.
    apply Reassembles_prepend; trivial.
    apply Reassembles_prepend; trivial.
    now apply Reassembles_append.
Qed.

Lemma DEFAULT_MAX_LENGTH_pos : 1 <= DEFAULT_MAX_LENGTH.
Proof. apply Nat.lt_0_succ. Qed.

Lemma splitContent_opt_total (content : jsstring) (maxLength : nat) :
  1 <= maxLength ->
  exists chunks, splitContent_opt content maxLength = Some chunks.
Proof.
  intros Hpos. unfold splitContent_opt, splitContent_fuel.
  destruct (length content <=? maxLength); [eauto|].
  now apply splitLoop_total.
Qed.

Lemma splitContent_opt_default (content : jsstring) :
  splitContent_opt content DEFAULT_MAX_LENGTH = Some (splitContent content).
Proof.
  unfold splitContent.
  destruct (splitContent_opt_total content DEFAULT_MAX_LENGTH
              DEFAULT_MAX_LENGTH_pos) as (chunks & ->).
  reflexivity.
Qed.

Lemma splitContent_fuel_bounded (fuel : nat) (content : jsstring)
  (maxLength : nat) (chunks : list jsstring) :
  splitContent_fuel fuel content maxLength = Some chunks ->
  Forall (fun chunk => length chunk <= maxLength) chunks.
Proof.
  unfold splitContent_fuel.
  destruct (Nat.leb_spec (length content) maxLength) as [Hle|Hgt].
  - intros [= <-]. constructor; [trivial|constructor].
  - apply splitLoop_bounded.
Qed.

Lemma splitContent_fuel_reassembles (fuel : nat) (content : jsstring)
  (maxLength : nat) (chunks : list jsstring) :
  splitContent_fuel fuel content maxLength = Some chunks ->
  Reassembles content chunks.
Proof.
  unfold splitContent_fuel.
  destruct (Nat.leb_spec (length content) maxLength) as [Hle|Hgt].
  - intros [= <-]. rewrite <- (app_nil_r content) at 1.
    apply (Reassembles_cons [] content [] []); constructor. constructor.
  - apply splitLoop_reassembles.
Qed.

Lemma splitContent_short (content : jsstring) :
  length content <= DEFAULT_MAX_LENGTH -> splitContent content = [content].
Proof.
  intros Hlen. unfold splitContent, splitContent_opt, splitContent_fuel.
  destruct (Nat.leb_spec (length content) DEFAULT_MAX_LENGTH); [reflexivity|lia].
Qed.

(** There is always a chunk to post. *)
Lemma splitContent_nonempty (content : jsstring) : splitContent content <> [].
Proof.
  pose proof (splitContent_opt_default content) as Hrun.
  unfold splitContent_opt, splitContent_fuel in Hrun.
  destruct (Nat.leb_spec (length content) DEFAULT_MAX_LENGTH) as [Hle|Hgt].
  - injection Hrun as <-. discriminate.
  - destruct (length content) as [|n] eqn:Hn; [lia|].
    rewrite <- Hn in Hgt. rewrite splitLoop_unfold in Hrun by exact Hgt.
    destruct (splitLoop n DEFAULT_MAX_LENGTH _); [|discriminate].
    injection Hrun as <-. discriminate.
Qed.

End SplitFacts.

Section FuelFacts.

Lemma splitLoop_fuel_mono (maxLength : nat) :
  forall fuel fuel' remaining chunks,
    fuel <= fuel' ->
    splitLoop fuel maxLength remaining = Some chunks ->
    splitLoop fuel' maxLength remaining = Some chunks.
Proof.
  induction fuel as [|fuel IH]; intros fuel' remaining chunks Hle Hrun.
  - destruct (Nat.le_gt_cases (length remaining) maxLength) as [Hshort|Hlong].
    + rewrite splitLoop_short in * by trivial. exact Hrun.
    + cbn [splitLoop] in Hrun.
      destruct (Nat.eqb_spec (length remaining) 0); [lia|].
      destruct (Nat.leb_spec (length remaining) maxLength); [lia|discriminate].
  - destruct (Nat.le_gt_cases (length remaining) maxLength) as [Hshort|Hlong].
    + rewrite splitLoop_short in * by trivial. exact Hrun.
    + destruct fuel' as [|fuel']; [lia|].
      rewrite splitLoop_unfold in * by trivial.
      destruct (splitLoop fuel maxLength _) as [rest|] eqn:Hrest;
        [|discriminate].
      rewrite (IH fuel' _ rest) by (trivial; lia). exact Hrun.
Qed.

(** With [maxLength = 0] a trimmed, non-empty remainder is never
    consumed: the loop does not end. *)
Lemma splitLoop_zero_stuck (fuel : nat) (remaining : jsstring) :
  remaining <> [] ->
  trim remaining = remaining ->
  splitLoop fuel 0 remaining = None.
Proof.
  intros Hne Htrim. induction fuel as [|fuel IH].
  - destruct remaining; [congruence|reflexivity].
  - rewrite splitLoop_unfold by (destruct remaining; [congruence|simpl; lia]).
    pose proof (findSplitIndex_bounds remaining 0) as [_ Hk].
    replace (findSplitIndex remaining 0) with 0 by lia.
    unfold substring_from. cbn [skipn]. rewrite Htrim, IH. reflexivity.
Qed.

(** Whenever some number of iterations is enough for the call to
    return, [length content] iterations are. *)
Lemma splitContent_fuel_adequate (fuel : nat) (content : jsstring)
  (maxLength : nat) (chunks : list jsstring) :
  splitContent_fuel fuel content maxLength = Some chunks ->
  splitContent_opt content maxLength = Some chunks.
Proof.
  unfold splitContent_opt, splitContent_fuel.
  destruct (Nat.leb_spec (length content) maxLength) as [Hshort|Hlong];
    trivial.
  intros Hrun.
  destruct (Nat.le_gt_cases fuel (length content)) as [Hle|Hgt].
  { now apply (splitLoop_fuel_mono maxLength fuel). }
  destruct maxLength as [|maxLength].
  - destruct fuel as [|fuel]; [lia|].
    destruct (length content) as [|n] eqn:Hn; [lia|].
    rewrite <- Hn in Hlong.
    rewrite splitLoop_unfold in * by trivial.
    pose proof (findSplitIndex_bounds content 0) as [_ Hk].
    replace (findSplitIndex content 0) with 0 in * by lia.
    unfold substring_from in *. cbn [skipn] in *.
    destruct (trim content) as [|c rest] eqn:Htrim.
    + rewrite !splitLoop_short in * by (simpl; lia). exact Hrun.
    + rewrite (splitLoop_zero_stuck fuel (c :: rest)) in Hrun;
        [discriminate|discriminate|].
      rewrite <- Htrim. apply trim_idempotent.
  - destruct (splitLoop_total (S maxLength) ltac:(lia) (length content)
                content (le_n _)) as (chunks' & Hrun').
    rewrite Hrun'. f_equal.
    apply (splitLoop_fuel_mono _ _ fuel) in Hrun'; [|lia].
    congruence.
Qed.

End FuelFacts.

(* ================================================================== *)
(** ** Facts about the monad, the resolver and the generation *)
(* ================================================================== *)

Section MonadFacts.

Context {A B : Type}.

Lemma bind_Return (m : M A) (k : A -> M B) (history : list Event) (a : A)
  (events : list Event) :
  m history = (Return a, events) ->
  bind m k history
  = (fst (k a (history ++ events)), events ++ snd (k a (history ++ events))).
Proof.
  intros H. unfold bind. rewrite H.
  now destruct (k a (history ++ events)).
Qed.

Lemma bind_Throw (m : M A) (k : A -> M B) (history : list Event)
  (thrown : Thrown) (events : list Event) :
  m history = (Throw thrown, events) ->
  bind m k history = (Throw thrown, events).
Proof. intros H. unfold bind. now rewrite H. Qed.

Lemma bind_ret (a : A) (k : A -> M B) (history : list Event) :
  bind (ret a) k history = k a history.
Proof.
  unfold bind, ret. rewrite app_nil_r.
  now destruct (k a history).
Qed.

Lemma bind_await_Return (a : A) (k : A -> M B) (history : list Event) :
  bind (await (Return a)) k history = k a history.
Proof. apply bind_ret. Qed.

Lemma bind_await_Throw (thrown : Thrown) (k : A -> M B)
  (history : list Event) :
  bind (await (Throw thrown)) k history = (Throw thrown, []).
Proof. reflexivity. Qed.

Lemma try_catch_Return (m : M A) (handler : Thrown -> M A)
  (history : list Event) (a : A) (events : list Event) :
  m history = (Return a, events) ->
  try_catch m handler history = (Return a, events).
Proof. intros H. unfold try_catch. now rewrite H. Qed.

Lemma try_catch_Throw (m : M A) (handler : Thrown -> M A)
  (history : list Event) (thrown : Thrown) (events : list Event) :
  m history = (Throw thrown, events) ->
  try_catch m handler history
  = (fst (handler thrown (history ++ events)),
     events ++ snd (handler thrown (history ++ events))).
Proof.
  intros H. unfold try_catch. rewrite H.
  now destruct (handler thrown (history ++ events)).
Qed.

End MonadFacts.

Lemma bind_ret_r {A} (m : M A) (history : list Event) :
  bind m (fun a => ret a) history = m history.
Proof.
  unfold bind, ret. destruct (m history) as [[a|thrown] events]; trivial.
  now rewrite app_nil_r.
Qed.

Section GenerationFacts.

Variable env : Env.

(** The callback of the batch never rejects: it turns the completion of
    the generation into a result. *)
Lemma generateOne_spec (bookTitle : jsstring) (history : list Event) :
  generateOne env bookTitle history
  = (Return (resultOf bookTitle
               (fst (providerManager_generateSynopsis env bookTitle history))),
     snd (providerManager_generateSynopsis env bookTitle history)).
Proof.
  unfold generateOne.
  destruct (providerManager_generateSynopsis env bookTitle history)
    as [[synopsisText|thrown] events] eqn:Hgen.
  - erewrite try_catch_Return; [reflexivity|].
    erewrite bind_Return by exact Hgen. simpl. now rewrite app_nil_r.
  - erewrite try_catch_Throw.
    2:{ erewrite bind_Throw by exact Hgen. reflexivity. }
    simpl. now rewrite app_nil_r.
Qed.

Lemma generateBatchSynopses_spec (titles : list jsstring) :
  forall history,
  exists results events,
    generateBatchSynopses env titles history = (Return results, events)
    /\ GeneratedInOrder env history titles results.
Proof.
  unfold generateBatchSynopses.
  induction titles as [|bookTitle titles IH]; intros history.
  - exists [], []. split; [reflexivity|constructor].
  - cbn [Promise_all_map].
    erewrite bind_Return by apply generateOne_spec.
    set (generation := providerManager_generateSynopsis env bookTitle history).
    destruct (IH (history ++ snd generation)) as (results & events & Hrun & Hgen).
    erewrite bind_Return by exact Hrun.
    eexists _, _. split; [reflexivity|].
    now constructor.
Qed.

Lemma GeneratedInOrder_titles (history : list Event) (titles : list jsstring)
  (results : list SynopsisResult) :
  GeneratedInOrder env history titles results -> map title results = titles.
Proof.
  induction 1 as [|history bookTitle titles results generation _ IH].
  - reflexivity.
  - simpl. rewrite IH. f_equal.
    now destruct (fst generation).
Qed.

End GenerationFacts.

Section ResolverFacts.

Variable env : Env.

Lemma parseTitles_simple (input : jsstring) (history : list Event) :
  isValidSimpleParse (simpleParseTitle input) = true ->
  parseTitles env input history = (Return (simpleParseTitle input), []).
Proof. intros H. unfold parseTitles. now rewrite H. Qed.

Lemma parseTitles_fallback (input : jsstring) (history : list Event) :
  isValidSimpleParse (simpleParseTitle input) = false ->
  parseTitles env input history
  = bind (await (getProvider env None))
      (fun provider => extractTitles provider input) history.
Proof.
  intros H. unfold parseTitles. rewrite H.
  destruct (getProvider env None) as [provider|thrown].
  - rewrite !bind_await_Return. apply bind_ret_r.
  - reflexivity.
Qed.

Lemma ClaudeProvider_extractTitles_run (input : jsstring)
  (history : list Event) :
  let reply := claude_messages_create env history (ExtractTitles input) in
  ClaudeProvider_extractTitles env input history
  = (match reply with
     | Throw thrown =>
         Throw (ErrorObject (str "Claude API error: " ++ errorMessage thrown))
     | Return None =>
         Throw (ErrorObject
                  (str "Claude API error: "
                   ++ str "No text content in Claude response"))
     | Return (Some responseText) =>
         match matchJsonArray responseText with
         | None => Return []
         | Some jsonMatch =>
             match JSON_parse env jsonMatch with
             | Return titles => Return titles
             | Throw thrown =>
                 Throw (ErrorObject
                          (str "Claude API error: " ++ errorMessage thrown))
             end
         end
     end,
     [ClaudeMessagesCreate (ExtractTitles input) reply]).
Proof.
  intros reply.
  unfold ClaudeProvider_extractTitles, try_catch, bind, claudeCall,
    parseJsonArray, await, throw, ret.
  fold reply.
  destruct reply as [[responseText|]|thrown]; trivial.
  destruct (matchJsonArray responseText) as [jsonMatch|]; trivial.
  destruct (JSON_parse env jsonMatch); trivial.
Qed.

Lemma GeminiProvider_extractTitles_run (input : jsstring)
  (history : list Event) :
  let reply := gemini_generateContent env history (ExtractTitles input) in
  GeminiProvider_extractTitles env input history
  = (match reply with
     | Throw thrown =>
         Throw (ErrorObject (str "Gemini API error: " ++ errorMessage thrown))
     | Return responseText =>
         match matchJsonArray responseText with
         | None => Return []
         | Some jsonMatch =>
             match JSON_parse env jsonMatch with
             | Return titles => Return titles
             | Throw thrown =>
                 Throw (ErrorObject
                          (str "Gemini API error: " ++ errorMessage thrown))
             end
         end
     end,
     [GeminiGenerateContent (ExtractTitles input) reply]).
Proof.
  intros reply.
  unfold GeminiProvider_extractTitles, try_catch, bind, geminiCall,
    parseJsonArray, await, throw, ret.
  fold reply.
  destruct reply as [responseText|thrown]; trivial.
  destruct (matchJsonArray responseText) as [jsonMatch|]; trivial.
  destruct (JSON_parse env jsonMatch); trivial.
Qed.

End ResolverFacts.

Lemma fromFirst_None (c : N) (s : jsstring) :
  fromFirst c s = None <-> ~ In c s.
Proof.
  induction s as [|d s IH]; simpl; [tauto|].
  destruct (N.eqb_spec d c) as [->|Hne].
  - split; [discriminate|]. intros H. exfalso. apply H. now left.
  - rewrite IH. split.
    + intros H [Heq|Hin]; [congruence|tauto].
    + intros H Hin. apply H. now right.
Qed.

Lemma fromFirst_Some (c : N) (s suffix : jsstring) :
  fromFirst c s = Some suffix ->
  exists before after,
    s = before ++ c :: after /\ suffix = c :: after /\ ~ In c before.
Proof.
  revert suffix. induction s as [|d s IH]; simpl; [discriminate|].
  intros suffix. destruct (N.eqb_spec d c) as [->|Hne].
  - intros [= <-]. exists [], s. repeat split. intros [].
  - intros H. destruct (IH _ H) as (before & after & -> & -> & Hnot).
    exists (d :: before), after. repeat split.
    intros [Heq|Hin]; [congruence|tauto].
Qed.

Lemma throughLast_None (c : N) (s : jsstring) :
  throughLast c s = None <-> ~ In c s.
Proof.
  unfold throughLast.
  destruct (fromFirst c (rev s)) as [suffix|] eqn:H; simpl.
  - split; [discriminate|]. intros Hnot. exfalso.
    assert (Hnone : fromFirst c (rev s) = None).
    { apply fromFirst_None. intros Hin. apply Hnot. now apply in_rev. }
    congruence.
  - apply fromFirst_None in H. split; [|trivial].
    intros _ Hin. apply H. now apply in_rev in Hin.
Qed.

Lemma first_occurrence_suffix (x : N) (before after a rest : jsstring) :
  ~ In x before ->
  before ++ x :: after = a ++ [x] ++ rest ->
  forall y, In y rest -> In y after.
Proof.
  revert a. induction before as [|d before IH]; intros a Hnot Heq y Hy.
  - destruct a as [|e a]; simpl in Heq.
    + injection Heq as ->. exact Hy.
    + injection Heq as _ ->. apply in_or_app. right. now right.
  - destruct a as [|e a]; simpl in Heq.
    + injection Heq as -> _. exfalso. apply Hnot. now left.
    + injection Heq as _ Heq.
      apply (IH a (fun Hin => Hnot (or_intror Hin)) Heq y Hy).
Qed.

(** The response has no bracketed array exactly when no opening bracket
    is followed, anywhere later, by a closing bracket. *)
Lemma matchJsonArray_None (responseText : jsstring) :
  matchJsonArray responseText = None
  <-> ~ exists a b c, responseText = a ++ [91%N] ++ b ++ [93%N] ++ c.
Proof.
  unfold matchJsonArray.
  destruct (fromFirst 91%N responseText) as [suffix|] eqn:Hfirst.
  - apply fromFirst_Some in Hfirst.
    destruct Hfirst as (before & after & -> & -> & Hnot).
    destruct (throughLast 93%N after) as [m|] eqn:Hlast; simpl.
    + split; [discriminate|]. intros H. exfalso. apply H.
      assert (Hin : In 93%N after).
      { destruct (in_dec N.eq_dec 93%N after) as [|Hn]; trivial.
        apply throughLast_None in Hn. congruence. }
      apply in_split in Hin. destruct Hin as (b & c & ->).
      now exists before, b, c.
    + apply throughLast_None in Hlast. split; [|trivial].
      intros _ (a & b & c & Heq).
      apply Hlast.
      apply (first_occurrence_suffix 91%N before after a (b ++ [93%N] ++ c));
        trivial.
      apply in_or_app. right. now left.
  - apply fromFirst_None in Hfirst. split; [|trivial].
    intros _ (a & b & c & ->). apply Hfirst.
    apply in_or_app. right. now left.
Qed.

(** The match runs from the first opening bracket to the last closing
    bracket. *)
Lemma matchJsonArray_Some (responseText jsonMatch : jsstring) :
  matchJsonArray responseText = Some jsonMatch ->
  exists a b c,
    responseText = a ++ [91%N] ++ b ++ [93%N] ++ c
    /\ jsonMatch = [91%N] ++ b ++ [93%N]
    /\ ~ In 91%N a /\ ~ In 93%N c.
Proof.
  unfold matchJsonArray.
  destruct (fromFirst 91%N responseText) as [suffix|] eqn:Hfirst;
    [|discriminate].
  apply fromFirst_Some in Hfirst.
  destruct Hfirst as (a & after & -> & -> & Ha).
  unfold throughLast.
  destruct (fromFirst 93%N (rev after)) as [r|] eqn:Hlast; [|discriminate].
  apply fromFirst_Some in Hlast.
  destruct Hlast as (c' & b' & Hrev & -> & Hc).
  cbn [option_map]. intros [= <-].
  exists a, (rev b'), (rev c').
  assert (Hafter : after = rev b' ++ [93%N] ++ rev c').
  { rewrite <- (rev_involutive after), Hrev, rev_app_distr.
    cbn [rev]. now rewrite <- app_assoc. }
  split; [now rewrite Hafter|]. split; [reflexivity|].
  split; [exact Ha|].
  intros Hin. apply Hc. now apply in_rev.
Qed.

(* ================================================================== *)
(** ** Facts about the events of a computation *)
(* ================================================================== *)

Section EffectFacts.


Lemma snd_bind {A B} (m : M A) (k : A -> M B) (history : list Event) :
  snd (bind m k history)
  = snd (m history)
    ++ match fst (m history) with
       | Return a => snd (k a (history ++ snd (m history)))
       | Throw _ => []
       end.
Proof.
  unfold bind. destruct (m history) as [[a|thrown] events]; simpl.
  - now destruct (k a (history ++ events)).
  - now rewrite app_nil_r.
Qed.

Lemma snd_try_catch {A} (m : M A) (handler : Thrown -> M A)
  (history : list Event) :
  snd (try_catch m handler history)
  = snd (m history)
    ++ match fst (m history) with
       | Return _ => []
       | Throw thrown => snd (handler thrown (history ++ snd (m history)))
       end.
Proof.
  unfold try_catch. destruct (m history) as [[a|thrown] events]; simpl.
  - now rewrite app_nil_r.
  - now destruct (handler thrown (history ++ events)).
Qed.

Context (P : Event -> Prop).

Lemma emits_ret {A} (a : A) : emits P (ret a).
Proof. intros history. constructor. Qed.

Lemma emits_throw {A} (thrown : Thrown) : emits P (@throw A thrown).
Proof. intros history. constructor. Qed.

Lemma emits_await {A} (c : Completion A) : emits P (await c).
Proof. intros history. constructor. Qed.

Lemma emits_bind {A B} (m : M A) (k : A -> M B) :
  emits P m -> (forall a, emits P (k a)) -> emits P (bind m k).
Proof.
  intros Hm Hk history. rewrite snd_bind. apply Forall_app. split.
  - apply Hm.
  - destruct (fst (m history)); [apply Hk|constructor].
Qed.

Lemma emits_try_catch {A} (m : M A) (handler : Thrown -> M A) :
  emits P m -> (forall thrown, emits P (handler thrown)) ->
  emits P (try_catch m handler).
Proof.
  intros Hm Hh history. rewrite snd_try_catch. apply Forall_app. split.
  - apply Hm.
  - destruct (fst (m history)); [constructor|apply Hh].
Qed.

Lemma emits_doFetch (env : Env) (request : HttpRequest) :
  (forall response, P (Fetch request response)) ->
  emits P (doFetch env request).
Proof. intros H history. simpl. constructor; [apply H|constructor]. Qed.

Lemma emits_claudeCall (env : Env) (request : LLMRequest) :
  (forall reply, P (ClaudeMessagesCreate request reply)) ->
  emits P (claudeCall env request).
Proof. intros H history. simpl. constructor; [apply H|constructor]. Qed.

Lemma emits_geminiCall (env : Env) (request : LLMRequest) :
  (forall reply, P (GeminiGenerateContent request reply)) ->
  emits P (geminiCall env request).
Proof. intros H history. simpl. constructor; [apply H|constructor]. Qed.

Lemma emits_delay (ms : nat) :
  P (SetTimeout ms) -> emits P (delay ms).
Proof. intros H history. simpl. constructor; [apply H|constructor]. Qed.

Lemma emits_pace {A} (ms : nat) (rest : list A) :
  P (SetTimeout ms) -> emits P (pace ms rest).
Proof.
  intros H. destruct rest; [apply emits_ret|now apply emits_delay].
Qed.

Lemma emits_postChunks (env : Env) (request : jsstring -> HttpRequest)
  (chunks : list jsstring) :
  (forall chunk response, P (Fetch (request chunk) response)) ->
  P (SetTimeout 250) ->
  emits P (postChunks env request chunks).
Proof.
  intros Hpost Hdelay.
  induction chunks as [|chunk rest IH]; cbn [postChunks].
  - apply emits_ret.
  - apply emits_bind; [now apply emits_doFetch|].
    intros response. destruct (negb (ok response)).
    + apply emits_bind; [apply emits_await|intros; apply emits_ret].
    + apply emits_bind; [now apply emits_pace|trivial].
Qed.

Lemma emits_Promise_all_map {A B} (f : A -> M B) (xs : list A) :
  (forall x, emits P (f x)) -> emits P (Promise_all_map f xs).
Proof.
  intros Hf. induction xs as [|x xs IH]; cbn [Promise_all_map].
  - apply emits_ret.
  - apply emits_bind; [apply Hf|]. intros y.
    apply emits_bind; [apply IH|]. intros ys. apply emits_ret.
Qed.

End EffectFacts.

(* ================================================================== *)
(** ** Facts about delivery *)
(* ================================================================== *)

Section DeliveryFacts.

Variable env : Env.

Lemma sendToThread_loop_postChunks (threadId : jsstring)
  (chunks : list jsstring) :
  sendToThread_loop env threadId chunks
  = postChunks env (PostChannelMessage threadId) chunks.
Proof.
  induction chunks as [|chunk rest IH]; cbn [sendToThread_loop postChunks];
    [reflexivity|now rewrite IH].
Qed.

Lemma sendFollowUp_loop_postChunks (interaction : Interaction)
  (ephemeral : bool) (chunks : list jsstring) :
  sendFollowUp_loop env interaction ephemeral chunks
  = postChunks env (webhookRequest interaction ephemeral) chunks.
Proof.
  induction chunks as [|chunk rest IH]; cbn [sendFollowUp_loop postChunks];
    [reflexivity|now rewrite IH].
Qed.

Lemma sendBatchResults_chunks_postChunks (interaction : Interaction)
  (chunks : list jsstring) :
  sendBatchResults_chunks env interaction chunks
  = postChunks env (webhookRequest interaction false) chunks.
Proof.
  induction chunks as [|chunk rest IH];
    cbn [sendBatchResults_chunks postChunks];
    [reflexivity|now rewrite IH].
Qed.

(** One iteration of a posting loop. *)
Lemma postChunks_cons (request : jsstring -> HttpRequest) (chunk : jsstring)
  (rest : list jsstring) (history : list Event) :
  let answer := fetch env history (request chunk) in
  let posted := Fetch (request chunk) answer in
  postChunks env request (chunk :: rest) history
  = match answer with
    | Throw thrown => (Throw thrown, [posted])
    | Return response =>
        if ok response
        then
          let continue :=
            bind (pace 250 rest) (fun _ => postChunks env request rest)
              (history ++ [posted]) in
          (fst continue, posted :: snd continue)
        else
          (match text response with
           | Return _ => Return tt
           | Throw thrown => Throw thrown
           end, [posted])
    end.
Proof.
  intros answer posted. cbn [postChunks].
  unfold bind at 1. unfold doFetch. fold answer. fold posted.
  destruct answer as [response|thrown]; [|reflexivity].
  destruct (ok response); cbn [negb].
  - match goal with |- context [bind ?m ?k ?h] =>
      destruct (bind m k h) as [c events] end.
    reflexivity.
  - unfold bind, await, ret. destruct (text response); reflexivity.
Qed.

Lemma pace_then (ms : nat) {A} (rest : list A) (k : M unit)
  (history : list Event) :
  bind (pace ms rest) (fun _ => k) history
  = match rest with
    | [] => k history
    | _ :: _ =>
        (fst (k (history ++ [SetTimeout ms])),
         SetTimeout ms :: snd (k (history ++ [SetTimeout ms])))
    end.
Proof.
  destruct rest as [|x rest]; cbn [pace].
  - apply bind_ret.
  - unfold bind, delay.
    now destruct (k (history ++ [SetTimeout ms])).
Qed.


Lemma webhookPosts_app (events events' : list Event) :
  webhookPosts (events ++ events') = webhookPosts events ++ webhookPosts events'.
Proof. apply flat_map_app. Qed.



(** When every post is accepted, a posting loop posts every chunk. *)
Lemma postChunks_accepted (request : jsstring -> HttpRequest)
  (posts : list Event -> list jsstring) :
  (forall history chunk, exists response,
      fetch env history (request chunk) = Return response
      /\ ok response = true) ->
  (forall chunk response events,
      posts (Fetch (request chunk) response :: events)
      = chunk :: posts events) ->
  (forall ms events, posts (SetTimeout ms :: events) = posts events) ->
  posts [] = [] ->
  forall chunks history,
    fst (postChunks env request chunks history) = Return tt
    /\ posts (snd (postChunks env request chunks history)) = chunks.
Proof.
  intros Hacc Hpost Hdelay Hnil.
  induction chunks as [|chunk rest IH]; intros history.
  - split; [reflexivity|exact Hnil].
  - rewrite postChunks_cons. cbv zeta.
    destruct (Hacc history chunk) as (response & -> & ->).
    rewrite pace_then.
    destruct rest as [|chunk' rest']; cbn [fst snd].
    + cbn [postChunks ret fst snd].
      split; [reflexivity|]. now rewrite Hpost, Hnil.
    + rewrite Hpost, Hdelay.
      destruct (IH (((history ++ [Fetch (request chunk) (Return response)])
                      ++ [SetTimeout 250]))) as [Hfst Hsnd].
      split; [exact Hfst|now rewrite Hsnd].
Qed.

(** *** [sendFollowUp] *)

Lemma sendFollowUp_returns (interaction : Interaction) (message : jsstring)
  (ephemeral : bool) (history : list Event) :
  fst (sendFollowUp env interaction message ephemeral history) = Return tt.
Proof.
  unfold sendFollowUp, try_catch.
  destruct (sendFollowUp_loop env interaction ephemeral _ history)
    as [[[]|thrown] events]; reflexivity.
Qed.

(** A message that fits in one chunk is posted once. *)
Lemma sendFollowUp_single (interaction : Interaction) (message : jsstring)
  (ephemeral : bool) (history : list Event) :
  length message <= DEFAULT_MAX_LENGTH ->
  sendFollowUp env interaction message ephemeral history
  = (Return tt,
     [Fetch (webhookRequest interaction ephemeral message)
        (fetch env history (webhookRequest interaction ephemeral message))]).
Proof.
  intros Hlen. unfold sendFollowUp.
  rewrite (splitContent_short _ Hlen), sendFollowUp_loop_postChunks.
  unfold try_catch. rewrite postChunks_cons. cbv zeta.
  destruct (fetch env history (webhookRequest interaction ephemeral message))
    as [response|thrown]; [|reflexivity].
  destruct (ok response).
  - rewrite pace_then. reflexivity.
  - destruct (text response); reflexivity.
Qed.

Lemma sendFollowUp_accepted (interaction : Interaction) (message : jsstring)
  (ephemeral : bool) (history : list Event) :
  webhookAccepts env ->
  webhookPosts (snd (sendFollowUp env interaction message ephemeral history))
  = splitContent message.
Proof.
  intros Hacc. unfold sendFollowUp. rewrite snd_try_catch.
  rewrite sendFollowUp_loop_postChunks.
  destruct (postChunks_accepted (webhookRequest interaction ephemeral)
              webhookPosts) with (chunks := splitContent message)
                                (history := history) as [Hfst Hsnd];
    try reflexivity.
  - intros h chunk. apply Hacc.
  - rewrite Hfst, app_nil_r. exact Hsnd.
Qed.

(** *** [sendBatchResults] and [sendBatchToThread] *)



Lemma sendBatchResults_accepted (interaction : Interaction)
  (results : list SynopsisResult) :
  webhookAccepts env ->
  forall history,
    fst (sendBatchResults env interaction results history) = Return tt
    /\ webhookPosts (snd (sendBatchResults env interaction results history))
       = concat (map (fun result => splitContent (content result)) results).
Proof.
  intros Hacc.
  induction results as [|result rest IH]; intros history.
  - split; reflexivity.
  - cbn [sendBatchResults].
    destruct (postChunks_accepted (webhookRequest interaction false)
                webhookPosts) with (chunks := splitContent (content result))
                                  (history := history) as [Hfst Hsnd];
      try reflexivity.
    { intros h chunk. apply Hacc. }
    rewrite <- sendBatchResults_chunks_postChunks in Hfst, Hsnd.
    destruct (sendBatchResults_chunks env interaction
                (splitContent (content result)) history)
      as [c events1] eqn:Hchunks.
    cbn [fst snd] in Hfst, Hsnd. subst c.
    erewrite bind_Return by exact Hchunks. cbn [fst snd].
    rewrite pace_then, webhookPosts_app, Hsnd. cbn [map concat].
    destruct rest as [|result' rest'].
    + split; reflexivity.
    + cbn [fst snd].
      destruct (IH ((history ++ events1) ++ [SetTimeout 500])) as [H1 H2].
      split; [exact H1|].
      f_equal. exact H2.
Qed.




End DeliveryFacts.

Lemma digits_length (k fuel : nat) :
  forall (n : N) (acc : jsstring),
    (n < 10 ^ N.of_nat k)%N ->
    length (digits fuel n acc) <= length acc + Nat.max 1 k.
Proof.
  revert k. induction fuel as [|fuel IH]; intros k n acc Hn; cbn [digits].
  - cbn [length]. lia.
  - destruct (N.ltb_spec n 10) as [Hlt|Hge]; [cbn [length]; lia|].
    destruct k as [|[|k]].
    + simpl in Hn. lia.
    + simpl in Hn. lia.
    + specialize (IH (S k) (n / 10)%N ((48 + n mod 10)%N :: acc)).
      cbn [length] in IH.
      assert (Hdiv : (n / 10 < 10 ^ N.of_nat (S k))%N).
      { apply N.Div0.div_lt_upper_bound.
        rewrite <- N.pow_succ_r'.
        now rewrite <- Nat2N.inj_succ. }
      specialize (IH Hdiv). lia.
Qed.

Lemma ofNumber_length (n : nat) :
  (N.of_nat n < 2 ^ 32)%N -> length (ofNumber n) <= 10.
Proof.
  intros Hn. unfold ofNumber.
  apply (digits_length 10 n (N.of_nat n) []).
  eapply N.lt_trans; [exact Hn|reflexivity].
Qed.

Lemma tooManyBooks_fits (count : nat) :
  (N.of_nat count < 2 ^ 32)%N ->
  length (tooManyBooks count) <= DEFAULT_MAX_LENGTH.
Proof.
  intros Hn. unfold tooManyBooks. rewrite !length_app.
  pose proof (ofNumber_length count Hn) as Hd.
  change (length CROSS_MARK) with 1.
  change (length (str " Too many books (")) with 17.
  change (length (str "). Maximum 10 per batch.")) with 24.
  unfold DEFAULT_MAX_LENGTH. lia.
Qed.

(* ================================================================== *)
(** ** Facts about the resolver's validation and the providers *)
(* ================================================================== *)

Lemma titleLooksValid_iff (t : jsstring) :
  titleLooksValid t = true <-> TitleAccepted t.
Proof.
  unfold titleLooksValid, TitleAccepted.
  rewrite <- !testWords_spec, <- testEndsWithClass_spec.
  destruct (Nat.ltb_spec 100 (length t)) as [Hlong|Hshort].
  - split; [discriminate|]. intros (H & _). lia.
  - destruct (Regex.testWords RE_OR t).
    + split; [discriminate|]. intros (_ & H & _). now elim H.
    + destruct (Regex.testWords RE_CONVERSATIONAL t).
      * split; [discriminate|]. intros (_ & _ & H & _). now elim H.
      * destruct (Regex.testEndsWithClass RE_ELLIPSIS_CLASS t).
        -- split; [discriminate|]. intros (_ & _ & _ & H). now elim H.
        -- split; [|reflexivity]. intros _.
           repeat split; trivial; discriminate.
Qed.

Lemma isValidSimpleParse_iff (titles : list jsstring) :
  isValidSimpleParse titles = true
  <-> titles <> [] /\ Forall TitleAccepted titles.
Proof.
  unfold isValidSimpleParse.
  destruct titles as [|t titles].
  - simpl. split; [discriminate|]. now intros [H _].
  - cbn [length Nat.eqb]. rewrite forallb_forall, Forall_forall.
    split.
    + intros H. split; [discriminate|].
      intros x Hx. apply titleLooksValid_iff. now apply H.
    + intros [_ H] x Hx. apply titleLooksValid_iff. now apply H.
Qed.

Lemma getProvider_cases (env : Env) (providerName : option jsstring)
  (provider : LLMProvider) :
  getProvider env providerName = Return provider ->
  provider = GeminiProvider env \/ provider = ClaudeProvider env.
Proof.
  unfold getProvider, providers.
  set (key := match providerName with
              | Some (c :: n) => c :: n
              | _ => currentProvider env
              end).
  destruct (truthy (GEMINI_API_KEY env)), (truthy (ANTHROPIC_API_KEY env));
    cbn [app providers_get];
    repeat match goal with
           | |- context [if JS.eqb ?a ?b then _ else _] => destruct (JS.eqb a b)
           end;
    intros [= <-] || discriminate; auto.
Qed.


(* ================================================================== *)
(** ** Facts about the orchestrator *)
(* ================================================================== *)

Section PipelineFacts.

Variable env : Env.

Lemma try_catch_bind_Return {A B} (m : M A) (k : A -> M B)
  (handler : Thrown -> M B) (history : list Event) (a : A)
  (events : list Event) :
  m history = (Return a, events) ->
  try_catch (bind m k) handler history
  = (fst (try_catch (k a) handler (history ++ events)),
     events ++ snd (try_catch (k a) handler (history ++ events))).
Proof.
  intros Hm. unfold try_catch. erewrite bind_Return by exact Hm.
  destruct (k a (history ++ events)) as [[b|thrown] events'] eqn:Hk;
    cbn [fst snd].
  - reflexivity.
  - rewrite <- app_assoc.
    destruct (handler thrown (history ++ events ++ events')) as [c events''].
    cbn [fst snd]. now rewrite app_assoc.
Qed.

Lemma reportError_returns (interaction : Interaction) (m : M unit)
  (history : list Event) :
  fst (try_catch m (reportError env interaction) history) = Return tt.
Proof.
  unfold try_catch.
  destruct (m history) as [[[]|thrown] events]; [reflexivity|].
  pose proof (sendFollowUp_returns env interaction
                (CROSS_MARK ++ str " Error: " ++ errorMessage thrown) false
                (history ++ events)) as H.
  unfold reportError.
  destruct (sendFollowUp env interaction _ false (history ++ events)).
  exact H.
Qed.

(** The deferred continuation always completes. *)
Lemma processDeferred_returns (interaction : Interaction)
  (history : list Event) :
  fst (processDeferred env interaction history) = Return tt.
Proof. apply reportError_returns. Qed.

(** The events of the resolver: at most one extraction call. *)
Lemma parseTitles_events (input : jsstring) (history : list Event) :
  Forall (fun event => isGenerationCall event = false)
    (snd (parseTitles env input history)).
Proof.
  destruct (isValidSimpleParse (simpleParseTitle input)) eqn:Hvalid.
  - rewrite parseTitles_simple by trivial. constructor.
  - rewrite parseTitles_fallback by trivial.
    destruct (getProvider env None) as [provider|thrown] eqn:Hprovider;
      [|constructor].
    rewrite bind_await_Return.
    destruct (getProvider_cases _ _ _ Hprovider) as [-> | ->];
      cbn [extractTitles GeminiProvider ClaudeProvider].
    + rewrite GeminiProvider_extractTitles_run. repeat constructor.
    + rewrite ClaudeProvider_extractTitles_run. repeat constructor.
Qed.

Lemma ClaudeProvider_generate_events (bookTitle : jsstring)
  (type : GenerationType) (basedOn : option jsstring) (history : list Event) :
  snd (ClaudeProvider_generate env bookTitle type basedOn history)
  = [ClaudeMessagesCreate (Generate bookTitle type basedOn)
       (claude_messages_create env history (Generate bookTitle type basedOn))].
Proof.
  unfold ClaudeProvider_generate, try_catch, bind, claudeCall, throw, ret.
  destruct (claude_messages_create env history _) as [[t|]|thrown];
    reflexivity.
Qed.

Lemma GeminiProvider_generate_events (bookTitle : jsstring)
  (type : GenerationType) (basedOn : option jsstring) (history : list Event) :
  snd (GeminiProvider_generate env bookTitle type basedOn history)
  = [GeminiGenerateContent (Generate bookTitle type basedOn)
       (gemini_generateContent env history (Generate bookTitle type basedOn))].
Proof.
  unfold GeminiProvider_generate, try_catch, geminiCall, throw.
  destruct (gemini_generateContent env history _) as [t|thrown];
    reflexivity.
Qed.

Lemma generateOne_events (bookTitle : jsstring) (history : list Event) :
  Forall (fun event => isProviderCall event = true)
    (snd (generateOne env bookTitle history)).
Proof.
  rewrite generateOne_spec. cbn [snd].
  unfold providerManager_generateSynopsis.
  destruct (getProvider env None) as [provider|thrown] eqn:Hprovider;
    [|constructor].
  rewrite bind_await_Return.
  destruct (getProvider_cases _ _ _ Hprovider) as [-> | ->];
    cbn [generateSynopsis GeminiProvider ClaudeProvider].
  - rewrite GeminiProvider_generate_events. repeat constructor.
  - rewrite ClaudeProvider_generate_events. repeat constructor.
Qed.

Lemma generateBatchSynopses_events (titles : list jsstring) :
  emits (fun event => isProviderCall event = true)
    (generateBatchSynopses env titles).
Proof.
  apply emits_Promise_all_map. intros bookTitle history.
  apply generateOne_events.
Qed.

Lemma webhookPosts_providerCalls (events : list Event) :
  Forall (fun event => isProviderCall event = true) events ->
  webhookPosts events = [].
Proof.
  induction 1 as [|event events Hevent _ IH]; [reflexivity|].
  unfold webhookPosts in *. cbn [flat_map]. rewrite IH.
  destruct event as [[]| | |]; try discriminate; reflexivity.
Qed.

Lemma sendFollowUp_events (P : Event -> Prop) (interaction : Interaction)
  (message : jsstring) (ephemeral : bool) :
  (forall chunk response,
      P (Fetch (webhookRequest interaction ephemeral chunk) response)) ->
  P (SetTimeout 250) ->
  emits P (sendFollowUp env interaction message ephemeral).
Proof.
  intros Hpost Hdelay. unfold sendFollowUp.
  apply emits_try_catch; [|intros; apply emits_ret].
  rewrite sendFollowUp_loop_postChunks. now apply emits_postChunks.
Qed.

Lemma sendBatchResults_events (P : Event -> Prop) (interaction : Interaction)
  (results : list SynopsisResult) :
  (forall chunk response,
      P (Fetch (webhookRequest interaction false chunk) response)) ->
  P (SetTimeout 250) -> P (SetTimeout 500) ->
  emits P (sendBatchResults env interaction results).
Proof.
  intros Hpost Hdelay Hdelay'.
  induction results as [|result rest IH]; cbn [sendBatchResults].
  - apply emits_ret.
  - apply emits_bind.
    + rewrite sendBatchResults_chunks_postChunks. now apply emits_postChunks.
    + intros _. apply emits_bind; [now apply emits_pace|trivial].
Qed.


(** When the webhook accepts every post, the channel path posts the
    notice and then every chunk of every result, in order. *)
Lemma deliverToChannel_accepted (interaction : Interaction)
  (titles : list jsstring) (history : list Event) :
  webhookAccepts env ->
  exists results,
    GeneratedInOrder env
      (history
       ++ snd (sendFollowUp env interaction (processingNotice titles) false
                 history))
      titles results
    /\ fst (deliverToChannel env interaction titles history) = Return tt
    /\ webhookPosts (snd (deliverToChannel env interaction titles history))
       = splitContent (processingNotice titles)
         ++ concat (map (fun result => splitContent (content result)) results).
Proof.
  intros Hacc. unfold deliverToChannel.
  pose proof (sendFollowUp_returns env interaction (processingNotice titles)
                false history) as Hnotice.
  pose proof (sendFollowUp_accepted env interaction (processingNotice titles)
                false history Hacc) as Hposts.
  destruct (sendFollowUp env interaction (processingNotice titles) false
              history) as [c events1] eqn:Hrun1.
  cbn [fst snd] in Hnotice, Hposts. subst c.
  destruct (generateBatchSynopses_spec env titles (history ++ events1))
    as (results & events2 & Hrun2 & Hgen).
  pose proof (generateBatchSynopses_events titles (history ++ events1))
    as Hcalls.
  rewrite Hrun2 in Hcalls. cbn [snd] in Hcalls.
  destruct (sendBatchResults_accepted env interaction results Hacc
              ((history ++ events1) ++ events2)) as [Hret3 Hposts3].
  exists results. split; [exact Hgen|].
  erewrite bind_Return by exact Hrun1.
  erewrite bind_Return by exact Hrun2.
  cbn [fst snd]. split; [exact Hret3|].
  rewrite !webhookPosts_app, Hposts, Hposts3.
  now rewrite (webhookPosts_providerCalls _ Hcalls).
Qed.

End PipelineFacts.

(** The two shapes of a deferred batch invocation. *)
Lemma batchInput_cases (interaction : Interaction) (raw : jsstring) :
  batchInput interaction = Some raw ->
  (N.eqb (data_type interaction) ApplicationCommandType_Message = true
   /\ JS.eqb (data_name interaction) (str "Generate Synopses") = true
   /\ getMessageCommandContent interaction = Some raw)
  \/ (N.eqb (data_type interaction) ApplicationCommandType_Message = false
      /\ JS.eqb (data_name interaction) (str "synopsis-batch") = true
      /\ stringOption (findOption (str "titles") (data_options interaction))
         = raw).
Proof.
  unfold batchInput.
  destruct (N.eqb (data_type interaction) ApplicationCommandType_Message).
  - destruct (JS.eqb (data_name interaction) (str "Generate Synopses"));
      [|discriminate].
    intros H. left. now repeat split.
  - destruct (JS.eqb (data_name interaction) (str "synopsis-batch"));
      [|discriminate].
    intros [= H]. right. now repeat split.
Qed.


(* ================================================================== *)
(** ** Facts about the simple parse *)
(* ================================================================== *)

Section ParseFacts.

Lemma includes_In (s : jsstring) (c : N) : includes s c = true <-> In c s.
Proof.
  unfold includes. rewrite existsb_exists. split.
  - intros (x & Hx & Heq). apply N.eqb_eq in Heq. now subst.
  - intros H. exists c. split; [exact H|apply N.eqb_refl].
Qed.

Lemma split_without_separator (sep : N) (s : jsstring) :
  ~ In sep s -> split sep s = [s].
Proof.
  induction s as [|c s IH]; intros Hnot; [reflexivity|].
  cbn [split]. destruct (N.eqb_spec c sep) as [->|_].
  - exfalso. apply Hnot. now left.
  - rewrite IH; [reflexivity|]. intros Hin. apply Hnot. now right.
Qed.

Lemma split_at_separator (sep : N) (a b : jsstring) :
  ~ In sep a -> split sep (a ++ sep :: b) = a :: split sep b.
Proof.
  induction a as [|c a IH]; intros Hnot; cbn [app split].
  - now rewrite N.eqb_refl.
  - destruct (N.eqb_spec c sep) as [->|_].
    + exfalso. apply Hnot. now left.
    + rewrite IH; [reflexivity|]. intros Hin. apply Hnot. now right.
Qed.

Lemma trim_leading_space (t : jsstring) : trim (SPACE :: t) = trim t.
Proof. reflexivity. Qed.

(** The pieces of a comma-joined list of titles without commas: the
    titles, each but the first behind the space of the separator. *)
Lemma split_join_titles (t : jsstring) (titles : list jsstring) :
  Forall (fun t => ~ In COMMA t) (t :: titles) ->
  split COMMA (join (str ", ") (t :: titles)) = t :: map (cons SPACE) titles.
Proof.
  revert t. induction titles as [|t' titles IH]; intros t Hclean.
  - cbn [join map]. apply split_without_separator.
    now inversion Hclean.
  - inversion Hclean as [|? ? Ht Hrest]; subst.
    change (join (str ", ") (t :: t' :: titles))
      with (t ++ COMMA :: SPACE :: join (str ", ") (t' :: titles)).
    rewrite split_at_separator by exact Ht.
    f_equal.
    assert (Hjoin : split COMMA (SPACE :: join (str ", ") (t' :: titles))
                    = (SPACE :: t') :: map (cons SPACE) titles).
    { cbn [split]. change (N.eqb SPACE COMMA) with false. cbv iota.
      now rewrite (IH t' Hrest). }
    exact Hjoin.
Qed.





Lemma nonEmpty_true (t : jsstring) : t <> [] -> nonEmpty t = true.
Proof. destruct t; [congruence|reflexivity]. Qed.

Lemma filter_map_trim_clean (titles : list jsstring) :
  Forall cleanTitle titles ->
  filter nonEmpty (map trim (map (cons SPACE) titles)) = titles.
Proof.
  induction 1 as [|t titles (Hne & Htrim & _) _ IH]; [reflexivity|].
  cbn [map filter]. rewrite trim_leading_space, Htrim, (nonEmpty_true t Hne).
  now rewrite IH.
Qed.

Lemma simpleParseTitle_trimmed (input : jsstring) :
  Forall (fun t => trim t = t) (simpleParseTitle input).
Proof.
  assert (Hlist : forall pieces,
             Forall (fun t => trim t = t) (filter nonEmpty (map trim pieces))).
  { intros pieces. rewrite Forall_forall. intros t Ht.
    apply filter_In in Ht. destruct Ht as [Ht _].
    apply in_map_iff in Ht. destruct Ht as (p & <- & _).
    apply trim_idempotent. }
  unfold simpleParseTitle.
  destruct (includes input COMMA); [apply Hlist|].
  destruct (includes input LF); [apply Hlist|].
  constructor; [apply trim_idempotent|constructor].
Qed.

Lemma simpleParseTitle_nonempty_pieces (input : jsstring) :
  includes input COMMA = true \/ includes input LF = true ->
  Forall (fun t => t <> []) (simpleParseTitle input).
Proof.
  assert (Hlist : forall pieces,
             Forall (fun t => t <> []) (filter nonEmpty pieces)).
  { intros pieces. rewrite Forall_forall. intros t Ht.
    apply filter_In in Ht. destruct Ht as [_ Ht].
    destruct t; [discriminate|discriminate]. }
  unfold simpleParseTitle. intros [H|H].
  - rewrite H. apply Hlist.
  - destruct (includes input COMMA); [apply Hlist|]. rewrite H. apply Hlist.
Qed.

Lemma canonical_letter_is_word (c letter : N) :
  (65 <= letter <= 90)%N ->
  Regex.canonicalize c = letter -> Regex.isWordChar c = true.
Proof.
  unfold Regex.canonicalize, Regex.isWordChar. intros Hletter.
  destruct (N.leb_spec 97 c), (N.leb_spec c 122); cbn [andb orb]; intros Heq.
  - now rewrite orb_true_r.
  - subst letter.
    destruct (N.leb_spec 65 c), (N.leb_spec c 90); cbn [andb orb];
      try reflexivity; lia.
  - subst letter.
    destruct (N.leb_spec 65 c), (N.leb_spec c 90); cbn [andb orb];
      try reflexivity; lia.
  - subst letter.
    destruct (N.leb_spec 65 c), (N.leb_spec c 90); cbn [andb orb];
      try reflexivity; lia.
Qed.

Lemma standalone_or (spelling a b : jsstring) :
  map Regex.canonicalize spelling = map Regex.canonicalize (str "or") ->
  HasStandaloneWord RE_OR (a ++ SPACE :: spelling ++ SPACE :: b).
Proof.
  intros Hspelling.
  destruct spelling as [|o [|r [|]]]; try discriminate Hspelling.
  injection Hspelling as Ho Hr.
  exists (str "or"), (a ++ [SPACE]), [o; r], (SPACE :: b).
  split; [now left|].
  split; [now rewrite <- app_assoc|].
  split; [cbn [map]; now rewrite Ho, Hr|].
  rewrite lastUnit_snoc.
  change ((a ++ [SPACE]) ++ [o; r]) with ((a ++ [SPACE]) ++ o :: [r]).
  rewrite lastUnit_app_cons.
  assert (Hwo : Regex.isWordChar o = true).
  { apply (canonical_letter_is_word o 79); [lia|exact Ho]. }
  assert (Hwr : Regex.isWordChar r = true).
  { apply (canonical_letter_is_word r 82); [lia|exact Hr]. }
  split.
  - cbn [app hd_error]. unfold Regex.wordBoundary. cbn [Regex.isWordCharAt].
    now rewrite Hwo.
  - change (lastUnit [o; r]) with (Some r).
    unfold Regex.wordBoundary. cbn [Regex.isWordCharAt hd_error].
    now rewrite Hwr.
Qed.

End ParseFacts.

(* ================================================================== *)
(** ** Facts about the requests of a delivery *)
(* ================================================================== *)

Section MoreDeliveryFacts.

Variable env : Env.

(** The posting loop sends a prefix of the chunks, and at least the
    first one. *)
Lemma postChunks_prefix (request : jsstring -> HttpRequest)
  (chunks : list jsstring) :
  forall history,
  exists n,
    n <= length chunks
    /\ (chunks <> [] -> 1 <= n)
    /\ requests (snd (postChunks env request chunks history))
       = map request (firstn n chunks).
Proof.
  induction chunks as [|chunk rest IH]; intros history.
  - exists 0. repeat split; [lia|congruence].
  - rewrite postChunks_cons. cbv zeta.
    destruct (fetch env history (request chunk)) as [response|thrown].
    + destruct (ok response).
      * rewrite pace_then.
        destruct rest as [|chunk' rest'].
        -- exists 1. cbn [length]. repeat split; lia.
        -- destruct (IH ((history ++ [Fetch (request chunk) (Return response)])
                           ++ [SetTimeout 250])) as (n & Hn & _ & Hreq).
           exists (S n). cbn [length] in *. split; [lia|]. split; [lia|].
           cbn [snd]. unfold requests in *. cbn [flat_map app firstn map].
           now rewrite Hreq.
      * exists 1. cbn [length]. repeat split; lia.
    + exists 1. cbn [length]. repeat split; lia.
Qed.




Lemma sendToThread_without_token (threadId message : jsstring)
  (history : list Event) :
  botTokenMissing env = true ->
  sendToThread env threadId message history = (Return tt, []).
Proof. intros Htoken. unfold sendToThread. now rewrite Htoken. Qed.

Lemma sendBatchToThread_without_token (threadId : jsstring)
  (results : list SynopsisResult) :
  botTokenMissing env = true ->
  forall history,
    sendBatchToThread env threadId results history
    = (Return tt, repeat (SetTimeout 500) (length results - 1)).
Proof.
  intros Htoken.
  induction results as [|result rest IH]; intros history; [reflexivity|].
  cbn [sendBatchToThread].
  erewrite bind_Return by (apply sendToThread_without_token; exact Htoken).
  cbn [fst snd app]. rewrite pace_then.
  destruct rest as [|result' rest']; [reflexivity|].
  rewrite IH. cbn [fst snd length].
  rewrite !Nat.sub_succ, !Nat.sub_0_r. reflexivity.
Qed.

End MoreDeliveryFacts.

(* ================================================================== *)
(** ** The claims *)
(* ================================================================== *)

(** C1.  For every list of titles, [generateBatchSynopses] returns
    normally with one result per title, in the order of the titles,
    whichever generations fail: each result is made from its title and
    from the completion of that title's generation, a failed generation
    giving the artifact marked with the cross mark and [Error:], with
    the error flag set. *)
Theorem generateBatchSynopses_one_result_per_title :
  forall (env : Env) (titles : list jsstring) (history : list Event),
  exists results events,
    generateBatchSynopses env titles history = (Return results, events)
    /\ length results = length titles
    /\ map title results = titles
    /\ GeneratedInOrder env history titles results
    /\ (forall bookTitle thrown,
          resultOf bookTitle (Throw thrown)
          = {| title := bookTitle;
               content := heading bookTitle ++ CROSS_MARK ++ str " Error: "
                          ++ errorMessage thrown;
               error := Some true |}).
Proof.
  intros env titles history.
  destruct (generateBatchSynopses_spec env titles history)
    as (results & events & Hrun & Hgen).
  exists results, events.
  pose proof (GeneratedInOrder_titles env _ _ _ Hgen) as Htitles.
  repeat split; trivial.
  rewrite <- Htitles. now rewrite length_map.
Qed.

(** C2, as the claim states it, fails: when the simple parse is
    rejected and the provider's call fails, [parseTitles] throws. *)
Lemma parseTitles_provider_failure_propagates :
  isValidSimpleParse (simpleParseTitle Examples.conversational) = false
  /\ parseTitles Examples.rejectingEnv Examples.conversational []
     = (Throw (ErrorObject (str "Claude API error: 529 overloaded")),
        [ClaudeMessagesCreate (ExtractTitles Examples.conversational)
           (Throw (ErrorObject (str "529 overloaded")))])
  /\ ~ (forall env input history,
          exists titles, fst (parseTitles env input history) = Return titles).
Proof.
  assert (Hrun : parseTitles Examples.rejectingEnv Examples.conversational []
     = (Throw (ErrorObject (str "Claude API error: 529 overloaded")),
        [ClaudeMessagesCreate (ExtractTitles Examples.conversational)
           (Throw (ErrorObject (str "529 overloaded")))])).
  { vm_compute. reflexivity. }
  split; [vm_compute; reflexivity|]. split; [exact Hrun|].
  intros H.
  destruct (H Examples.rejectingEnv Examples.conversational []) as (titles & Ht).
  rewrite Hrun in Ht. discriminate.
Qed.

(** C2, amended.  [parseTitles] returns the simple parse, with no
    provider call, when it passes validation.  Otherwise it hands the
    text to the current provider: a missing provider, a failed call and
    a response without text are thrown to the caller, a response without
    a bracketed array gives the empty list, and a bracketed array that
    parses gives its titles. *)
Theorem parseTitles_outcomes :
  forall (env : Env) (input : jsstring) (history : list Event),
    let outcome := parseTitles env input history in
    (isValidSimpleParse (simpleParseTitle input) = true ->
     outcome = (Return (simpleParseTitle input), []))
    /\ (isValidSimpleParse (simpleParseTitle input) = false ->
        (forall thrown,
            getProvider env None = Throw thrown ->
            outcome = (Throw thrown, []))
        /\ (forall provider,
              getProvider env None = Return provider ->
              provider = GeminiProvider env \/ provider = ClaudeProvider env)
        /\ (getProvider env None = Return (ClaudeProvider env) ->
            let reply :=
              claude_messages_create env history (ExtractTitles input) in
            snd outcome = [ClaudeMessagesCreate (ExtractTitles input) reply]
            /\ (forall thrown,
                  reply = Throw thrown ->
                  fst outcome
                  = Throw (ErrorObject
                             (str "Claude API error: " ++ errorMessage thrown)))
            /\ (reply = Return None ->
                fst outcome
                = Throw (ErrorObject
                           (str "Claude API error: "
                            ++ str "No text content in Claude response")))
            /\ (forall responseText,
                  reply = Return (Some responseText) ->
                  matchJsonArray responseText = None ->
                  fst outcome = Return [])
            /\ (forall responseText jsonMatch titles,
                  reply = Return (Some responseText) ->
                  matchJsonArray responseText = Some jsonMatch ->
                  JSON_parse env jsonMatch = Return titles ->
                  fst outcome = Return titles))
        /\ (getProvider env None = Return (GeminiProvider env) ->
            let reply :=
              gemini_generateContent env history (ExtractTitles input) in
            snd outcome = [GeminiGenerateContent (ExtractTitles input) reply]
            /\ (forall thrown,
                  reply = Throw thrown ->
                  fst outcome
                  = Throw (ErrorObject
                             (str "Gemini API error: " ++ errorMessage thrown)))
            /\ (forall responseText,
                  reply = Return responseText ->
                  matchJsonArray responseText = None ->
                  fst outcome = Return [])
            /\ (forall responseText jsonMatch titles,
                  reply = Return responseText ->
                  matchJsonArray responseText = Some jsonMatch ->
                  JSON_parse env jsonMatch = Return titles ->
                  fst outcome = Return titles))).
Proof.
  intros env input history outcome. subst outcome. split.
  - apply parseTitles_simple.
  - intros Hinvalid. rewrite (parseTitles_fallback _ _ _ Hinvalid).
    split; [|split; [|split]].
    + intros thrown ->. reflexivity.
    + intros provider. apply getProvider_cases.
    + intros -> reply. rewrite bind_await_Return.
      cbn [extractTitles ClaudeProvider].
      rewrite ClaudeProvider_extractTitles_run. fold reply. cbn [fst snd].
      split; [reflexivity|]. split; [|split; [|split]].
      * now intros thrown ->.
      * now intros ->.
      * now intros responseText -> ->.
      * now intros responseText jsonMatch titles -> -> ->.
    + intros -> reply. rewrite bind_await_Return.
      cbn [extractTitles GeminiProvider].
      rewrite GeminiProvider_extractTitles_run. fold reply. cbn [fst snd].
      split; [reflexivity|]. split; [|split].
      * now intros thrown ->.
      * now intros responseText -> ->.
      * now intros responseText jsonMatch titles -> -> ->.
Qed.

Lemma parseTitles_outcomes_witness :
  isValidSimpleParse (simpleParseTitle Examples.conversational) = false
  /\ getProvider Examples.env None = Return (GeminiProvider Examples.env)
  /\ matchJsonArray (str "no titles here") = None
  /\ fst (parseTitles Examples.env Examples.conversational []) = Return [].
Proof.
  assert (Hinvalid :
    isValidSimpleParse (simpleParseTitle Examples.conversational) = false)
    by reflexivity.
  assert (Hprovider :
    getProvider Examples.env None = Return (GeminiProvider Examples.env))
    by reflexivity.
  assert (Hmatch : matchJsonArray (str "no titles here") = None)
    by reflexivity.
  split; [exact Hinvalid|]. split; [exact Hprovider|].
  split; [exact Hmatch|].
  pose proof (parseTitles_outcomes Examples.env Examples.conversational [])
    as [_ H].
  destruct (H Hinvalid) as (_ & _ & _ & Hgemini).
  destruct (Hgemini Hprovider) as (_ & _ & Hnone & _).
  apply (Hnone (str "no titles here")); [reflexivity|exact Hmatch].
Defined.

(** C3.  Every chunk [splitContent] returns is at most [maxLength] long:
    for any number of iterations after which the call has returned (and
    then [length content] iterations are enough), for every positive
    [maxLength] (where the call always returns), and for the default
    limit of 1900. *)
Theorem splitContent_chunks_within_maxLength :
  forall (content : jsstring) (maxLength : nat),
    (forall fuel chunks,
        splitContent_fuel fuel content maxLength = Some chunks ->
        Forall (fun chunk => length chunk <= maxLength) chunks
        /\ splitContent_opt content maxLength = Some chunks)
    /\ (1 <= maxLength ->
        exists chunks,
          splitContent_opt content maxLength = Some chunks
          /\ Forall (fun chunk => length chunk <= maxLength) chunks)
    /\ splitContent_opt content DEFAULT_MAX_LENGTH
       = Some (splitContent content)
    /\ Forall (fun chunk => length chunk <= DEFAULT_MAX_LENGTH)
         (splitContent content).
Proof.
  intros content maxLength. split; [|split; [|split]].
  - intros fuel chunks Hrun. split.
    + exact (splitContent_fuel_bounded _ _ _ _ Hrun).
    + exact (splitContent_fuel_adequate _ _ _ _ Hrun).
  - intros Hpos.
    destruct (splitContent_opt_total content maxLength Hpos) as (chunks & H).
    exists chunks. split; trivial.
    exact (splitContent_fuel_bounded _ _ _ _ H).
  - apply splitContent_opt_default.
  - exact (splitContent_fuel_bounded _ _ _ _ (splitContent_opt_default content)).
Qed.

Lemma splitContent_chunks_within_maxLength_witness :
  1 <= 4
  /\ exists chunks,
       splitContent_opt (str "a   bcdef") 4 = Some chunks
       /\ Forall (fun chunk => length chunk <= 4) chunks.
Proof.
  split; [lia|].
  apply (proj1 (proj2 (splitContent_chunks_within_maxLength
                         (str "a   bcdef") 4))).
  lia.
Defined.

(** C4.  The chunks of [splitContent] reassemble the text: the text is
    the chunks in order with runs of white space before, between and
    after them, so the concatenation of the chunks is the text without
    those runs and keeps every unit that is not white space. *)
Theorem splitContent_reassembles_content :
  forall (content : jsstring),
    Reassembles content (splitContent content)
    /\ filter notWhiteSpace (concat (splitContent content))
       = filter notWhiteSpace content
    /\ (forall maxLength fuel chunks,
          splitContent_fuel fuel content maxLength = Some chunks ->
          Reassembles content chunks
          /\ filter notWhiteSpace (concat chunks)
             = filter notWhiteSpace content).
Proof.
  intros content.
  pose proof (splitContent_fuel_reassembles _ _ _ _
                (splitContent_opt_default content)) as H.
  split; [exact H|]. split; [now apply Reassembles_filter|].
  intros maxLength fuel chunks Hrun.
  apply splitContent_fuel_reassembles in Hrun.
  split; [exact Hrun|now apply Reassembles_filter].
Qed.

Lemma splitContent_reassembles_content_witness :
  splitContent_fuel 9 (str "a   bcdef") 4
  = Some [str "a"; str "bcde"; str "f"]
  /\ Reassembles (str "a   bcdef") [str "a"; str "bcde"; str "f"].
Proof.
  assert (Hrun : splitContent_fuel 9 (str "a   bcdef") 4
                 = Some [str "a"; str "bcde"; str "f"]) by reflexivity.
  split; [exact Hrun|].
  exact (proj1 (proj2 (proj2 (splitContent_reassembles_content
                                (str "a   bcdef"))) 4 9 _ Hrun)).
Defined.

(** C5, as the claim states it, fails: a chunk that is not the last one
    can be shorter than half the limit, because it is trimmed after the
    split point is chosen. *)
Lemma splitContent_short_chunk_before_last :
  DEFAULT_MAX_LENGTH < length Examples.sparse
  /\ splitContent Examples.sparse = [str "a"; str "bbbbbbbbbb"]
  /\ ~ (forall content,
          DEFAULT_MAX_LENGTH < length content ->
          Forall (fun chunk => DEFAULT_MAX_LENGTH <= 2 * length chunk)
            (removelast (splitContent content))).
Proof.
  assert (Hlen : DEFAULT_MAX_LENGTH < length Examples.sparse).
  { apply Nat.ltb_lt. vm_compute. reflexivity. }
  assert (Hsplit : splitContent Examples.sparse = [str "a"; str "bbbbbbbbbb"]).
  { vm_compute. reflexivity. }
  split; [exact Hlen|]. split; [exact Hsplit|].
  intros H. specialize (H Examples.sparse Hlen).
  rewrite Hsplit in H. cbn [removelast] in H.
  inversion H as [|? ? Hshort _]; subst.
  apply Nat.leb_le in Hshort. vm_compute in Hshort. discriminate.
Qed.

(** C5, amended.  The split point of an iteration follows the order
    paragraph break, line break, space, hard cut, taking the last
    occurrence that the midpoint guard accepts; it is at least half of
    [maxLength] and at most [maxLength]; the chunk pushed is the trimmed
    prefix up to it. *)
Theorem findSplitIndex_order_and_midpoint_guard :
  forall (remaining : jsstring) (maxLength : nat),
    let splitIndex := findSplitIndex remaining maxLength in
    SplitChoice remaining maxLength splitIndex
    /\ maxLength <= 2 * splitIndex
    /\ splitIndex <= maxLength
    /\ (forall fuel,
          maxLength < length remaining ->
          splitLoop (S fuel) maxLength remaining
          = option_map (cons (trim (substring_to remaining splitIndex)))
              (splitLoop fuel maxLength
                 (trim (substring_from remaining splitIndex)))).
Proof.
  intros remaining maxLength splitIndex. subst splitIndex.
  split; [apply findSplitIndex_choice|].
  split; [apply findSplitIndex_bounds|].
  split; [apply findSplitIndex_bounds|].
  intros fuel Hlen. now apply splitLoop_unfold.
Qed.




(** C7.  When the resolved list of a deferred batch invocation has more
    than ten titles, the continuation completes after posting one
    follow-up, the "Too many books" diagnostic, and the invocation makes
    no generation call: its events are those of the resolver, among
    which there is none, followed by that one post.  When the list came
    from the simple parse, as for comma-separated titles, the invocation
    calls no provider at all. *)
Theorem too_many_books_ends_after_resolving :
  forall (env : Env) (interaction : Interaction) (raw : jsstring)
         (history : list Event) (titles : list jsstring)
         (events : list Event),
    batchInput interaction = Some raw ->
    parseTitles env raw history = (Return titles, events) ->
    MAX_BATCH < length titles ->
    (N.of_nat (length titles) < 2 ^ 32)%N ->
    let diagnostic :=
      webhookRequest interaction false (tooManyBooks (length titles)) in
    processDeferred env interaction history
    = (Return tt,
       events ++ [Fetch diagnostic (fetch env (history ++ events) diagnostic)])
    /\ Forall (fun event => isGenerationCall event = false)
         (snd (processDeferred env interaction history))
    /\ (isValidSimpleParse (simpleParseTitle raw) = true ->
        Forall (fun event => isProviderCall event = false)
          (snd (processDeferred env interaction history))).
Proof.
  intros env interaction raw history titles events Hbatch Hparse Hmany Harray
         diagnostic.
  assert (Hzero : (length titles =? 0) = false) by (apply Nat.eqb_neq; lia).
  assert (Hover : (MAX_BATCH <? length titles) = true)
    by now apply Nat.ltb_lt.
  assert (Hrun : processDeferred env interaction history
    = (Return tt,
       events ++ [Fetch diagnostic (fetch env (history ++ events) diagnostic)])).
  { unfold processDeferred.
    destruct (batchInput_cases _ _ Hbatch)
      as [(Htype & Hname & Hraw)|(Htype & Hname & Hraw)]; rewrite Htype.
    - unfold processMessageCommand. rewrite Hname, Hraw.
      erewrite try_catch_bind_Return by exact Hparse.
      rewrite Hzero, Hover.
      pose proof (reportError_returns env interaction
        (sendFollowUp env interaction (tooManyBooks (length titles)) false)
        (history ++ events)) as Hret.
      rewrite Hret. f_equal. f_equal.
      rewrite snd_try_catch.
      rewrite sendFollowUp_single by now apply tooManyBooks_fits.
      reflexivity.
    - rewrite Hname. unfold processSynopsisBatch. rewrite Hraw.
      erewrite try_catch_bind_Return by exact Hparse.
      rewrite Hzero, Hover.
      pose proof (reportError_returns env interaction
        (sendFollowUp env interaction (tooManyBooks (length titles)) false)
        (history ++ events)) as Hret.
      rewrite Hret. f_equal. f_equal.
      rewrite snd_try_catch.
      rewrite sendFollowUp_single by now apply tooManyBooks_fits.
      reflexivity. }
  split; [exact Hrun|].
  rewrite Hrun. cbn [snd]. split.
  - apply Forall_app. split.
    + pose proof (parseTitles_events env raw history) as H.
      now rewrite Hparse in H.
    + repeat constructor.
  - intros Hsimple.
    rewrite (parseTitles_simple env raw history Hsimple) in Hparse.
    injection Hparse as _ <-. repeat constructor.
Qed.

Lemma too_many_books_ends_after_resolving_witness :
  batchInput (Examples.synopsisBatch Examples.elevenTitles false)
  = Some Examples.elevenTitles
  /\ MAX_BATCH < length (simpleParseTitle Examples.elevenTitles)
  /\ webhookPosts
       (snd (processDeferred Examples.env
               (Examples.synopsisBatch Examples.elevenTitles false) []))
     = [tooManyBooks 11].
Proof.
  assert (Hbatch :
    batchInput (Examples.synopsisBatch Examples.elevenTitles false)
    = Some Examples.elevenTitles) by reflexivity.
  assert (Hparse :
    parseTitles Examples.env Examples.elevenTitles []
    = (Return (simpleParseTitle Examples.elevenTitles), [])) by reflexivity.
  assert (Hmany :
    MAX_BATCH < length (simpleParseTitle Examples.elevenTitles)).
  { apply Nat.ltb_lt. reflexivity. }
  assert (Harray :
    (N.of_nat (length (simpleParseTitle Examples.elevenTitles)) < 2 ^ 32)%N)
    by reflexivity.
  split; [exact Hbatch|]. split; [exact Hmany|].
  rewrite (proj1 (too_many_books_ends_after_resolving Examples.env
                    (Examples.synopsisBatch Examples.elevenTitles false)
                    Examples.elevenTitles []
                    (simpleParseTitle Examples.elevenTitles) []
                    Hbatch Hparse Hmany Harray)).
  reflexivity.
Defined.






(** C10.  An input with neither a comma nor a newline parses to the one
    title [input.trim()]; when the input is empty or only white space,
    that title is the empty string, it passes validation, and
    [parseTitles] returns the list holding the empty string without any
    provider call. *)
Theorem input_without_separator_is_one_title :
  forall (env : Env) (input : jsstring) (history : list Event),
    includes input COMMA = false ->
    includes input LF = false ->
    simpleParseTitle input = [trim input]
    /\ (allWhiteSpace input ->
        trim input = []
        /\ isValidSimpleParse (simpleParseTitle input) = true
        /\ parseTitles env input history = (Return [[]], [])).
Proof.
  intros env input history Hcomma Hnewline.
  assert (Hparse : simpleParseTitle input = [trim input]).
  { unfold simpleParseTitle. now rewrite Hcomma, Hnewline. }
  split; [exact Hparse|].
  intros Hws. pose proof (trim_allWhiteSpace input Hws) as Htrim.
  rewrite Htrim in Hparse.
  split; [exact Htrim|].
  rewrite parseTitles_simple; rewrite Hparse; split; reflexivity.
Qed.

Lemma input_without_separator_is_one_title_witness :
  includes (str "   ") COMMA = false
  /\ includes (str "   ") LF = false
  /\ allWhiteSpace (str "   ")
  /\ parseTitles Examples.env (str "   ") [] = (Return [[]], []).
Proof.
  assert (Hws : allWhiteSpace (str "   ")).
  { repeat constructor. }
  split; [reflexivity|]. split; [reflexivity|]. split; [exact Hws|].
  apply (input_without_separator_is_one_title Examples.env (str "   ") []);
    trivial; reflexivity.
Defined.

(* ================================================================== *)
(** ** Further facts about [splitContent] *)
(* ================================================================== *)

Section MoreSplitFacts.

Lemma trim_fixed_of_clean (s : jsstring) :
  Forall (fun c => isWhiteSpace c = false) s -> trim s = s.
Proof.
  intros Hs.
  assert (Hstart : forall t, Forall (fun c => isWhiteSpace c = false) t ->
                             trimStart t = t).
  { intros [|c t] Ht; [reflexivity|]. inversion Ht as [|? ? Hc _]; subst.
    simpl. now rewrite Hc. }
  unfold trim, trimEnd. rewrite (Hstart s Hs), Hstart.
  - apply rev_involutive.
  - now apply Forall_rev.
Qed.

Lemma trim_nil : trim [] = [].
Proof. reflexivity. Qed.

Lemma Forall_firstn {A} (P : A -> Prop) (k : nat) (l : list A) :
  Forall P l -> Forall P (firstn k l).
Proof.
  rewrite !Forall_forall. intros H x Hx. apply H.
  rewrite <- (firstn_skipn k l). apply in_or_app. now left.
Qed.

Lemma Forall_skipn {A} (P : A -> Prop) (k : nat) (l : list A) :
  Forall P l -> Forall P (skipn k l).
Proof.
  rewrite !Forall_forall. intros H x Hx. apply H.
  rewrite <- (firstn_skipn k l). apply in_or_app. now right.
Qed.

Lemma allWhiteSpace_firstn (k : nat) (s : jsstring) :
  allWhiteSpace s -> allWhiteSpace (firstn k s).
Proof. apply Forall_firstn. Qed.

Lemma allWhiteSpace_skipn (k : nat) (s : jsstring) :
  allWhiteSpace s -> allWhiteSpace (skipn k s).
Proof. apply Forall_skipn. Qed.

(** The chunks pushed by the loop are trimmed, as soon as the remainder
    it starts from is longer than the limit or already trimmed. *)
Lemma splitLoop_trimmed (fuel maxLength : nat) (remaining : jsstring)
  (chunks : list jsstring) :
  splitLoop fuel maxLength remaining = Some chunks ->
  maxLength < length remaining \/ trim remaining = remaining ->
  Forall (fun chunk => trim chunk = chunk) chunks.
Proof.
  revert fuel remaining chunks.
  apply (splitLoop_ind maxLength
           (fun remaining chunks =>
              maxLength < length remaining \/ trim remaining = remaining ->
              Forall (fun chunk => trim chunk = chunk) chunks)).
  - constructor.
  - intros remaining Hlen [Hlong|Htrim]; [lia|].
    constructor; [exact Htrim|constructor].
  - intros remaining chunks Hlen k IH _. constructor.
    + apply trim_idempotent.
    + apply IH. right. apply trim_idempotent.
Qed.

(** Each iteration consumes at least half of [maxLength]. *)
Lemma splitLoop_count (fuel maxLength : nat) (remaining : jsstring)
  (chunks : list jsstring) :
  splitLoop fuel maxLength remaining = Some chunks ->
  maxLength * length chunks <= 2 * length remaining + maxLength.
Proof.
  revert fuel remaining chunks.
  apply (splitLoop_ind maxLength
           (fun remaining chunks =>
              maxLength * length chunks <= 2 * length remaining + maxLength)).
  - intros remaining _. cbn [length]. lia.
  - intros remaining _. cbn [length]. lia.
  - intros remaining chunks Hlen k IH. cbn [length].
    pose proof (findSplitIndex_bounds remaining maxLength) as [Hmid Hmax].
    fold k in Hmid, Hmax.
    pose proof (trim_length (substring_from remaining k)) as Ht.
    unfold substring_from in *. rewrite length_skipn in Ht.
    rewrite Nat.mul_succ_r. lia.
Qed.

Lemma no_occurrence_without_unit (c : N) (search s : jsstring) (k : nat) :
  ~ In c s -> In c search -> ~ occursAt search s k.
Proof.
  intros Hnot Hin [_ Hocc].
  assert (Hsub : forall p t, startsWith p t = true -> In c p -> In c t).
  { induction p as [|x p IH]; intros [|y t] Hp Hc; simpl in *;
      try contradiction; try discriminate.
    apply andb_prop in Hp. destruct Hp as [Hxy Hp].
    apply N.eqb_eq in Hxy. subst y.
    destruct Hc as [->|Hc]; [now left|right; now apply IH]. }
  apply Hnot. apply (Hsub _ _ Hocc) in Hin.
  rewrite <- (firstn_skipn k s). apply in_or_app. now right.
Qed.

Lemma lastIndexOf_without_unit (c : N) (search s : jsstring) (position : nat) :
  ~ In c s -> In c search -> lastIndexOf s search position = None.
Proof.
  intros Hnot Hin.
  destruct (lastIndexOf s search position) as [i|] eqn:Hi; [|reflexivity].
  apply lastIndexOf_Some in Hi. destruct Hi as (Hocc & _).
  now apply (no_occurrence_without_unit c) in Hocc.
Qed.

(** Without a line feed and without a space the split is the hard cut. *)
Lemma findSplitIndex_hard_cut (remaining : jsstring) (maxLength : nat) :
  ~ In LF remaining -> ~ In SPACE remaining ->
  findSplitIndex remaining maxLength = maxLength.
Proof.
  intros Hlf Hsp. unfold findSplitIndex.
  rewrite (lastIndexOf_without_unit LF [LF; LF]) by (trivial; now left).
  cbn [rejected].
  rewrite (lastIndexOf_without_unit LF [LF]) by (trivial; now left).
  cbn [rejected].
  rewrite (lastIndexOf_without_unit SPACE [SPACE]) by (trivial; now left).
  reflexivity.
Qed.

Lemma splitLoop_hard_cuts (fuel maxLength : nat) (remaining : jsstring)
  (chunks : list jsstring) :
  splitLoop fuel maxLength remaining = Some chunks ->
  Forall (fun c => isWhiteSpace c = false) remaining ->
  concat chunks = remaining
  /\ Forall (fun chunk => length chunk = maxLength) (removelast chunks).
Proof.
  revert fuel remaining chunks.
  apply (splitLoop_ind maxLength
           (fun remaining chunks =>
              Forall (fun c => isWhiteSpace c = false) remaining ->
              concat chunks = remaining
              /\ Forall (fun chunk => length chunk = maxLength)
                   (removelast chunks))).
  - intros remaining Hlen _. destruct remaining; [|discriminate].
    split; [reflexivity|constructor].
  - intros remaining _ _. cbn [concat removelast]. rewrite app_nil_r.
    split; [reflexivity|constructor].
  - intros remaining chunks Hlen k IH Hclean.
    assert (Hk : k = maxLength).
    { apply findSplitIndex_hard_cut; intros Hin;
        rewrite Forall_forall in Hclean; apply Hclean in Hin; discriminate. }
    unfold substring_to, substring_from in *.
    rewrite (trim_fixed_of_clean (firstn k remaining))
      by now apply Forall_firstn.
    rewrite (trim_fixed_of_clean (skipn k remaining)) in IH
      by now apply Forall_skipn.
    destruct (IH (Forall_skipn _ _ _ Hclean)) as [Hconcat Hlast].
    split.
    + cbn [concat]. rewrite Hconcat. apply firstn_skipn.
    + destruct chunks as [|chunk chunks].
      * cbn [concat] in Hconcat.
        assert (length (skipn k remaining) = 0) by now rewrite <- Hconcat.
        rewrite length_skipn in *. lia.
      * cbn [removelast] in *. constructor; [|exact Hlast].
        rewrite length_firstn. lia.
Qed.

End MoreSplitFacts.


(* ================================================================== *)
(** ** Facts about the bracket match, the providers and the generation *)
(* ================================================================== *)

Lemma fromFirst_first (c : N) (before after : jsstring) :
  ~ In c before -> fromFirst c (before ++ c :: after) = Some (c :: after).
Proof.
  induction before as [|d before IH]; intros Hnot; cbn [app fromFirst].
  - now rewrite N.eqb_refl.
  - destruct (N.eqb_spec d c) as [->|_].
    + exfalso. apply Hnot. now left.
    + apply IH. intros Hin. apply Hnot. now right.
Qed.

Lemma throughLast_last (c : N) (before after : jsstring) :
  ~ In c after -> throughLast c (before ++ c :: after) = Some (before ++ [c]).
Proof.
  intros Hnot. unfold throughLast.
  rewrite rev_app_distr. cbn [rev]. rewrite <- app_assoc. cbn [app].
  rewrite fromFirst_first.
  - cbn [option_map rev]. now rewrite rev_involutive.
  - intros Hin. apply Hnot. now apply in_rev.
Qed.

Lemma matchJsonArray_span (a b c : jsstring) :
  ~ In 91%N a -> ~ In 93%N c ->
  matchJsonArray (a ++ [91%N] ++ b ++ [93%N] ++ c)
  = Some ([91%N] ++ b ++ [93%N]).
Proof.
  intros Ha Hc. unfold matchJsonArray. cbn [app].
  rewrite (fromFirst_first 91 a (b ++ 93%N :: c) Ha).
  now rewrite (throughLast_last 93 b c Hc).
Qed.

Lemma providers_get_has (key : jsstring)
  (entries : list (jsstring * LLMProvider)) :
  providers_has key entries = true
  <-> exists provider, providers_get key entries = Some provider.
Proof.
  unfold providers_has.
  induction entries as [|[k p] entries IH]; cbn [existsb providers_get fst].
  - split; [discriminate|]. now intros [? ?].
  - destruct (JS.eqb k key); cbn [orb]; [|exact IH].
    split; [|reflexivity]. intros _. now exists p.
Qed.

Lemma JS_eqb_eq (a b : jsstring) : JS.eqb a b = true <-> a = b.
Proof.
  revert b. induction a as [|c a IH]; intros [|d b]; cbn [JS.eqb];
    try (split; [discriminate|discriminate]);
    try (split; reflexivity).
  rewrite andb_true_iff, N.eqb_eq, IH.
  split; [intros [-> ->]; reflexivity|intros H; now inversion H].
Qed.

Lemma JS_eqb_refl (a : jsstring) : JS.eqb a a = true.
Proof. now apply JS_eqb_eq. Qed.

Lemma providers_has_available (env : Env) (providerName : jsstring) :
  providers_has providerName (providers env) = true
  <-> In providerName (getAvailableProviders env).
Proof.
  unfold providers_has, getAvailableProviders.
  rewrite existsb_exists, in_map_iff. split.
  - intros ([k p] & Hin & Heq). apply JS_eqb_eq in Heq. now exists (k, p).
  - intros ([k p] & Heq & Hin). exists (k, p).
    split; [exact Hin|]. now apply JS_eqb_eq.
Qed.

(** The entries of the map are the two providers under their names. *)
Lemma providers_get_name (env : Env) (key : jsstring) (provider : LLMProvider) :
  providers_get key (providers env) = Some provider -> name provider = key.
Proof.
  unfold providers.
  destruct (truthy (GEMINI_API_KEY env)), (truthy (ANTHROPIC_API_KEY env));
    cbn [app providers_get];
    repeat match goal with
    | |- context [JS.eqb ?k key] =>
        let H := fresh "H" in
        destruct (JS.eqb k key) eqn:H; [apply JS_eqb_eq in H|]
    end;
    intros Heq; inversion Heq; subst; reflexivity.
Qed.

Lemma getProvider_current (env : Env) :
  getProvider env None
  = match providers_get (currentProvider env) (providers env) with
    | Some provider => Return provider
    | None =>
        Throw (ErrorObject
          (str "Provider '" ++ currentProvider env
           ++ str "' not available. Available providers: "
           ++ join (str ", ") (getAvailableProviders env)))
    end.
Proof. reflexivity. Qed.

Lemma providers_withCurrentProvider (env : Env) (providerName : jsstring) :
  getAvailableProviders (withCurrentProvider env providerName)
  = getAvailableProviders env.
Proof.
  unfold getAvailableProviders, providers. cbn [GEMINI_API_KEY ANTHROPIC_API_KEY withCurrentProvider].
  destruct (truthy (GEMINI_API_KEY env)), (truthy (ANTHROPIC_API_KEY env));
    reflexivity.
Qed.


Section MoreGenerationFacts.

Variable env : Env.

Lemma generateBatchSynopses_unavailable (thrown : Thrown)
  (titles : list jsstring) :
  getProvider env None = Throw thrown ->
  forall history,
    generateBatchSynopses env titles history
    = (Return (map (fun bookTitle => errorResult bookTitle thrown) titles), []).
Proof.
  intros Hget. unfold generateBatchSynopses.
  induction titles as [|bookTitle titles IH]; intros history; [reflexivity|].
  cbn [Promise_all_map map].
  assert (Hone : generateOne env bookTitle history
                 = (Return (errorResult bookTitle thrown), [])).
  { rewrite generateOne_spec. unfold providerManager_generateSynopsis.
    now rewrite Hget, bind_await_Throw. }
  unfold bind at 1. rewrite Hone.
  unfold bind at 1. rewrite IH. reflexivity.
Qed.

Lemma providerRequests_app (events events' : list Event) :
  providerRequests (events ++ events')
  = providerRequests events ++ providerRequests events'.
Proof. apply flat_map_app. Qed.

Lemma generateOne_requests (bookTitle : jsstring) (provider : LLMProvider)
  (history : list Event) :
  getProvider env None = Return provider ->
  providerRequests (snd (generateOne env bookTitle history))
  = [(name provider, Generate bookTitle synopsis None)].
Proof.
  intros Hget. rewrite generateOne_spec. cbn [snd].
  unfold providerManager_generateSynopsis.
  rewrite Hget, bind_await_Return.
  destruct (getProvider_cases env None provider Hget) as [-> | ->].
  - cbn [generateSynopsis GeminiProvider name].
    now rewrite GeminiProvider_generate_events.
  - cbn [generateSynopsis ClaudeProvider name].
    now rewrite ClaudeProvider_generate_events.
Qed.

Lemma generateBatchSynopses_requests (provider : LLMProvider)
  (titles : list jsstring) :
  getProvider env None = Return provider ->
  forall history,
    providerRequests (snd (generateBatchSynopses env titles history))
    = map (fun bookTitle => (name provider, Generate bookTitle synopsis None))
        titles.
Proof.
  intros Hget. unfold generateBatchSynopses.
  induction titles as [|bookTitle titles IH]; intros history; [reflexivity|].
  cbn [Promise_all_map map].
  rewrite snd_bind, providerRequests_app.
  rewrite (generateOne_requests bookTitle provider history Hget).
  rewrite generateOne_spec. cbn [fst snd].
  rewrite snd_bind, providerRequests_app, IH.
  destruct (fst (Promise_all_map _ _ _)); cbn [ret snd providerRequests flat_map];
    now rewrite app_nil_r.
Qed.

End MoreGenerationFacts.

Lemma providers_get_withCurrentProvider (env : Env)
  (providerName key : jsstring) (provider : LLMProvider) :
  providers_get key (providers env) = Some provider ->
  exists provider',
    providers_get key (providers (withCurrentProvider env providerName))
    = Some provider'.
Proof.
  intros Hget. apply providers_get_has, providers_has_available.
  rewrite providers_withCurrentProvider.
  apply providers_has_available, providers_get_has. now exists provider.
Qed.

Lemma getProvider_wanted (env : Env) (providerName : option jsstring) :
  let wanted :=
    match providerName with
    | Some (c :: n) => c :: n
    | _ => getCurrentProvider env
    end in
  getProvider env providerName
  = match providers_get wanted (providers env) with
    | Some provider => Return provider
    | None =>
        Throw (ErrorObject
          (str "Provider '" ++ wanted
           ++ str "' not available. Available providers: "
           ++ join (str ", ") (getAvailableProviders env)))
    end.
Proof. destruct providerName as [[|c n]|]; reflexivity. Qed.

(* ================================================================== *)
(** ** Further facts about the orchestrator *)
(* ================================================================== *)

Section MorePipelineFacts.

Variable env : Env.

Lemma try_catch_bind_Throw {A B} (m : M A) (k : A -> M B)
  (handler : Thrown -> M B) (history : list Event) (thrown : Thrown)
  (events : list Event) :
  m history = (Throw thrown, events) ->
  try_catch (bind m k) handler history
  = (fst (handler thrown (history ++ events)),
     events ++ snd (handler thrown (history ++ events))).
Proof.
  intros Hm. unfold try_catch, bind. rewrite Hm.
  now destruct (handler thrown (history ++ events)).
Qed.

Lemma try_catch_returned {A} (m : M A) (handler : Thrown -> M A)
  (history : list Event) (a : A) :
  fst (m history) = Return a ->
  try_catch m handler history = m history.
Proof.
  unfold try_catch. destruct (m history) as [[a'|thrown] events];
    cbn [fst]; [reflexivity|discriminate].
Qed.

Lemma noTitlesFound_fits (interaction : Interaction) :
  length (noTitlesFound interaction) <= DEFAULT_MAX_LENGTH.
Proof.
  unfold noTitlesFound, DEFAULT_MAX_LENGTH.
  destruct (N.eqb _ _); vm_compute; lia.
Qed.

Lemma threadAcknowledgment_fits (count : nat) :
  count <= MAX_BATCH ->
  length (threadAcknowledgment count) <= DEFAULT_MAX_LENGTH.
Proof.
  intros Hcount. unfold threadAcknowledgment.
  rewrite !length_app.
  assert (Hdigits : length (ofNumber count) <= 10).
  { apply ofNumber_length. unfold MAX_BATCH in Hcount.
    apply N.lt_le_trans with (m := 11%N); [lia|].
    vm_compute. discriminate. }
  change (length CHECK_MARK) with 1.
  change (length (str " Synopses generated for ")) with 24.
  change (length (str " book(s) in thread.")) with 19.
  unfold DEFAULT_MAX_LENGTH. lia.
Qed.

Lemma observers_of_other_events (events : list Event) :
  Forall (fun event => isWebhookPost event = false) events ->
  webhookPosts events = [] /\ publicPosts events = [].
Proof.
  induction 1 as [|event events Hevent _ [IH1 IH2]]; [split; reflexivity|].
  unfold webhookPosts, publicPosts in *. cbn [flat_map].
  rewrite IH1, IH2.
  destruct event as [[]| | |]; try discriminate Hevent; split; reflexivity.
Qed.

Lemma channelPosts_of_other_events (channelId : jsstring)
  (events : list Event) :
  Forall (fun event => isThreadPost event = false) events ->
  channelPosts channelId events = [].
Proof.
  induction 1 as [|event events Hevent _ IH]; [reflexivity|].
  unfold channelPosts in *. cbn [flat_map]. rewrite IH.
  destruct event as [[]| | |]; try discriminate Hevent; reflexivity.
Qed.

Lemma channelPosts_app (channelId : jsstring) (events events' : list Event) :
  channelPosts channelId (events ++ events')
  = channelPosts channelId events ++ channelPosts channelId events'.
Proof. apply flat_map_app. Qed.

Lemma publicPosts_app (events events' : list Event) :
  publicPosts (events ++ events')
  = publicPosts events ++ publicPosts events'.
Proof. apply flat_map_app. Qed.

Lemma requests_app (events events' : list Event) :
  requests (events ++ events') = requests events ++ requests events'.
Proof. apply flat_map_app. Qed.

Lemma providerCalls_are_not_posts (events : list Event) :
  Forall (fun event => isProviderCall event = true) events ->
  Forall (fun event => isWebhookPost event = false) events
  /\ Forall (fun event => isThreadPost event = false) events.
Proof.
  intros H. split; (eapply Forall_impl; [|exact H]);
    intros [| | |]; cbn; trivial; discriminate.
Qed.

Lemma parseTitles_providerCalls (input : jsstring) (history : list Event) :
  Forall (fun event => isProviderCall event = true)
    (snd (parseTitles env input history)).
Proof.
  destruct (isValidSimpleParse (simpleParseTitle input)) eqn:Hvalid.
  - rewrite parseTitles_simple by trivial. constructor.
  - rewrite parseTitles_fallback by trivial.
    destruct (getProvider env None) as [provider|thrown] eqn:Hprovider;
      [|constructor].
    rewrite bind_await_Return.
    destruct (getProvider_cases _ _ _ Hprovider) as [-> | ->];
      cbn [extractTitles GeminiProvider ClaudeProvider].
    + rewrite GeminiProvider_extractTitles_run. repeat constructor.
    + rewrite ClaudeProvider_extractTitles_run. repeat constructor.
Qed.

(** *** Thread creation *)

Lemma createThread_run (request : HttpRequest) (history : list Event) :
  let answer := fetch env history request in
  try_catch
    (response <- doFetch env request ;;
     if negb (ok response)
     then (_ <- await (text response) ;; ret None)
     else (thread_id <- await (json_id response) ;; ret thread_id))
    (fun _ => ret None) history
  = (Return
       match answer with
       | Return response =>
           if ok response
           then match json_id response with
                | Return thread_id => thread_id
                | Throw _ => None
                end
           else None
       | Throw _ => None
       end,
     [Fetch request answer]).
Proof.
  cbv zeta. unfold try_catch, bind, doFetch, await, ret.
  destruct (fetch env history request) as [response|thrown]; [|reflexivity].
  destruct (ok response); cbn [negb].
  - destruct (json_id response); reflexivity.
  - destruct (text response); reflexivity.
Qed.

Lemma threadCreation_run (interaction : Interaction) (titles : list jsstring)
  (history : list Event) :
  threadCreation env interaction titles history
  = if botTokenMissing env then (Return None, [])
    else
      let channelId :=
        orElse (channel interaction) (channel_id interaction) in
      let threadName :=
        substring_to (batchThreadName (length titles)) THREAD_NAME_LIMIT in
      let request :=
        if N.eqb (data_type interaction) ApplicationCommandType_Message
        then PostMessageThread channelId (data_target_id interaction)
               threadName
        else PostChannelThread channelId threadName in
      let answer := fetch env history request in
      (Return
         match answer with
         | Return response =>
             if ok response
             then match json_id response with
                  | Return thread_id => thread_id
                  | Throw _ => None
                  end
             else None
         | Throw _ => None
         end,
       [Fetch request answer]).
Proof.
  unfold threadCreation, createThreadFromMessage, createStandaloneThread.
  destruct (N.eqb _ _), (botTokenMissing env); try reflexivity;
    apply createThread_run.
Qed.

Lemma threadCreation_token (interaction : Interaction) (titles : list jsstring)
  (history : list Event) (threadId : jsstring) (events : list Event) :
  threadCreation env interaction titles history
  = (Return (Some threadId), events) ->
  botTokenMissing env = false
  /\ Forall (fun event => isWebhookPost event = false) events
  /\ Forall (fun event => isThreadPost event = false) events.
Proof.
  rewrite threadCreation_run.
  destruct (botTokenMissing env); [discriminate|].
  cbv zeta. intros Hrun. injection Hrun as _ <-.
  split; [reflexivity|].
  destruct (N.eqb _ _); split; repeat constructor.
Qed.

(** *** Delivery to a thread when every request is accepted *)

Lemma sendToThread_accepted (threadId message : jsstring)
  (history : list Event) :
  transportAccepts env ->
  botTokenMissing env = false ->
  fst (sendToThread env threadId message history) = Return tt
  /\ channelPosts threadId (snd (sendToThread env threadId message history))
     = splitContent message
  /\ Forall (fun event => isWebhookPost event = false)
       (snd (sendToThread env threadId message history)).
Proof.
  intros Hacc Htoken. unfold sendToThread. rewrite Htoken.
  rewrite sendToThread_loop_postChunks.
  destruct (postChunks_accepted env (PostChannelMessage threadId)
              (channelPosts threadId)) with (chunks := splitContent message)
                                            (history := history)
    as [Hfst Hsnd].
  - intros h chunk. apply Hacc.
  - intros chunk response events. unfold channelPosts. cbn [flat_map].
    now rewrite JS_eqb_refl.
  - reflexivity.
  - reflexivity.
  - split; [exact Hfst|]. split; [exact Hsnd|].
    apply (emits_postChunks (fun event => isWebhookPost event = false));
      reflexivity.
Qed.

Lemma sendBatchToThread_accepted (threadId : jsstring)
  (results : list SynopsisResult) :
  transportAccepts env ->
  botTokenMissing env = false ->
  forall history,
    fst (sendBatchToThread env threadId results history) = Return tt
    /\ channelPosts threadId
         (snd (sendBatchToThread env threadId results history))
       = concat (map (fun result => splitContent (content result)) results)
    /\ Forall (fun event => isWebhookPost event = false)
         (snd (sendBatchToThread env threadId results history)).
Proof.
  intros Hacc Htoken.
  induction results as [|result rest IH]; intros history.
  - repeat split; constructor.
  - cbn [sendBatchToThread].
    destruct (sendToThread_accepted threadId (content result) history
                Hacc Htoken) as (Hfst & Hposts & Hnone).
    destruct (sendToThread env threadId (content result) history)
      as [c events1] eqn:Hsend.
    cbn [fst snd] in Hfst, Hposts, Hnone. subst c.
    erewrite bind_Return by exact Hsend. cbn [fst snd].
    rewrite pace_then, channelPosts_app, Hposts. cbn [map concat].
    destruct rest as [|result' rest'].
    + cbn [sendBatchToThread ret fst snd concat map channelPosts flat_map].
      rewrite !app_nil_r. repeat split; trivial.
    + cbn [fst snd].
      destruct (IH ((history ++ events1) ++ [SetTimeout 500]))
        as (H1 & H2 & H3).
      split; [exact H1|]. split.
      * f_equal. exact H2.
      * apply Forall_app. split; [exact Hnone|].
        constructor; [reflexivity|exact H3].
Qed.

Lemma deliverToThread_accepted (interaction : Interaction)
  (threadId : jsstring) (titles : list jsstring) (history : list Event) :
  transportAccepts env ->
  botTokenMissing env = false ->
  length titles <= MAX_BATCH ->
  exists results,
    GeneratedInOrder env
      (history ++ snd (sendToThread env threadId (threadIntro titles) history))
      titles results
    /\ fst (deliverToThread env interaction threadId titles history)
       = Return tt
    /\ channelPosts threadId
         (snd (deliverToThread env interaction threadId titles history))
       = splitContent (threadIntro titles)
         ++ concat (map (fun result => splitContent (content result)) results)
    /\ webhookPosts
         (snd (deliverToThread env interaction threadId titles history))
       = [threadAcknowledgment (length titles)]
    /\ publicPosts
         (snd (deliverToThread env interaction threadId titles history))
       = [].
Proof.
  intros Hacc Htoken Hcount. unfold deliverToThread.
  destruct (sendToThread_accepted threadId (threadIntro titles) history
              Hacc Htoken) as (Hfst1 & Hposts1 & Hnone1).
  destruct (sendToThread env threadId (threadIntro titles) history)
    as [c events1] eqn:Hrun1.
  cbn [fst snd] in Hfst1, Hposts1, Hnone1. subst c.
  destruct (generateBatchSynopses_spec env titles (history ++ events1))
    as (results & events2 & Hrun2 & Hgen).
  pose proof (generateBatchSynopses_events env titles (history ++ events1))
    as Hcalls.
  rewrite Hrun2 in Hcalls. cbn [snd] in Hcalls.
  destruct (providerCalls_are_not_posts events2 Hcalls) as [Hnone2 Hquiet2].
  destruct (sendBatchToThread_accepted threadId results Hacc Htoken
              ((history ++ events1) ++ events2)) as (Hfst3 & Hposts3 & Hnone3).
  destruct (sendBatchToThread env threadId results
              ((history ++ events1) ++ events2)) as [c events3] eqn:Hrun3.
  cbn [fst snd] in Hfst3, Hposts3, Hnone3. subst c.
  pose proof (sendFollowUp_single env interaction
                (threadAcknowledgment (length titles)) true
                (((history ++ events1) ++ events2) ++ events3)
                (threadAcknowledgment_fits (length titles) Hcount)) as Hrun4.
  exists results. split; [exact Hgen|].
  erewrite bind_Return by exact Hrun1.
  erewrite bind_Return by exact Hrun2.
  erewrite bind_Return by exact Hrun3.
  rewrite Hrun4. cbn [fst snd].
  split; [reflexivity|].
  rewrite !channelPosts_app, !webhookPosts_app, !publicPosts_app.
  rewrite Hposts1, Hposts3.
  rewrite (channelPosts_of_other_events threadId events2 Hquiet2).
  destruct (observers_of_other_events events1 Hnone1) as [-> ->].
  destruct (observers_of_other_events events2 Hnone2) as [-> ->].
  destruct (observers_of_other_events events3 Hnone3) as [-> ->].
  cbn [app]. split; [|split; reflexivity].
  unfold channelPosts. cbn [flat_map webhookRequest app].
  now rewrite app_nil_r.
Qed.

End MorePipelineFacts.

Lemma processDeferred_batch (env : Env) (interaction : Interaction)
  (raw : jsstring) (history : list Event) :
  batchInput interaction = Some raw ->
  exists continuation : list jsstring -> M unit,
    processDeferred env interaction history
    = try_catch (bind (parseTitles env raw) continuation)
        (reportError env interaction) history
    /\ (forall titles,
          length titles = 0 ->
          continuation titles
          = sendFollowUp env interaction (noTitlesFound interaction) false)
    /\ (forall titles,
          1 <= length titles <= MAX_BATCH ->
          requestsThread interaction = false ->
          continuation titles = deliverToChannel env interaction titles)
    /\ (forall titles threadHistory threadId threadEvents,
          1 <= length titles <= MAX_BATCH ->
          requestsThread interaction = true ->
          threadCreation env interaction titles threadHistory
          = (Return (Some threadId), threadEvents) ->
          threadId <> [] ->
          try_catch (continuation titles) (reportError env interaction)
            threadHistory
          = (fst (try_catch
                    (deliverToThread env interaction threadId titles)
                    (reportError env interaction)
                    (threadHistory ++ threadEvents)),
             threadEvents
             ++ snd (try_catch
                       (deliverToThread env interaction threadId titles)
                       (reportError env interaction)
                       (threadHistory ++ threadEvents)))).
Proof.
  intros Hbatch. unfold processDeferred, noTitlesFound, requestsThread,
    threadCreation.
  destruct (batchInput_cases _ _ Hbatch)
    as [(Htype & Hname & Hraw)|(Htype & Hname & Hraw)]; rewrite Htype.
  - unfold processMessageCommand. rewrite Hname, Hraw.
    eexists. split; [reflexivity|]. split; [|split].
    + intros titles Hzero. cbv beta. now rewrite Hzero.
    + intros titles _ Hthread. discriminate Hthread.
    + intros titles threadHistory threadId threadEvents Hcount _ Hcreate Hid.
      cbv beta.
      assert (Hzero : (length titles =? 0) = false)
        by (apply Nat.eqb_neq; lia).
      assert (Hover : (MAX_BATCH <? length titles) = false)
        by (apply Nat.ltb_ge; lia).
      rewrite Hzero, Hover. cbv zeta.
      erewrite try_catch_bind_Return by exact Hcreate.
      destruct threadId as [|c id]; [congruence|]. reflexivity.
  - rewrite Hname. unfold processSynopsisBatch. rewrite Hraw.
    eexists. split; [reflexivity|]. split; [|split].
    + intros titles Hzero. cbv beta. now rewrite Hzero.
    + intros titles Hcount Hthread. cbv beta.
      assert (Hzero : (length titles =? 0) = false)
        by (apply Nat.eqb_neq; lia).
      assert (Hover : (MAX_BATCH <? length titles) = false)
        by (apply Nat.ltb_ge; lia).
      now rewrite Hzero, Hover, Hthread.
    + intros titles threadHistory threadId threadEvents Hcount Hthread
        Hcreate Hid.
      cbv beta.
      assert (Hzero : (length titles =? 0) = false)
        by (apply Nat.eqb_neq; lia).
      assert (Hover : (MAX_BATCH <? length titles) = false)
        by (apply Nat.ltb_ge; lia).
      rewrite Hzero, Hover, Hthread. cbv zeta.
      erewrite try_catch_bind_Return by exact Hcreate.
      destruct threadId as [|c id]; [congruence|]. reflexivity.
Qed.


(* ================================================================== *)
(** ** Facts about the prompts and the search *)
(* ================================================================== *)

Lemma poll_titles_nonempty (answers : list (option jsstring))
  (first : option jsstring) (titles : list (option jsstring)) :
  filter truthy answers = first :: titles ->
  join (str ", ")
    (map (fun text => match text with Some t => t | None => [] end)
       (first :: titles))
  <> [].
Proof.
  intros Hfilter.
  assert (Hfirst : truthy first = true).
  { assert (Hin : In first (filter truthy answers))
      by (rewrite Hfilter; now left).
    now apply filter_In in Hin. }
  destruct first as [[|c t]|]; try discriminate Hfirst.
  cbn [map].
  match goal with
  | |- join _ (_ :: ?rest) <> [] => destruct rest
  end; cbn [join app]; discriminate.
Qed.

Section PromptFacts.

Lemma getSubstitution_plain (matched before after plain rest : jsstring) :
  ~ In DOLLAR plain ->
  getSubstitution matched before after (plain ++ rest)
  = plain ++ getSubstitution matched before after rest.
Proof.
  induction plain as [|c plain IH]; intros Hplain; [reflexivity|].
  cbn [app getSubstitution].
  destruct (N.eqb_spec c DOLLAR) as [->|_].
  - exfalso. apply Hplain. now left.
  - rewrite IH; [reflexivity|]. intros Hin. apply Hplain. now right.
Qed.

Lemma getSubstitution_verbatim (matched before after value : jsstring) :
  ~ In DOLLAR value -> getSubstitution matched before after value = value.
Proof.
  intros Hvalue.
  rewrite <- (app_nil_r value) at 1.
  rewrite getSubstitution_plain by exact Hvalue.
  cbn [getSubstitution]. apply app_nil_r.
Qed.

Lemma getSubstitution_pattern (matched before after v1 v2 : jsstring) (d : N) :
  ~ In DOLLAR v1 -> ~ In DOLLAR v2 ->
  getSubstitution matched before after (v1 ++ [DOLLAR; d] ++ v2)
  = v1
    ++ (if N.eqb d DOLLAR then [DOLLAR]
        else if N.eqb d 38 then matched
        else if N.eqb d 96 then before
        else if N.eqb d 39 then after
        else [DOLLAR; d])
    ++ v2.
Proof.
  intros Hv1 Hv2.
  rewrite getSubstitution_plain by exact Hv1. f_equal.
  cbn [app getSubstitution]. rewrite N.eqb_refl.
  destruct (N.eqb_spec d DOLLAR) as [->|Hd].
  - now rewrite getSubstitution_verbatim by exact Hv2.
  - destruct (N.eqb d 38); [now rewrite getSubstitution_verbatim|].
    destruct (N.eqb d 96); [now rewrite getSubstitution_verbatim|].
    destruct (N.eqb d 39); [now rewrite getSubstitution_verbatim|].
    cbn [app]. now rewrite getSubstitution_verbatim by exact Hv2.
Qed.

Lemma placeholder_cons (key : PromptKey) :
  exists tail, placeholder key = 123%N :: tail.
Proof. unfold placeholder. cbn [app]. eexists. reflexivity. Qed.

Lemma startsWith_refl_app (pattern rest : jsstring) :
  startsWith pattern (pattern ++ rest) = true.
Proof.
  induction pattern as [|c pattern IH]; [reflexivity|].
  cbn [app startsWith]. now rewrite N.eqb_refl, IH.
Qed.

Lemma skipn_app_exact {A} (l rest : list A) : skipn (length l) (l ++ rest) = rest.
Proof. induction l as [|x l IH]; [reflexivity|exact IH]. Qed.

(** Passing the rest of a match. *)
Lemma replaceFrom_skip (pattern replacement passed : jsstring) :
  forall before rest,
    replaceFrom pattern replacement (length passed) before (passed ++ rest)
    = replaceFrom pattern replacement 0 (before ++ passed) rest.
Proof.
  induction passed as [|c passed IH]; intros before rest.
  - cbn [length app]. now rewrite app_nil_r.
  - cbn [length app replaceFrom]. rewrite IH.
    now rewrite <- app_assoc.
Qed.

(** Scanning text in which the pattern cannot start. *)
Lemma replaceFrom_piece (key : PromptKey) (replacement piece : jsstring) :
  ~ In 123%N piece ->
  forall before rest,
    replaceFrom (placeholder key) replacement 0 before (piece ++ rest)
    = piece
      ++ replaceFrom (placeholder key) replacement 0 (before ++ piece) rest.
Proof.
  destruct (placeholder_cons key) as [tail Hkey]. rewrite Hkey.
  induction piece as [|c piece IH]; intros Hpiece before rest.
  - cbn [app]. now rewrite app_nil_r.
  - cbn [app replaceFrom startsWith].
    destruct (N.eqb_spec 123 c) as [<-|_].
    + exfalso. apply Hpiece. now left.
    + cbn [andb]. rewrite IH.
      * now rewrite <- app_assoc.
      * intros Hin. apply Hpiece. now right.
Qed.

Lemma replaceFrom_match (key : PromptKey) (replacement : jsstring) :
  forall before rest,
    replaceFrom (placeholder key) replacement 0 before
      (placeholder key ++ rest)
    = getSubstitution (placeholder key) before rest replacement
      ++ replaceFrom (placeholder key) replacement 0
           (before ++ placeholder key) rest.
Proof.
  intros before rest.
  pose proof (startsWith_refl_app (placeholder key) rest) as Hstarts.
  pose proof (skipn_app_exact (placeholder key) rest) as Hskip.
  pose proof (replaceFrom_skip (placeholder key) replacement) as Hpass.
  destruct (placeholder_cons key) as [tail Hkey]. rewrite Hkey in *.
  cbn [app] in *.
  change (replaceFrom (123%N :: tail) replacement 0 before
            (123%N :: tail ++ rest))
    with (if startsWith (123%N :: tail) (123%N :: tail ++ rest)
          then getSubstitution (123%N :: tail) before
                 (skipn (length (123%N :: tail)) (123%N :: tail ++ rest))
                 replacement
               ++ replaceFrom (123%N :: tail) replacement
                    (length (123%N :: tail) - 1) (before ++ [123%N])
                    (tail ++ rest)
          else 123%N :: replaceFrom (123%N :: tail) replacement 0
                          (before ++ [123%N]) (tail ++ rest)).
  rewrite Hstarts, Hskip. f_equal.
  cbn [length]. rewrite Nat.sub_succ, Nat.sub_0_r.
  rewrite (Hpass tail (before ++ [123%N]) rest).
  now rewrite <- app_assoc.
Qed.

Lemma replaceFrom_joined (key : PromptKey) (replacement : jsstring)
  (pieces : list jsstring) :
  ~ In DOLLAR replacement ->
  Forall (fun piece => ~ In 123%N piece) pieces ->
  forall before,
    replaceFrom (placeholder key) replacement 0 before
      (join (placeholder key) pieces)
    = join replacement pieces.
Proof.
  intros Hplain Hpieces.
  induction Hpieces as [|piece pieces Hpiece _ IH]; intros before;
    [reflexivity|].
  destruct pieces as [|piece' pieces].
  - cbn [join]. rewrite <- (app_nil_r piece) at 1.
    rewrite replaceFrom_piece by exact Hpiece.
    cbn [replaceFrom]. apply app_nil_r.
  - change (join (placeholder key) (piece :: piece' :: pieces))
      with (piece ++ placeholder key ++ join (placeholder key) (piece' :: pieces)).
    change (join replacement (piece :: piece' :: pieces))
      with (piece ++ replacement ++ join replacement (piece' :: pieces)).
    rewrite replaceFrom_piece by exact Hpiece.
    rewrite replaceFrom_match, IH.
    now rewrite getSubstitution_verbatim by exact Hplain.
Qed.

Lemma replaceGlobal_without_brace (key : PromptKey)
  (replacement template : jsstring) :
  ~ In 123%N template ->
  replaceGlobal (placeholder key) replacement template = template.
Proof.
  intros Htemplate. unfold replaceGlobal.
  rewrite <- (app_nil_r template) at 1.
  rewrite replaceFrom_piece by exact Htemplate.
  cbn [replaceFrom]. apply app_nil_r.
Qed.

Lemma replaceGlobal_one (key : PromptKey) (replacement a b : jsstring) :
  ~ In 123%N a -> ~ In 123%N b ->
  replaceGlobal (placeholder key) replacement (a ++ placeholder key ++ b)
  = a ++ getSubstitution (placeholder key) a b replacement ++ b.
Proof.
  intros Ha Hb. unfold replaceGlobal.
  rewrite replaceFrom_piece by exact Ha.
  rewrite replaceFrom_match. cbn [app].
  rewrite <- (app_nil_r b) at 2.
  rewrite replaceFrom_piece by exact Hb.
  cbn [replaceFrom]. now rewrite app_nil_r.
Qed.

End PromptFacts.

Section SearchFacts.

Lemma trim_cons_nonempty (s : jsstring) :
  trim s <> [] -> exists c rest, trim s = c :: rest.
Proof. destruct (trim s) as [|c rest]; [congruence|]. now exists c, rest. Qed.

Lemma trim_fixed_between (first last : N) (middle : jsstring) :
  isWhiteSpace first = false ->
  isWhiteSpace last = false ->
  trim (first :: middle ++ [last]) = first :: middle ++ [last].
Proof.
  intros Hfirst Hlast. unfold trim.
  rewrite trimStart_fixed by exact Hfirst.
  unfold trimEnd.
  change (first :: middle ++ [last]) with ((first :: middle) ++ [last]).
  rewrite rev_app_distr. cbn [rev app].
  rewrite trimStart_fixed by exact Hlast.
  change (last :: rev middle ++ [first]) with ([last] ++ rev (first :: middle)).
  rewrite rev_app_distr, rev_involutive. reflexivity.
Qed.

Lemma getField_single (key : jsstring) (value : Json) :
  getField key [(key, value)] = Some value.
Proof. unfold getField. cbn [rev app find fst]. now rewrite JS_eqb_refl. Qed.

Lemma joinTexts_returned (sep : jsstring) (texts : list jsstring) :
  joinTexts sep (map (fun s => Return s) texts) = Return (join sep texts).
Proof.
  induction texts as [|s texts IH]; [reflexivity|].
  destruct texts as [|s' texts]; [reflexivity|].
  change (joinTexts sep (map (fun s => Return s) (s :: s' :: texts)))
    with (andThen (Return s) (fun s0 =>
            andThen (joinTexts sep (map (fun s => Return s) (s' :: texts)))
              (fun joined => Return (s0 ++ sep ++ joined)))).
  rewrite IH. reflexivity.
Qed.

Lemma getProperty_topicJson (topic : RelatedTopic) :
  getProperty (topicJson topic) (str "Text")
  = Return (option_map JString (Text topic)).
Proof.
  unfold topicJson, getProperty. destruct (Text topic) as [s|].
  - now rewrite getField_single.
  - reflexivity.
Qed.

Lemma truthyValue_JString (s : option jsstring) :
  truthyValue (option_map JString s) = truthy s.
Proof. now destruct s as [[|c t]|]. Qed.

Lemma filterTopics_typed (topics : list RelatedTopic) :
  filterTopics (map topicJson topics)
  = Return (map topicJson
              (filter (fun topic => truthy (Text topic)) topics)).
Proof.
  induction topics as [|topic topics IH]; [reflexivity|].
  cbn [map filterTopics filter].
  rewrite getProperty_topicJson, IH. cbn [andThen].
  rewrite truthyValue_JString.
  now destruct (truthy (Text topic)).
Qed.

Lemma relatedTopicTexts_typed (topics : list RelatedTopic) :
  relatedTopicTexts (JArray (map topicJson topics))
  = Return
      (map (fun topic => JString (optionText (Text topic)))
         (firstn 3 (filter (fun topic => truthy (Text topic)) topics))).
Proof.
  unfold relatedTopicTexts. rewrite filterTopics_typed. cbn [andThen].
  rewrite firstn_map, map_map. f_equal.
  apply map_ext_in. intros topic Hin.
  assert (Hkept : In topic (filter (fun topic => truthy (Text topic)) topics)).
  { rewrite <- (firstn_skipn 3 (filter _ topics)).
    apply in_or_app. now left. }
  apply filter_In in Hkept. destruct Hkept as [_ Htruthy].
  rewrite getProperty_topicJson.
  destruct (Text topic) as [s|]; [reflexivity|discriminate].
Qed.

Lemma joinTexts_typed (sep : jsstring) (topics : list RelatedTopic) :
  joinTexts sep
    (map elementText
       (map (fun topic => JString (optionText (Text topic))) topics))
  = Return (join sep (map (fun topic => optionText (Text topic)) topics)).
Proof.
  rewrite map_map. cbn [elementText toString].
  rewrite <- joinTexts_returned. now rewrite map_map.
Qed.

(** On a reply of the documented shape, reading never throws and gives
    the text of [searchInfo]. *)
Lemma searchText_typed (positive : jsstring -> bool) (data : SearchData) :
  searchText positive (dataJson data) = Return (searchInfo data).
Proof.
  destruct data as [abstract related].
  unfold searchText, abstractPart, topicsPart, searchInfo, dataJson,
    getProperty.
  cbn [AbstractText RelatedTopics].
  assert (Habstract :
    forall fields,
      getField (str "AbstractText")
        (match abstract with
         | Some s => [(str "AbstractText", JString s)]
         | None => []
         end ++ match related with
                | Some topics =>
                    [(str "RelatedTopics", JArray (map topicJson topics))]
                | None => []
                end)
      = fields ->
      fields = option_map JString abstract).
  { intros fields <-. destruct abstract, related; reflexivity. }
  assert (Hrelated :
    forall fields,
      getField (str "RelatedTopics")
        (match abstract with
         | Some s => [(str "AbstractText", JString s)]
         | None => []
         end ++ match related with
                | Some topics =>
                    [(str "RelatedTopics", JArray (map topicJson topics))]
                | None => []
                end)
      = fields ->
      fields = option_map (fun topics => JArray (map topicJson topics))
                 related).
  { intros fields <-. destruct abstract, related; reflexivity. }
  rewrite (Habstract _ eq_refl), (Hrelated _ eq_refl). cbn [andThen].
  assert (Hfirst :
    match option_map JString abstract with
    | Some value =>
        if truthyValue (option_map JString abstract)
        then andThen (toString value) (fun s => Return (s ++ [LF; LF]))
        else Return []
    | None => Return []
    end
    = Return (if truthy abstract then optionText abstract ++ [LF; LF]
              else [])).
  { now destruct abstract as [[|c t]|]. }
  rewrite Hfirst. cbn [andThen].
  destruct related as [[|topic topics]|]; cbn [option_map truthyValue];
    try reflexivity.
  cbn [hasPositiveLength andThen map length Nat.ltb Nat.leb].
  change (topicJson topic :: map topicJson topics)
    with (map topicJson (topic :: topics)).
  rewrite relatedTopicTexts_typed. cbn [andThen].
  rewrite !length_map.
  match goal with
  | |- context [match ?count with 0 => false | S _ => true end] =>
      destruct count
  end; [reflexivity|].
  now rewrite joinTexts_typed.
Qed.

Lemma filterTopics_null (before after : list Json) :
  exists thrown, filterTopics (before ++ JNull :: after) = Throw thrown.
Proof.
  induction before as [|topic before [thrown IH]]; cbn [app filterTopics].
  - now exists typeError.
  - destruct (getProperty topic (str "Text")) as [topicText|thrown'];
      cbn [andThen].
    + rewrite IH. now exists thrown.
    + now exists thrown'.
Qed.

End SearchFacts.

Lemma deliverToChannel_public (env : Env) (interaction : Interaction)
  (titles : list jsstring) :
  emits (fun event =>
           forall request response,
             event = Fetch request response ->
             exists chunk, request = webhookRequest interaction false chunk)
    (deliverToChannel env interaction titles).
Proof.
  unfold deliverToChannel. apply emits_bind.
  - apply sendFollowUp_events.
    + intros chunk response request response' Heq. injection Heq as <- _.
      now exists chunk.
    + discriminate.
  - intros _. apply emits_bind.
    + intros history.
      eapply Forall_impl; [|apply generateBatchSynopses_events].
      intros [| | |]; cbn; discriminate.
    + intros results. apply sendBatchResults_events.
      * intros chunk response request response' Heq. injection Heq as <- _.
        now exists chunk.
      * discriminate.
      * discriminate.
Qed.

Lemma requests_Forall (P : HttpRequest -> Prop) (events : list Event) :
  Forall (fun event =>
            forall request response,
              event = Fetch request response -> P request) events ->
  Forall P (requests events).
Proof.
  induction 1 as [|event events Hevent _ IH]; [constructor|].
  unfold requests in *. cbn [flat_map].
  destruct event as [request response| | |]; cbn [app]; try exact IH.
  constructor; [|exact IH]. now apply (Hevent request response).
Qed.

(* ================================================================== *)
(** ** Further properties of the code *)
(* ================================================================== *)

(** X1.  [splitContent] returns the text itself as its only chunk
    exactly when the text is at most 1900 units long; it never returns
    an empty list. *)
Theorem splitContent_single_chunk_iff :
  forall (content : jsstring),
    (splitContent content = [content] <-> length content <= DEFAULT_MAX_LENGTH)
    /\ splitContent content <> [].
Proof.
  intros content. split; [|apply splitContent_nonempty]. split.
  - intros Hone.
    pose proof (splitContent_fuel_bounded _ _ _ _
                  (splitContent_opt_default content)) as Hbound.
    rewrite Hone in Hbound. now inversion Hbound.
  - apply splitContent_short.
Qed.

(** X2.  A text of [n] units is split into at most [2n / 1900 + 1]
    chunks: [1900 * chunks <= 2 * n + 1900], and likewise for every
    limit for which the call returns. *)
Theorem splitContent_number_of_chunks :
  forall (content : jsstring),
    DEFAULT_MAX_LENGTH * length (splitContent content)
    <= 2 * length content + DEFAULT_MAX_LENGTH
    /\ (forall fuel maxLength chunks,
          splitContent_fuel fuel content maxLength = Some chunks ->
          maxLength * length chunks <= 2 * length content + maxLength).
Proof.
  intros content.
  assert (Hgen : forall fuel maxLength chunks,
             splitContent_fuel fuel content maxLength = Some chunks ->
             maxLength * length chunks <= 2 * length content + maxLength).
  { intros fuel maxLength chunks. unfold splitContent_fuel.
    destruct (Nat.leb_spec (length content) maxLength).
    - intros [= <-]. cbn [length]. lia.
    - apply splitLoop_count. }
  split; [|exact Hgen].
  exact (Hgen _ _ _ (splitContent_opt_default content)).
Qed.

(** X3.  When the text is longer than the limit, every chunk is trimmed:
    no chunk starts or ends with white space. *)
Theorem splitContent_long_text_chunks_are_trimmed :
  forall (content : jsstring),
    DEFAULT_MAX_LENGTH < length content ->
    Forall (fun chunk => trim chunk = chunk) (splitContent content).
Proof.
  intros content Hlong.
  pose proof (splitContent_opt_default content) as Hrun.
  unfold splitContent_opt, splitContent_fuel in Hrun.
  destruct (Nat.leb_spec (length content) DEFAULT_MAX_LENGTH); [lia|].
  apply (splitLoop_trimmed _ _ _ _ Hrun). now left.
Qed.

Lemma splitContent_long_text_chunks_are_trimmed_witness :
  DEFAULT_MAX_LENGTH < length Examples.sparse
  /\ Forall (fun chunk => trim chunk = chunk) (splitContent Examples.sparse).
Proof.
  assert (Hlong : DEFAULT_MAX_LENGTH < length Examples.sparse).
  { apply Nat.ltb_lt. vm_compute. reflexivity. }
  split; [exact Hlong|].
  exact (splitContent_long_text_chunks_are_trimmed Examples.sparse Hlong).
Defined.

(** X4.  A text of white space only that is longer than the limit is
    split into one chunk, the empty string. *)
Theorem splitContent_long_white_space_is_one_empty_chunk :
  forall (content : jsstring),
    allWhiteSpace content ->
    DEFAULT_MAX_LENGTH < length content ->
    splitContent content = [[]].
Proof.
  intros content Hws Hlong.
  pose proof (splitContent_opt_default content) as Hrun.
  unfold splitContent_opt, splitContent_fuel in Hrun.
  destruct (Nat.leb_spec (length content) DEFAULT_MAX_LENGTH); [lia|].
  destruct (length content) as [|n] eqn:Hn; [lia|]. rewrite <- Hn in Hlong.
  rewrite splitLoop_unfold in Hrun by exact Hlong.
  unfold substring_to, substring_from in Hrun.
  rewrite (trim_allWhiteSpace (firstn _ content)) in Hrun
    by now apply allWhiteSpace_firstn.
  rewrite (trim_allWhiteSpace (skipn _ content)) in Hrun
    by now apply allWhiteSpace_skipn.
  rewrite splitLoop_short in Hrun by (simpl; lia).
  cbn in Hrun. now injection Hrun as <-.
Qed.

Lemma splitContent_long_white_space_is_one_empty_chunk_witness :
  splitContent (repeat SPACE 1901) = [[]].
Proof.
  apply (splitContent_long_white_space_is_one_empty_chunk (repeat SPACE 1901)).
  - apply Forall_forall. intros c Hc. apply repeat_spec in Hc. now subst c.
  - rewrite repeat_length. apply Nat.ltb_lt. vm_compute. reflexivity.
Defined.

(** X5.  A text without any white space is cut into consecutive blocks:
    the chunks concatenate to the text itself, and every chunk but the
    last is exactly 1900 units long. *)
Theorem splitContent_without_white_space_is_lossless :
  forall (content : jsstring),
    Forall (fun c => isWhiteSpace c = false) content ->
    concat (splitContent content) = content
    /\ Forall (fun chunk => length chunk = DEFAULT_MAX_LENGTH)
         (removelast (splitContent content)).
Proof.
  intros content Hclean.
  pose proof (splitContent_opt_default content) as Hrun.
  unfold splitContent_opt, splitContent_fuel in Hrun.
  destruct (Nat.leb_spec (length content) DEFAULT_MAX_LENGTH).
  - injection Hrun as <-. cbn [concat removelast]. rewrite app_nil_r.
    split; [reflexivity|constructor].
  - now apply (splitLoop_hard_cuts _ _ _ _ Hrun).
Qed.

Lemma splitContent_without_white_space_is_lossless_witness :
  concat (splitContent (repeat 97%N 4000)) = repeat 97%N 4000
  /\ Forall (fun chunk => length chunk = DEFAULT_MAX_LENGTH)
       (removelast (splitContent (repeat 97%N 4000))).
Proof.
  apply (splitContent_without_white_space_is_lossless (repeat 97%N 4000)).
  apply Forall_forall. intros c Hc. apply repeat_spec in Hc. now subst c.
Defined.

(** X6.  A list of two or more clean titles (non-empty, trimmed, without
    a comma), joined with ", " as the processing notice prints it,
    is parsed back by the simple parse to the same list. *)
Theorem simpleParseTitle_of_joined_titles :
  forall (titles : list jsstring),
    2 <= length titles ->
    Forall cleanTitle titles ->
    simpleParseTitle (join (str ", ") titles) = titles.
Proof.
  intros titles Hlen Hclean.
  destruct titles as [|t [|t' titles]]; cbn [length] in Hlen; try lia.
  assert (Hcommas : Forall (fun t => ~ In COMMA t) (t :: t' :: titles)).
  { eapply Forall_impl; [|exact Hclean]. now intros x (_ & _ & H). }
  unfold simpleParseTitle.
  assert (Hcomma : includes (join (str ", ") (t :: t' :: titles)) COMMA = true).
  { apply includes_In.
    change (join (str ", ") (t :: t' :: titles))
      with (t ++ COMMA :: SPACE :: join (str ", ") (t' :: titles)).
    apply in_or_app. right. now left. }
  rewrite Hcomma, (split_join_titles t (t' :: titles) Hcommas).
  inversion Hclean as [|? ? (Hne & Htrim & _) Hrest]; subst.
  change (map trim (t :: map (cons SPACE) (t' :: titles)))
    with (trim t :: map trim (map (cons SPACE) (t' :: titles))).
  cbn [filter]. rewrite Htrim, (nonEmpty_true t Hne).
  now rewrite (filter_map_trim_clean (t' :: titles) Hrest).
Qed.

Lemma simpleParseTitle_of_joined_titles_witness :
  simpleParseTitle (str "Dune, Emma, 1984") = [str "Dune"; str "Emma"; str "1984"].
Proof.
  apply (simpleParseTitle_of_joined_titles
           [str "Dune"; str "Emma"; str "1984"]).
  - cbn [length]. lia.
  - repeat constructor; try discriminate;
      vm_compute; intuition discriminate.
Defined.

(** X7.  Every title the simple parse returns is trimmed; and when the
    input holds a comma or a newline, no title is empty (an empty title
    can only come from an input without separators). *)
Theorem simpleParseTitle_titles_are_trimmed :
  forall (input : jsstring),
    Forall (fun t => trim t = t) (simpleParseTitle input)
    /\ (includes input COMMA = true \/ includes input LF = true ->
        Forall (fun t => t <> []) (simpleParseTitle input)).
Proof.
  intros input. split.
  - apply simpleParseTitle_trimmed.
  - apply simpleParseTitle_nonempty_pieces.
Qed.

(** X8.  A title with the word "or", in any capitalisation, between two
    spaces makes the validation reject the whole parse, whatever the
    other titles are; [parseTitles] then hands the input to the current
    provider. *)
Theorem title_with_or_goes_to_extraction :
  forall (env : Env) (input : jsstring) (history : list Event)
         (spelling a b : jsstring),
    map Regex.canonicalize spelling = map Regex.canonicalize (str "or") ->
    In (a ++ SPACE :: spelling ++ SPACE :: b) (simpleParseTitle input) ->
    isValidSimpleParse (simpleParseTitle input) = false
    /\ parseTitles env input history
       = bind (await (getProvider env None))
           (fun provider => extractTitles provider input) history.
Proof.
  intros env input history spelling a b Hspelling Hin.
  assert (Hinvalid : isValidSimpleParse (simpleParseTitle input) = false).
  { destruct (isValidSimpleParse (simpleParseTitle input)) eqn:Hvalid;
      [|reflexivity].
    apply isValidSimpleParse_iff in Hvalid. destruct Hvalid as [_ Hall].
    rewrite Forall_forall in Hall. destruct (Hall _ Hin) as (_ & Hor & _).
    exfalso. apply Hor. now apply standalone_or. }
  split; [exact Hinvalid|now apply parseTitles_fallback].
Qed.

Lemma title_with_or_goes_to_extraction_witness :
  isValidSimpleParse (simpleParseTitle (str "Emma, Dune OR 1984")) = false.
Proof.
  apply (title_with_or_goes_to_extraction Examples.env
           (str "Emma, Dune OR 1984") [] (str "OR") (str "Dune")
           (str "1984")).
  - reflexivity.
  - vm_compute. right. left. reflexivity.
Defined.

(** X9.  The bracket match of [extractTitles] runs from the first
    opening bracket of the reply to its last closing bracket: the prose
    around is dropped, and what lies between, further brackets included,
    is what [JSON.parse] receives.  When it parses, its titles are the
    result, with either provider. *)
Theorem extractTitles_parses_the_widest_bracket_span :
  forall (env : Env) (input : jsstring) (history : list Event)
         (prose body prose' : jsstring) (titles : list jsstring),
    ~ In 91%N prose ->
    ~ In 93%N prose' ->
    JSON_parse env ([91%N] ++ body ++ [93%N]) = Return titles ->
    let responseText := prose ++ [91%N] ++ body ++ [93%N] ++ prose' in
    matchJsonArray responseText = Some ([91%N] ++ body ++ [93%N])
    /\ (gemini_generateContent env history (ExtractTitles input)
        = Return responseText ->
        fst (GeminiProvider_extractTitles env input history) = Return titles)
    /\ (claude_messages_create env history (ExtractTitles input)
        = Return (Some responseText) ->
        fst (ClaudeProvider_extractTitles env input history) = Return titles).
Proof.
  intros env input history prose body prose' titles Hprose Hprose' Hparse
    responseText.
  assert (Hmatch : matchJsonArray responseText
                   = Some ([91%N] ++ body ++ [93%N])).
  { now apply matchJsonArray_span. }
  split; [exact Hmatch|]. split.
  - intros Hreply. rewrite GeminiProvider_extractTitles_run. cbn [fst].
    now rewrite Hreply, Hmatch, Hparse.
  - intros Hreply. rewrite ClaudeProvider_extractTitles_run. cbn [fst].
    now rewrite Hreply, Hmatch, Hparse.
Qed.

Lemma extractTitles_parses_the_widest_bracket_span_witness :
  matchJsonArray (str "Sure: [titles] done") = Some (str "[titles]")
  /\ fst (GeminiProvider_extractTitles Scenarios.welcoming (str "x") [])
     = Return [str "Dune"].
Proof.
  destruct (extractTitles_parses_the_widest_bracket_span
              Scenarios.welcoming (str "x") [] (str "Sure: ") (str "titles")
              (str " done") [str "Dune"]) as (Hmatch & Hgemini & _).
  - vm_compute. intuition discriminate.
  - vm_compute. intuition discriminate.
  - reflexivity.
  - split; [exact Hmatch|]. apply Hgemini. reflexivity.
Defined.

(** X10.  When the selected provider is not among the configured ones,
    a batch makes no call at all and still returns one artifact per
    title, each the error that names the selection and lists the
    providers that are available. *)
Theorem generateBatchSynopses_without_provider :
  forall (env : Env) (titles : list jsstring) (history : list Event),
    ~ In (getCurrentProvider env) (getAvailableProviders env) ->
    generateBatchSynopses env titles history
    = (Return
         (map (fun bookTitle =>
                 {| title := bookTitle;
                    content :=
                      heading bookTitle ++ CROSS_MARK ++ str " Error: "
                      ++ str "Provider '" ++ getCurrentProvider env
                      ++ str "' not available. Available providers: "
                      ++ join (str ", ") (getAvailableProviders env);
                    error := Some true |}) titles),
       []).
Proof.
  intros env titles history Hmissing.
  assert (Hget : providers_get (currentProvider env) (providers env) = None).
  { destruct (providers_get _ _) as [provider|] eqn:Hsome; [|reflexivity].
    exfalso. apply Hmissing. apply providers_has_available.
    apply providers_get_has. now exists provider. }
  rewrite (generateBatchSynopses_unavailable env
             (ErrorObject
                (str "Provider '" ++ currentProvider env
                 ++ str "' not available. Available providers: "
                 ++ join (str ", ") (getAvailableProviders env)))).
  - reflexivity.
  - rewrite getProvider_current. now rewrite Hget.
Qed.

Lemma generateBatchSynopses_without_provider_witness :
  generateBatchSynopses Scenarios.unconfigured [str "Dune"] []
  = (Return
       [{| title := str "Dune";
           content :=
             heading (str "Dune") ++ CROSS_MARK
             ++ str " Error: Provider 'gemini' not available. Available providers: ";
           error := Some true |}],
     []).
Proof.
  apply (generateBatchSynopses_without_provider Scenarios.unconfigured
           [str "Dune"] []).
  vm_compute. intros [].
Defined.

(** X11.  With a selected provider that is configured, a batch calls
    that provider exactly once per title, in the order of the titles,
    each time for a synopsis of that title, and calls no other
    provider. *)
Theorem generateBatchSynopses_one_call_per_title :
  forall (env : Env) (titles : list jsstring) (history : list Event),
    In (getCurrentProvider env) (getAvailableProviders env) ->
    providerRequests (snd (generateBatchSynopses env titles history))
    = map (fun bookTitle =>
             (getCurrentProvider env, Generate bookTitle synopsis None))
        titles.
Proof.
  intros env titles history Havailable. unfold getCurrentProvider in *.
  apply providers_has_available, providers_get_has in Havailable.
  destruct Havailable as [provider Hget].
  rewrite (generateBatchSynopses_requests env provider).
  - now rewrite (providers_get_name env _ provider Hget).
  - rewrite getProvider_current. now rewrite Hget.
Qed.

Lemma generateBatchSynopses_one_call_per_title_witness :
  providerRequests
    (snd (generateBatchSynopses Examples.env [str "Dune"; str "1984"] []))
  = [(str "gemini", Generate (str "Dune") synopsis None);
     (str "gemini", Generate (str "1984") synopsis None)].
Proof.
  apply (generateBatchSynopses_one_call_per_title Examples.env
           [str "Dune"; str "1984"] []).
  vm_compute. now left.
Defined.

(** X12.  What a failure of the selected provider becomes in the
    artifact of a title: with Gemini a rejected call is the error
    artifact "Gemini API error: <message>"; with Claude a rejected call
    and a reply without text content are the error artifacts
    "Claude API error: <message>" and "Claude API error: No text content
    in Claude response".  Any reply with text is the success artifact
    under the heading of the title. *)
Theorem generateOne_artifact_of_each_provider :
  forall (env : Env) (bookTitle : jsstring) (history : list Event),
    (getProvider env None = Return (GeminiProvider env) ->
     fst (generateOne env bookTitle history)
     = Return
         match gemini_generateContent env history
                 (Generate bookTitle synopsis None) with
         | Return synopsisText =>
             {| title := bookTitle;
                content := heading bookTitle ++ synopsisText;
                error := None |}
         | Throw thrown =>
             {| title := bookTitle;
                content := heading bookTitle ++ CROSS_MARK ++ str " Error: "
                           ++ str "Gemini API error: " ++ errorMessage thrown;
                error := Some true |}
         end)
    /\ (getProvider env None = Return (ClaudeProvider env) ->
        fst (generateOne env bookTitle history)
        = Return
            match claude_messages_create env history
                    (Generate bookTitle synopsis None) with
            | Return (Some synopsisText) =>
                {| title := bookTitle;
                   content := heading bookTitle ++ synopsisText;
                   error := None |}
            | Return None =>
                {| title := bookTitle;
                   content :=
                     heading bookTitle ++ CROSS_MARK ++ str " Error: "
                     ++ str "Claude API error: "
                     ++ str "No text content in Claude response";
                   error := Some true |}
            | Throw thrown =>
                {| title := bookTitle;
                   content :=
                     heading bookTitle ++ CROSS_MARK ++ str " Error: "
                     ++ str "Claude API error: " ++ errorMessage thrown;
                   error := Some true |}
            end).
Proof.
  intros env bookTitle history. split; intros Hget.
  - rewrite generateOne_spec. cbn [fst].
    unfold providerManager_generateSynopsis.
    rewrite Hget, bind_await_Return.
    cbn [generateSynopsis GeminiProvider].
    unfold GeminiProvider_generate, try_catch, geminiCall, throw.
    destruct (gemini_generateContent env history _); reflexivity.
  - rewrite generateOne_spec. cbn [fst].
    unfold providerManager_generateSynopsis.
    rewrite Hget, bind_await_Return.
    cbn [generateSynopsis ClaudeProvider].
    unfold ClaudeProvider_generate, try_catch, bind, claudeCall, throw, ret.
    destruct (claude_messages_create env history _) as [[text|]|thrown];
      reflexivity.
Qed.

Lemma generateOne_artifact_of_each_provider_witness :
  fst (generateOne Examples.env (str "1984") [])
  = Return
      {| title := str "1984";
         content := heading (str "1984") ++ CROSS_MARK
                    ++ str " Error: Gemini API error: quota exceeded";
         error := Some true |}.
Proof.
  rewrite (proj1 (generateOne_artifact_of_each_provider Examples.env
                    (str "1984") []) eq_refl).
  reflexivity.
Defined.

(** X13.  [getProvider] looks up the name it is given, or the current
    selection when it is given none or the empty string.  It returns a
    provider, and one of that name, exactly when the name is among the
    available providers; otherwise it throws the error that names it
    and lists the available ones. *)
Theorem getProvider_returns_the_named_provider :
  forall (env : Env) (providerName : option jsstring),
    let wanted :=
      match providerName with
      | Some (c :: n) => c :: n
      | _ => getCurrentProvider env
      end in
    (In wanted (getAvailableProviders env) ->
     exists provider,
       getProvider env providerName = Return provider
       /\ name provider = wanted)
    /\ (~ In wanted (getAvailableProviders env) ->
        getProvider env providerName
        = Throw (ErrorObject
            (str "Provider '" ++ wanted
             ++ str "' not available. Available providers: "
             ++ join (str ", ") (getAvailableProviders env)))).
Proof.
  intros env providerName wanted.
  rewrite (getProvider_wanted env providerName). fold wanted.
  split.
  - intros Havailable.
    apply providers_has_available, providers_get_has in Havailable.
    destruct Havailable as [provider Hget]. exists provider.
    rewrite Hget. split; [reflexivity|].
    exact (providers_get_name env wanted provider Hget).
  - intros Hmissing.
    destruct (providers_get wanted (providers env)) as [provider|] eqn:Hget;
      [|reflexivity].
    exfalso. apply Hmissing. apply providers_has_available, providers_get_has.
    now exists provider.
Qed.

Lemma getProvider_returns_the_named_provider_witness :
  getProvider Examples.env (Some (str "claude"))
  = Throw (ErrorObject
      (str "Provider 'claude' not available. Available providers: gemini")).
Proof.
  apply (proj2 (getProvider_returns_the_named_provider Examples.env
                  (Some (str "claude")))).
  vm_compute. intuition discriminate.
Defined.

(** X14.  Selecting a provider succeeds exactly when it is available.
    After a successful selection the current provider is the selected
    one, the available providers are unchanged, and [getProvider]
    without a name returns a provider of that name.  Selecting a
    provider that is not available throws "Provider '<name>' is not
    configured" and leaves the selection as it was. *)
Theorem setCurrentProvider_selects_an_available_provider :
  forall (env : Env) (providerName : jsstring),
    (In providerName (getAvailableProviders env) ->
     exists env' provider,
       setCurrentProvider env providerName = (Return tt, env')
       /\ getCurrentProvider env' = providerName
       /\ getAvailableProviders env' = getAvailableProviders env
       /\ getProvider env' None = Return provider
       /\ name provider = providerName)
    /\ (~ In providerName (getAvailableProviders env) ->
        setCurrentProvider env providerName
        = (Throw (ErrorObject
                    (str "Provider '" ++ providerName
                     ++ str "' is not configured")),
           env)).
Proof.
  intros env providerName. unfold setCurrentProvider. split.
  - intros Havailable.
    assert (Hhas := proj2 (providers_has_available env providerName) Havailable).
    rewrite Hhas. cbn [negb].
    pose (env' := withCurrentProvider env providerName).
    assert (Havailable' : In (getCurrentProvider env')
                            (getAvailableProviders env')).
    { unfold env'. now rewrite providers_withCurrentProvider. }
    apply providers_has_available, providers_get_has in Havailable'.
    destruct Havailable' as [provider Hget].
    exists env', provider.
    split; [reflexivity|]. split; [reflexivity|].
    split; [apply providers_withCurrentProvider|].
    split.
    + rewrite getProvider_current. unfold getCurrentProvider in Hget.
      now rewrite Hget.
    + exact (providers_get_name env' _ provider Hget).
  - intros Hmissing.
    destruct (providers_has providerName (providers env)) eqn:Hhas;
      [|reflexivity].
    exfalso. apply Hmissing. now apply providers_has_available.
Qed.

Lemma setCurrentProvider_selects_an_available_provider_witness :
  exists env' provider,
    setCurrentProvider Scenarios.welcoming (str "claude") = (Return tt, env')
    /\ getCurrentProvider env' = str "claude"
    /\ getAvailableProviders env' = getAvailableProviders Scenarios.welcoming
    /\ getProvider env' None = Return provider
    /\ name provider = str "claude".
Proof.
  apply (proj1 (setCurrentProvider_selects_an_available_provider
                  Scenarios.welcoming (str "claude"))).
  vm_compute. right. left. reflexivity.
Defined.

(** X15.  The deferred continuation never rejects: whatever the
    interaction, the configuration and the answers of the remote
    services, and whatever a single-artifact command does,
    [processDeferred] completes normally. *)
Theorem processDeferred_never_rejects :
  forall (env : Env) (interaction : Interaction) (history : list Event),
    fst (processDeferred env interaction history) = Return tt.
Proof. intros env interaction history. apply processDeferred_returns. Qed.

(** X16.  When the resolver of a batch invocation throws, the
    continuation does nothing more than report it: its events are those
    of the resolver followed by those of the catch, which sends the
    follow-up "<cross mark> Error: <message>"; and when that text fits
    one message, exactly one post, not ephemeral. *)
Theorem resolver_failure_is_reported_to_the_invoker :
  forall (env : Env) (interaction : Interaction) (raw : jsstring)
         (history : list Event) (thrown : Thrown) (events : list Event),
    batchInput interaction = Some raw ->
    parseTitles env raw history = (Throw thrown, events) ->
    let report :=
      webhookRequest interaction false
        (CROSS_MARK ++ str " Error: " ++ errorMessage thrown) in
    processDeferred env interaction history
    = (Return tt,
       events ++ snd (reportError env interaction thrown (history ++ events)))
    /\ (length (CROSS_MARK ++ str " Error: " ++ errorMessage thrown)
        <= DEFAULT_MAX_LENGTH ->
        processDeferred env interaction history
        = (Return tt,
           events ++ [Fetch report (fetch env (history ++ events) report)])).
Proof.
  intros env interaction raw history thrown events Hbatch Hparse report.
  destruct (processDeferred_batch env interaction raw history Hbatch)
    as (continuation & Hrun & _).
  assert (Hfirst : processDeferred env interaction history
    = (Return tt,
       events ++ snd (reportError env interaction thrown (history ++ events)))).
  { rewrite Hrun.
    rewrite (try_catch_bind_Throw _ _ _ _ _ _ Hparse).
    unfold reportError. now rewrite sendFollowUp_returns. }
  split; [exact Hfirst|].
  intros Hfits. rewrite Hfirst. unfold reportError.
  now rewrite sendFollowUp_single by exact Hfits.
Qed.

Lemma resolver_failure_is_reported_to_the_invoker_witness :
  processDeferred Examples.rejectingEnv
    (Scenarios.generateSynopses (Some Examples.conversational)) []
  = (Return tt,
     [ClaudeMessagesCreate (ExtractTitles Examples.conversational)
        (Throw (ErrorObject (str "529 overloaded")));
      Fetch (PostWebhook (str "app") (str "tok")
               (CROSS_MARK ++ str " Error: Claude API error: 529 overloaded")
               None)
        (Return Examples.acceptedResponse)]).
Proof.
  assert (Hbatch :
    batchInput (Scenarios.generateSynopses (Some Examples.conversational))
    = Some Examples.conversational) by reflexivity.
  assert (Hparse :
    parseTitles Examples.rejectingEnv Examples.conversational []
    = (Throw (ErrorObject (str "Claude API error: 529 overloaded")),
       [ClaudeMessagesCreate (ExtractTitles Examples.conversational)
          (Throw (ErrorObject (str "529 overloaded")))]))
    by (vm_compute; reflexivity).
  destruct (resolver_failure_is_reported_to_the_invoker Examples.rejectingEnv
              (Scenarios.generateSynopses (Some Examples.conversational))
              Examples.conversational [] _ _ Hbatch Hparse) as [_ Hone].
  rewrite Hone.
  - reflexivity.
  - vm_compute. lia.
Defined.

(** X17.  When the resolver of a batch invocation returns no title, the
    continuation posts one follow-up, the "Could not find any book
    titles" diagnostic of the command, and ends: no thread is
    requested and no artifact is generated. *)
Theorem no_titles_ends_after_resolving :
  forall (env : Env) (interaction : Interaction) (raw : jsstring)
         (history : list Event) (events : list Event),
    batchInput interaction = Some raw ->
    parseTitles env raw history = (Return [], events) ->
    let diagnostic :=
      webhookRequest interaction false (noTitlesFound interaction) in
    processDeferred env interaction history
    = (Return tt,
       events ++ [Fetch diagnostic (fetch env (history ++ events) diagnostic)])
    /\ requests (snd (processDeferred env interaction history)) = [diagnostic]
    /\ Forall (fun event => isGenerationCall event = false)
         (snd (processDeferred env interaction history)).
Proof.
  intros env interaction raw history events Hbatch Hparse diagnostic.
  destruct (processDeferred_batch env interaction raw history Hbatch)
    as (continuation & Hrun & Hempty & _).
  assert (Hfirst : processDeferred env interaction history
    = (Return tt,
       events
       ++ [Fetch diagnostic (fetch env (history ++ events) diagnostic)])).
  { rewrite Hrun.
    rewrite (try_catch_bind_Return _ _ _ _ _ _ Hparse).
    rewrite (Hempty [] eq_refl).
    rewrite (try_catch_returned _ _ _ tt)
      by apply sendFollowUp_returns.
    now rewrite sendFollowUp_single by apply noTitlesFound_fits. }
  split; [exact Hfirst|].
  rewrite Hfirst. cbn [snd].
  pose proof (parseTitles_providerCalls env raw history) as Hcalls.
  rewrite Hparse in Hcalls. cbn [snd] in Hcalls.
  split.
  - rewrite requests_app.
    assert (Hnone : requests events = []).
    { clear - Hcalls. induction Hcalls as [|event events Hevent _ IH];
        [reflexivity|].
      unfold requests in *. cbn [flat_map]. rewrite IH.
      destruct event; try discriminate Hevent; reflexivity. }
    now rewrite Hnone.
  - apply Forall_app. split.
    + pose proof (parseTitles_events env raw history) as H.
      now rewrite Hparse in H.
    + repeat constructor.
Qed.

Lemma no_titles_ends_after_resolving_witness :
  requests
    (snd (processDeferred Examples.env
            (Scenarios.generateSynopses (Some Examples.conversational)) []))
  = [PostWebhook (str "app") (str "tok")
       (CROSS_MARK ++ str " Could not find any book titles in that message")
       None].
Proof.
  assert (Hbatch :
    batchInput (Scenarios.generateSynopses (Some Examples.conversational))
    = Some Examples.conversational) by reflexivity.
  assert (Hparse :
    parseTitles Examples.env Examples.conversational []
    = (Return [],
       [GeminiGenerateContent (ExtractTitles Examples.conversational)
          (Return (str "no titles here"))]))
    by (vm_compute; reflexivity).
  destruct (no_titles_ends_after_resolving Examples.env
              (Scenarios.generateSynopses (Some Examples.conversational))
              Examples.conversational [] _ Hbatch Hparse) as (_ & Hrequests & _).
  exact Hrequests.
Defined.

(** X18.  When a batch invocation asks for a thread, the thread is
    created and every request is accepted, the list of the titles and
    then every chunk of every artifact, in the order of the titles, are
    posted to that thread; the invoker gets one message, the ephemeral
    acknowledgment, and nothing is posted publicly through the
    interaction webhook. *)
Theorem created_thread_receives_the_batch :
  forall (env : Env) (interaction : Interaction) (raw : jsstring)
         (history : list Event) (titles : list jsstring)
         (events : list Event) (threadId : jsstring)
         (threadEvents : list Event),
    transportAccepts env ->
    batchInput interaction = Some raw ->
    parseTitles env raw history = (Return titles, events) ->
    1 <= length titles <= MAX_BATCH ->
    requestsThread interaction = true ->
    threadCreation env interaction titles (history ++ events)
    = (Return (Some threadId), threadEvents) ->
    threadId <> [] ->
    let trace := snd (processDeferred env interaction history) in
    exists results,
      GeneratedInOrder env
        (((history ++ events) ++ threadEvents)
         ++ snd (sendToThread env threadId (threadIntro titles)
                   ((history ++ events) ++ threadEvents)))
        titles results
      /\ channelPosts threadId trace
         = splitContent (threadIntro titles)
           ++ concat (map (fun result => splitContent (content result))
                        results)
      /\ webhookPosts trace = [threadAcknowledgment (length titles)]
      /\ publicPosts trace = [].
Proof.
  intros env interaction raw history titles events threadId threadEvents
    Hacc Hbatch Hparse Hcount Hthread Hcreate Hid trace.
  destruct (processDeferred_batch env interaction raw history Hbatch)
    as (continuation & Hrun & _ & _ & Hdeliver).
  destruct (threadCreation_token env interaction titles (history ++ events)
              threadId threadEvents Hcreate) as (Htoken & Hnone2 & Hquiet2).
  destruct (deliverToThread_accepted env interaction threadId titles
              ((history ++ events) ++ threadEvents) Hacc Htoken
              (proj2 Hcount))
    as (results & Hgen & Hret & Hchannel & Hwebhook & Hpublic).
  exists results. split; [exact Hgen|].
  subst trace. rewrite Hrun.
  rewrite (try_catch_bind_Return _ _ _ _ _ _ Hparse). cbn [snd].
  rewrite (Hdeliver titles (history ++ events) threadId threadEvents
             Hcount Hthread Hcreate Hid). cbn [snd].
  rewrite (try_catch_returned _ _ _ tt) by exact Hret.
  pose proof (parseTitles_providerCalls env raw history) as Hcalls.
  rewrite Hparse in Hcalls. cbn [snd] in Hcalls.
  destruct (providerCalls_are_not_posts events Hcalls) as [Hnone1 Hquiet1].
  rewrite !channelPosts_app, !webhookPosts_app, !publicPosts_app.
  rewrite Hchannel, Hwebhook, Hpublic.
  rewrite (channelPosts_of_other_events threadId events Hquiet1).
  rewrite (channelPosts_of_other_events threadId threadEvents Hquiet2).
  destruct (observers_of_other_events events Hnone1) as [-> ->].
  destruct (observers_of_other_events threadEvents Hnone2) as [-> ->].
  repeat split.
Qed.

Lemma created_thread_receives_the_batch_witness :
  let interaction := Scenarios.generateSynopses (Some Examples.twoTitles) in
  let trace := snd (processDeferred Scenarios.welcoming interaction []) in
  channelPosts (str "1001") trace
  = [threadIntro [str "Dune"; str "1984"];
     heading (str "Dune") ++ str "About Dune";
     heading (str "1984") ++ str "About 1984"]
  /\ webhookPosts trace = [threadAcknowledgment 2]
  /\ publicPosts trace = [].
Proof.
  intros interaction trace.
  assert (Hacc : transportAccepts Scenarios.welcoming).
  { intros history request. exists Examples.acceptedResponse.
    split; reflexivity. }
  assert (Hbatch : batchInput interaction = Some Examples.twoTitles)
    by reflexivity.
  assert (Hparse :
    parseTitles Scenarios.welcoming Examples.twoTitles []
    = (Return [str "Dune"; str "1984"], [])) by reflexivity.
  assert (Hcount : 1 <= length [str "Dune"; str "1984"] <= MAX_BATCH).
  { unfold MAX_BATCH. cbn [length]. lia. }
  assert (Hthread : requestsThread interaction = true) by reflexivity.
  assert (Hcreate :
    threadCreation Scenarios.welcoming interaction [str "Dune"; str "1984"]
      ([] ++ [])
    = (Return (Some (str "1001")),
       [Fetch (PostMessageThread (Some (str "42")) (str "7")
                 (batchThreadName 2))
          (Return Examples.acceptedResponse)])) by reflexivity.
  assert (Hid : str "1001" <> []) by discriminate.
  destruct (created_thread_receives_the_batch Scenarios.welcoming
              interaction Examples.twoTitles [] [str "Dune"; str "1984"] []
              (str "1001") _ Hacc Hbatch Hparse Hcount Hthread Hcreate Hid)
    as (results & Hgen & Hchannel & Hwebhook & Hpublic).
  split; [|split; [exact Hwebhook|exact Hpublic]].
  fold trace in Hchannel.
  assert (Hresults : results
    = [successResult (str "Dune") (str "About Dune");
       successResult (str "1984") (str "About 1984")]).
  { inversion Hgen as [|? ? ? ? ? Hgen']; subst.
    inversion Hgen' as [|? ? ? ? ? Hgen'']; subst.
    inversion Hgen''; subst. reflexivity. }
  rewrite Hchannel, Hresults. vm_compute. reflexivity.
Defined.



(** X20.  A follow-up never rejects, and it posts a prefix of the
    chunks of its content, at least the first: every request it makes
    goes to the webhook of the interaction, carries the next chunk in
    order and the requested ephemeral flag. *)
Theorem sendFollowUp_posts_a_prefix_of_the_chunks :
  forall (env : Env) (interaction : Interaction) (message : jsstring)
         (ephemeral : bool) (history : list Event),
    fst (sendFollowUp env interaction message ephemeral history) = Return tt
    /\ exists n,
         1 <= n <= length (splitContent message)
         /\ requests
              (snd (sendFollowUp env interaction message ephemeral history))
            = map (fun chunk =>
                     PostWebhook (application_id interaction)
                       (token interaction) chunk
                       (if ephemeral then Some EPHEMERAL else None))
                (firstn n (splitContent message)).
Proof.
  intros env interaction message ephemeral history.
  split; [apply sendFollowUp_returns|].
  unfold sendFollowUp. rewrite snd_try_catch, sendFollowUp_loop_postChunks.
  destruct (postChunks_prefix env (webhookRequest interaction ephemeral)
              (splitContent message) history) as (n & Hn & Hpos & Hreq).
  exists n. split.
  - split; [|exact Hn]. apply Hpos. apply splitContent_nonempty.
  - rewrite requests_app, Hreq.
    destruct (fst (postChunks _ _ _ _)); cbn [ret snd requests flat_map];
      now rewrite app_nil_r.
Qed.

(** X21.  Creating a thread, standalone or from a message, never
    rejects and makes at most one request: none without a bot token,
    otherwise one that carries the first hundred units of the name.  An
    identifier is returned only when that request was answered, the
    answer was [ok], and its body held that identifier. *)
Theorem thread_creation_guarantees :
  forall (env : Env) (channelId : option jsstring)
         (messageId threadName : jsstring) (history : list Event),
    let standalone := createStandaloneThread env channelId threadName history in
    let fromMessage :=
      createThreadFromMessage env channelId messageId threadName history in
    let sentName := firstn THREAD_NAME_LIMIT threadName in
    (botTokenMissing env = true ->
     standalone = (Return None, []) /\ fromMessage = (Return None, []))
    /\ (botTokenMissing env = false ->
        requests (snd standalone) = [PostChannelThread channelId sentName]
        /\ requests (snd fromMessage)
           = [PostMessageThread channelId messageId sentName])
    /\ (forall run,
          run = standalone \/ run = fromMessage ->
          (exists threadId, fst run = Return threadId)
          /\ (forall threadId,
                fst run = Return (Some threadId) ->
                exists request response,
                  snd run = [Fetch request (Return response)]
                  /\ ok response = true
                  /\ json_id response = Return (Some threadId))).
Proof.
  intros env channelId messageId threadName history standalone fromMessage
    sentName.
  subst standalone fromMessage.
  unfold createStandaloneThread, createThreadFromMessage.
  destruct (botTokenMissing env).
  - split; [split; reflexivity|]. split; [discriminate|].
    intros run [-> | ->]; (split; [now exists None|discriminate]).
  - rewrite !createThread_run. cbv zeta.
    split; [discriminate|]. split; [split; reflexivity|].
    intros run [-> | ->]; cbn [fst snd];
      (split; [eexists; reflexivity|]);
      intros threadId Hid;
      match goal with
      | |- context [Fetch ?request (fetch env history ?request)] =>
          destruct (fetch env history request) as [response|thrown];
          [|discriminate Hid]; exists request, response
      end;
      (destruct (ok response); [|discriminate Hid]);
      (destruct (json_id response) as [id|thrown]; [|discriminate Hid]);
      injection Hid as ->; repeat split.
Qed.

(** X22.  Without a bot token nothing reaches a thread: [sendToThread]
    returns without a request, and a batch sent to a thread makes no
    request either, only the pauses between its results. *)
Theorem thread_delivery_without_token_posts_nothing :
  forall (env : Env) (threadId : jsstring) (results : list SynopsisResult)
         (history : list Event),
    botTokenMissing env = true ->
    (forall message,
        sendToThread env threadId message history = (Return tt, []))
    /\ sendBatchToThread env threadId results history
       = (Return tt, repeat (SetTimeout 500) (length results - 1))
    /\ requests (snd (sendBatchToThread env threadId results history)) = [].
Proof.
  intros env threadId results history Htoken.
  split; [intros message; now apply sendToThread_without_token|].
  rewrite (sendBatchToThread_without_token env threadId results Htoken).
  split; [reflexivity|]. cbn [snd].
  induction (length results - 1) as [|k IH]; [reflexivity|exact IH].
Qed.

Lemma thread_delivery_without_token_posts_nothing_witness :
  sendBatchToThread Scenarios.unconfigured (str "1001") Examples.twoResults []
  = (Return tt, [SetTimeout 500]).
Proof.
  destruct (thread_delivery_without_token_posts_nothing
              Scenarios.unconfigured (str "1001") Examples.twoResults []
              eq_refl) as (_ & Hrun & _).
  exact Hrun.
Defined.



(** X24.  The immediate handlers defer only what the continuation can
    resolve: after a deferred message command the continuation finds a
    text to resolve, and it is not empty; a deferred [/synopsis-batch]
    hands the resolver a [titles] string with something other than
    white space in it.  The converse fails for a poll: a poll message
    without content is refused at once with "Could not read the
    message content", although the continuation would read the texts
    of its answers.  Whatever is not deferred is answered by an
    ephemeral error message. *)
Theorem deferred_batch_has_an_input :
  forall (interaction : Interaction),
    (N.eqb (data_type interaction) ApplicationCommandType_Message = true ->
     handleMessageCommand interaction = deferredResponse ->
     exists messageContent,
       batchInput interaction = Some messageContent
       /\ messageContent <> [])
    /\ (JS.eqb (data_name interaction) (str "Generate Synopses") = true ->
        truthy (target_content interaction) = false ->
        forall (answers : list (option jsstring)) (answer : jsstring),
          target_poll_answers interaction = Some answers ->
          In (Some answer) answers ->
          answer <> [] ->
          handleMessageCommand interaction
          = errorResponse (str "Could not read the message content")
          /\ exists titles,
               getMessageCommandContent interaction = Some titles
               /\ titles <> [])
    /\ (N.eqb (data_type interaction) ApplicationCommandType_Message = false ->
        JS.eqb (data_name interaction) (str "synopsis-batch") = true ->
        handleSynopsisBatchCommand interaction = deferredResponse ->
        exists titlesString,
          batchInput interaction = Some titlesString
          /\ trim titlesString <> [])
    /\ (forall response,
          response = handleMessageCommand interaction
          \/ response = handleSynopsisBatchCommand interaction ->
          response = deferredResponse
          \/ exists message, response = errorResponse message).
Proof.
  intros interaction. split; [|split; [|split]].
  - intros Htype. unfold handleMessageCommand, batchInput.
    rewrite Htype.
    destruct (JS.eqb (data_name interaction) (str "Generate Synopses"));
      [|discriminate].
    destruct (truthy (target_content interaction)) eqn:Htruthy; cbn [negb];
      [|discriminate].
    intros _. unfold getMessageCommandContent. rewrite Htruthy.
    assert (Hcontent : exists messageContent,
               target_content interaction = Some messageContent
               /\ messageContent <> []).
    { destruct (target_content interaction) as [[|c t]|];
        try discriminate Htruthy.
      exists (c :: t). split; [reflexivity|discriminate]. }
    destruct (target_poll_answers interaction) as [answers|];
      [|exact Hcontent].
    cbv zeta.
    destruct (filter truthy answers) as [|first titles] eqn:Hfilter;
      [exact Hcontent|].
    cbn [length Nat.ltb Nat.leb]. eexists. split; [reflexivity|].
    apply poll_titles_nonempty with (answers := answers). exact Hfilter.
  - intros Hname Hfalsy answers answer Hpoll Hin Hanswer. split.
    + unfold handleMessageCommand. now rewrite Hname, Hfalsy.
    + unfold getMessageCommandContent. rewrite Hpoll. cbv zeta.
      destruct (filter truthy answers) as [|first titles] eqn:Hfilter.
      * exfalso.
        assert (Hkept : In (Some answer) (filter truthy answers)).
        { apply filter_In. split; [exact Hin|].
          destruct answer; [congruence|reflexivity]. }
        rewrite Hfilter in Hkept. exact Hkept.
      * cbn [length Nat.ltb Nat.leb]. eexists. split; [reflexivity|].
        apply poll_titles_nonempty with (answers := answers). exact Hfilter.
  - intros Htype Hname. unfold handleSynopsisBatchCommand, batchInput.
    rewrite Htype, Hname.
    destruct (findOption (str "titles") (data_options interaction))
      as [[optionName [value| | |]]|]; try discriminate.
    cbv zeta. destruct (trim value) as [|c rest] eqn:Htrim;
      [discriminate|].
    intros _. exists value. cbn [stringOption]. split; [reflexivity|].
    rewrite Htrim. discriminate.
  - intros response [-> | ->].
    + unfold handleMessageCommand.
      destruct (JS.eqb _ _); [destruct (negb _)|];
        try (now left); right; eexists; reflexivity.
    + unfold handleSynopsisBatchCommand.
      destruct (findOption _ _) as [[optionName [value| | |]]|];
        try (right; eexists; reflexivity).
      cbv zeta. destruct (length (trim value) =? 0);
        [right; eexists; reflexivity|now left].
Qed.

Lemma deferred_batch_has_an_input_witness :
  handleMessageCommand (Scenarios.generateSynopsesOfPoll [str "Dune"; str "Emma"])
  = errorResponse (str "Could not read the message content")
  /\ exists titles,
       getMessageCommandContent
         (Scenarios.generateSynopsesOfPoll [str "Dune"; str "Emma"])
       = Some titles
       /\ titles <> [].
Proof.
  apply (proj1 (proj2 (deferred_batch_has_an_input
                         (Scenarios.generateSynopsesOfPoll
                            [str "Dune"; str "Emma"])))
           eq_refl eq_refl
           [Some (str "Dune"); Some (str "Emma")] (str "Dune") eq_refl).
  - left. reflexivity.
  - discriminate.
Defined.

(** X25.  [buildPrompt] leaves a template without an opening brace as
    it is, whatever the variables; and a value without a dollar sign
    replaces every occurrence of its placeholder verbatim: in a
    template made of brace-free pieces joined by the placeholder, the
    result is the pieces joined by the value. *)
Theorem buildPrompt_substitutes_plain_values_verbatim :
  forall (key : PromptKey) (value : jsstring) (pieces : list jsstring)
         (template : jsstring) (variables : list (PromptKey * jsstring)),
    (~ In 123%N template -> buildPrompt template variables = template)
    /\ (~ In DOLLAR value ->
        Forall (fun piece => ~ In 123%N piece) pieces ->
        buildPrompt (join (placeholder key) pieces) [(key, value)]
        = join value pieces).
Proof.
  intros key value pieces template variables. split.
  - intros Htemplate. unfold buildPrompt.
    induction variables as [|[k v] variables IH]; [reflexivity|].
    cbn [fold_left fst snd].
    now rewrite replaceGlobal_without_brace by exact Htemplate.
  - intros Hvalue Hpieces. unfold buildPrompt. cbn [fold_left fst snd].
    unfold replaceGlobal. now apply replaceFrom_joined.
Qed.

Lemma buildPrompt_substitutes_plain_values_verbatim_witness :
  buildPrompt (str "Synopsis of {title}. Format: {title} by [Author]")
    [(key_title, str "Dune")]
  = str "Synopsis of Dune. Format: Dune by [Author]".
Proof.
  apply (proj2 (buildPrompt_substitutes_plain_values_verbatim key_title
                  (str "Dune")
                  [str "Synopsis of "; str ". Format: "; str " by [Author]"]
                  [] [])).
  - vm_compute. intuition discriminate.
  - repeat constructor; vm_compute; intuition discriminate.
Defined.

(** X26.  A dollar sign in a value is not copied: the value is read as
    a replacement pattern.  In the prompt built from a template with
    one placeholder, [$$] in the value becomes one dollar sign, [$&]
    the placeholder itself, [$`] the text of the template before the
    placeholder and [$'] the text after it. *)
Theorem buildPrompt_reads_dollar_patterns_in_values :
  forall (key : PromptKey) (a b v1 v2 : jsstring),
    ~ In 123%N a -> ~ In 123%N b ->
    ~ In DOLLAR v1 -> ~ In DOLLAR v2 ->
    let prompt value :=
      buildPrompt (a ++ placeholder key ++ b) [(key, value)] in
    prompt (v1 ++ [DOLLAR; DOLLAR] ++ v2) = a ++ (v1 ++ [DOLLAR] ++ v2) ++ b
    /\ prompt (v1 ++ [DOLLAR; 38%N] ++ v2)
       = a ++ (v1 ++ placeholder key ++ v2) ++ b
    /\ prompt (v1 ++ [DOLLAR; 96%N] ++ v2) = a ++ (v1 ++ a ++ v2) ++ b
    /\ prompt (v1 ++ [DOLLAR; 39%N] ++ v2) = a ++ (v1 ++ b ++ v2) ++ b.
Proof.
  intros key a b v1 v2 Ha Hb Hv1 Hv2 prompt. subst prompt. cbv beta.
  unfold buildPrompt. cbn [fold_left fst snd].
  rewrite !replaceGlobal_one by assumption.
  rewrite (getSubstitution_pattern _ _ _ v1 v2 DOLLAR Hv1 Hv2).
  rewrite (getSubstitution_pattern _ _ _ v1 v2 38 Hv1 Hv2).
  rewrite (getSubstitution_pattern _ _ _ v1 v2 96 Hv1 Hv2).
  rewrite (getSubstitution_pattern _ _ _ v1 v2 39 Hv1 Hv2).
  repeat split.
Qed.

Lemma buildPrompt_reads_dollar_patterns_in_values_witness :
  buildPrompt (str "Parse: {text}") [(key_text, str "a $$5 book")]
  = str "Parse: a $5 book".
Proof.
  destruct (buildPrompt_reads_dollar_patterns_in_values key_text
              (str "Parse: ") [] (str "a ") (str "5 book")) as (H & _).
  - vm_compute. intuition discriminate.
  - intros [].
  - vm_compute. intuition discriminate.
  - vm_compute. intuition discriminate.
  - exact H.
Defined.

(** X27.  [searchBook] never fails.  It returns the empty string
    exactly when something inside its [try] throws: the title cannot be
    encoded (a surrogate without its pair), the request to the search
    service fails, or reading the body of the reply throws, as it does
    for a [null] body and for a [null] among the related topics.  For a
    reply of the documented shape it returns a text that is not empty:
    the trimmed text built from the reply, or the "No detailed
    information found" message.  In every case the result has no white
    space at either end. *)
Theorem searchBook_is_empty_only_on_failure :
  forall (StringToNumber_isPositive : jsstring -> bool)
         (axios_get : Completion Json) (bookTitle : jsstring),
    let result := searchBook StringToNumber_isPositive axios_get bookTitle in
    let notFound :=
      str "No detailed information found for " ++ [QUOTE] ++ bookTitle
      ++ [QUOTE] in
    (result = []
     <-> isWellFormed (bookTitle ++ str " book synopsis") = false
         \/ (exists thrown, axios_get = Throw thrown)
         \/ (exists data thrown,
               axios_get = Return data
               /\ searchText StringToNumber_isPositive data = Throw thrown))
    /\ trim result = result
    /\ (forall data : SearchData,
          isWellFormed (bookTitle ++ str " book synopsis") = true ->
          axios_get = Return (dataJson data) ->
          result <> []
          /\ result = match trim (searchInfo data) with
                      | c :: info => c :: info
                      | [] => notFound
                      end)
    /\ (exists thrown,
          searchText StringToNumber_isPositive JNull = Throw thrown)
    /\ (forall fields before after,
          getField (str "RelatedTopics") fields
          = Some (JArray (before ++ JNull :: after)) ->
          exists thrown,
            searchText StringToNumber_isPositive (JObject fields)
            = Throw thrown).
Proof.
  intros positive axios_get bookTitle result notFound.
  assert (HnotFound : trim notFound = notFound).
  { subst notFound.
    change (str "No detailed information found for " ++ [QUOTE]
            ++ bookTitle ++ [QUOTE])
      with (78%N :: (str "o detailed information found for "
                     ++ [QUOTE] ++ bookTitle ++ [QUOTE])).
    rewrite !app_assoc.
    apply trim_fixed_between; reflexivity. }
  assert (Hfull : notFound <> []) by discriminate.
  split; [|split; [|split; [|split]]].
  - subst result. unfold searchBook.
    destruct (isWellFormed (bookTitle ++ str " book synopsis")); cbn [negb].
    + destruct axios_get as [data|thrown]; cbn [andThen].
      * destruct (searchText positive data) as [info|thrown] eqn:Hread.
        -- split.
           ++ destruct (trim info); [intros H; now apply Hfull in H|].
              discriminate.
           ++ intros [H|[[thrown H]|(data' & thrown & H & Hthrow)]];
                try discriminate.
              injection H as <-. rewrite Hread in Hthrow. discriminate.
        -- split; [|reflexivity]. intros _. right. right.
           now exists data, thrown.
      * split; [|reflexivity]. intros _. right. left. now exists thrown.
    + split; [|reflexivity]. intros _. now left.
  - subst result. unfold searchBook.
    destruct (negb _); [reflexivity|].
    destruct (andThen axios_get (searchText positive)) as [info|thrown];
      [|reflexivity].
    destruct (trim info) as [|c rest] eqn:Htrim; [exact HnotFound|].
    rewrite <- Htrim. apply trim_idempotent.
  - intros data Hformed Hreply. subst result. unfold searchBook.
    rewrite Hformed, Hreply. cbn [negb andThen].
    rewrite searchText_typed.
    destruct (trim (searchInfo data)); [|split; [discriminate|reflexivity]].
    split; [exact Hfull|reflexivity].
  - now exists typeError.
  - intros fields before after Hrelated.
    unfold searchText, topicsPart. cbn [getProperty].
    destruct (abstractPart (JObject fields)) as [abstract|thrown];
      [|now exists thrown].
    cbn [andThen]. rewrite Hrelated.
    cbn [truthyValue hasPositiveLength andThen].
    assert (Hlength : (0 <? length (before ++ JNull :: after)) = true).
    { apply Nat.ltb_lt. rewrite length_app. cbn [length]. lia. }
    rewrite Hlength. unfold relatedTopicTexts.
    destruct (filterTopics_null before after) as [thrown Hthrow].
    rewrite Hthrow. cbn [andThen]. now exists thrown.
Qed.

Lemma searchBook_is_empty_only_on_failure_witness :
  let topic := {| Text := Some (str "A novel by Frank Herbert") |} in
  searchBook (fun _ => false)
    (Return (dataJson {| AbstractText := Some (str "Dune is a novel. ");
                         RelatedTopics := Some [topic] |}))
    (str "Dune")
  <> [].
Proof.
  intros topic.
  destruct (proj1 (proj2 (proj2 (searchBook_is_empty_only_on_failure
                                   (fun _ => false)
                                   (Return
                                      (dataJson
                                         {| AbstractText :=
                                              Some (str "Dune is a novel. ");
                                            RelatedTopics := Some [topic] |}))
                                   (str "Dune"))))
              {| AbstractText := Some (str "Dune is a novel. ");
                 RelatedTopics := Some [topic] |}
              eq_refl eq_refl) as [Hfull _].
  exact Hfull.
Defined.



(** X29.  A batch invocation that asks for no thread creates none: when
    the interaction webhook accepts the posts, the processing notice
    and then every chunk of every artifact, in the order of the titles,
    are posted through the webhook, and every request the continuation
    makes is such a post, without the ephemeral flag. *)
Theorem batch_without_thread_is_posted_to_the_channel :
  forall (env : Env) (interaction : Interaction) (raw : jsstring)
         (history : list Event) (titles : list jsstring)
         (events : list Event),
    webhookAccepts env ->
    batchInput interaction = Some raw ->
    parseTitles env raw history = (Return titles, events) ->
    1 <= length titles <= MAX_BATCH ->
    requestsThread interaction = false ->
    let trace := snd (processDeferred env interaction history) in
    exists results,
      GeneratedInOrder env
        ((history ++ events)
         ++ snd (sendFollowUp env interaction (processingNotice titles)
                   false (history ++ events)))
        titles results
      /\ webhookPosts trace
         = splitContent (processingNotice titles)
           ++ concat (map (fun result => splitContent (content result))
                        results)
      /\ Forall (fun request =>
                   exists chunk,
                     request
                     = PostWebhook (application_id interaction)
                         (token interaction) chunk None)
           (requests trace).
Proof.
  intros env interaction raw history titles events Hacc Hbatch Hparse Hcount
    Hthread trace.
  destruct (processDeferred_batch env interaction raw history Hbatch)
    as (continuation & Hrun & _ & Hchannel & _).
  destruct (deliverToChannel_accepted env interaction titles
              (history ++ events) Hacc) as (results & Hgen & Hret & Hposts).
  exists results. split; [exact Hgen|].
  subst trace. rewrite Hrun.
  rewrite (try_catch_bind_Return _ _ _ _ _ _ Hparse). cbn [snd].
  rewrite (Hchannel titles Hcount Hthread).
  rewrite (try_catch_returned _ _ _ tt) by exact Hret.
  pose proof (parseTitles_providerCalls env raw history) as Hcalls.
  rewrite Hparse in Hcalls. cbn [snd] in Hcalls.
  split.
  - rewrite webhookPosts_app, Hposts.
    now rewrite (webhookPosts_providerCalls _ Hcalls).
  - apply requests_Forall. apply Forall_app. split.
    + eapply Forall_impl; [|exact Hcalls].
      intros [| | |]; cbn; discriminate.
    + apply deliverToChannel_public.
Qed.

Lemma batch_without_thread_is_posted_to_the_channel_witness :
  webhookPosts
    (snd (processDeferred Scenarios.welcoming
            (Examples.synopsisBatch Examples.twoTitles false) []))
  = [processingNotice [str "Dune"; str "1984"];
     heading (str "Dune") ++ str "About Dune";
     heading (str "1984") ++ str "About 1984"].
Proof.
  assert (Hacc : webhookAccepts Scenarios.welcoming).
  { intros history application token chunk flags.
    exists Examples.acceptedResponse. split; reflexivity. }
  assert (Hparse :
    parseTitles Scenarios.welcoming Examples.twoTitles []
    = (Return [str "Dune"; str "1984"], [])) by reflexivity.
  assert (Hcount : 1 <= length [str "Dune"; str "1984"] <= MAX_BATCH).
  { unfold MAX_BATCH. cbn [length]. lia. }
  destruct (batch_without_thread_is_posted_to_the_channel Scenarios.welcoming
              (Examples.synopsisBatch Examples.twoTitles false)
              Examples.twoTitles [] [str "Dune"; str "1984"] []
              Hacc eq_refl Hparse Hcount eq_refl)
    as (results & Hgen & Hposts & _).
  assert (Hresults : results
    = [successResult (str "Dune") (str "About Dune");
       successResult (str "1984") (str "About 1984")]).
  { inversion Hgen as [|? ? ? ? ? Hgen']; subst.
    inversion Hgen' as [|? ? ? ? ? Hgen'']; subst.
    inversion Hgen''; subst. reflexivity. }
  rewrite Hposts, Hresults. vm_compute. reflexivity.
Defined.
